(** * Sharing map (util/sharing_map.h): model and verification

    The sharing map is a fixed-height hash trie whose nodes are shared between
    copies of a map.  This development embeds the methods of [sharing_mapt]
    (lookup, insert, erase, replace, update, views and delta views) and proves
    the properties its documentation states about them.

    Conventions of the embedding.
    - A node handle ([innert]) is modelled by the tree it denotes; every
      non-empty node records the address of the payload its [shared_ptr]
      refers to, so that [shares_with] is decidable on the model.
    - [std::size_t] values are [N]; the element counter wraps at [2^64].
    - A method that can abort ([INVARIANT], [PRECONDITION], and [SM_ASSERT]
      when [SM_INTERNAL_CHECKS] is defined) returns a [result].
    - Hash values are [N]; they are only shifted right and masked.
    - The [while(true)] and [do ... while] loops are functions on a fuel
      argument; the methods start them with a bound computed from the tree
      (its height plus one for a walk down the tree, its number of nodes
      for a traversal). *)

From Stdlib Require Import List NArith Bool Lia Arith PeanoNat Sorted Permutation.
Import ListNotations.
Local Open Scope N_scope.
Set Warnings "-register-all".

(** ** Outcomes of a call *)

Inductive failure : Type :=
| invariant_violation   (* INVARIANT / PRECONDITION / enabled SM_ASSERT failed *)
| undefined_behaviour   (* a node read as the wrong variant, a null dereference *)
| out_of_fuel.

Inductive result (A : Type) : Type :=
| Ok (a : A)
| Fail (e : failure).
Arguments Ok {A} a.
Arguments Fail {A} e.

Definition bind {A B : Type} (r : result A) (f : A -> result B) : result B :=
  match r with
  | Ok a => f a
  | Fail e => Fail e
  end.

Notation "x <- c1 ;; c2" := (bind c1 (fun x => c2))
  (at level 61, c1 at next level, right associativity).
Notation "' pat <- c1 ;; c2" := (bind c1 (fun x => match x with pat => c2 end))
  (at level 61, pat pattern, c1 at next level, right associativity).
Notation "c1 ;;; c2" := (bind c1 (fun _ => c2))
  (at level 61, right associativity).

(** Modelled from the spec: invariant.h is not part of the sources.
    [INVARIANT] and [PRECONDITION] are always compiled in and report a
    failed condition through the fatal invariant-violation channel. *)
Definition INVARIANT (b : bool) : result unit :=
  if b then Ok tt else Fail invariant_violation.

Definition PRECONDITION (b : bool) : result unit := INVARIANT b.

Fixpoint for_each {A S : Type} (l : list A) (body : A -> S -> result S) (s : S)
  : result S :=
  match l with
  | [] => Ok s
  | x :: l' => s' <- body x s ;; for_each l' body s'
  end.

Definition front {A : Type} (l : list A) : result A :=
  match l with
  | x :: _ => Ok x
  | [] => Fail undefined_behaviour
  end.

(** ** Static configuration (the constants at the end of sharing_map.h) *)

Definition dummy_level : N := 0xff.
Definition bits : N := 30.
Definition chunk : N := 3.
Definition mask : N := N.shiftr 0xffff (16 - chunk).
Definition levels : N := bits / chunk.

(** [std::size_t] is taken as 64 bits wide. *)
Definition size_t_modulus : N := 2 ^ 64.
Definition size_incr (n : N) : N := (n + 1) mod size_t_modulus.
Definition size_decr (n : N) : N := (n + (size_t_modulus - 1)) mod size_t_modulus.

(** ** Template parameters

    [keyT], [valueT], [fail_if_equal], [hashT] and [equalT] of
    [sharing_mapt], the equality of values used when [fail_if_equal] is set,
    and the macro [SM_INTERNAL_CHECKS].  The key equality functor is taken to
    decide equality of keys. *)

Class sharing_map_params : Type := {
  keyT : Type;
  valueT : Type;
  hash : keyT -> N;
  key_eq_dec : forall a b : keyT, {a = b} + {a <> b};
  value_eq : valueT -> valueT -> bool;
  fail_if_equal : bool;
  SM_INTERNAL_CHECKS : bool
}.

Section Model.
Context {params : sharing_map_params}.

Definition equalT (a b : keyT) : bool :=
  if key_eq_dec a b then true else false.

(** [SM_ASSERT(b)] expands to [INVARIANT(b, ...)] when [SM_INTERNAL_CHECKS]
    is defined and to nothing otherwise. *)
Definition SM_ASSERT (b : bool) : result unit :=
  if SM_INTERNAL_CHECKS then INVARIANT b else Ok tt.

(** The same for a condition whose evaluation is itself a call that can
    abort (the [has_key] calls inside assertions): without
    [SM_INTERNAL_CHECKS] the argument is not evaluated. *)
Definition SM_ASSERT_call (c : result bool) : result unit :=
  if SM_INTERNAL_CHECKS then (b <- c ;; INVARIANT b) else Ok tt.

(** ** Nodes *)

Definition ptr : Type := N.

(** Modelled from the spec: sharing_node.h is not part of the sources.  A
    leaf is a reference-counted [(key, value)] record; [leaf_data] is the
    address of the record. *)
Record leaft : Type := mk_leaf {
  leaf_data : ptr;
  get_key : keyT;
  get_value : valueT
}.

(** Modelled from the spec: sharing_node.h is not part of the sources.  A
    trie node is empty, internal (an ordered mapping from chunk values to
    children) or a container (a list of leaves); non-empty nodes are
    reference counted, [data] is the address of the shared payload. *)
Inductive innert : Type :=
| Empty
| Internal (data : ptr) (m : list (N * innert))
| Container (data : ptr) (con : list leaft).

Definition to_mapt : Type := list (N * innert).
Definition leaf_listt : Type := list leaft.

(** Modelled from the spec: the state discriminators of a node
    (sharing_node.h is not part of the sources).  As the assertions of
    [insert] and [migrate] require, an empty node passes both [is_internal]
    and [is_container]: the root of a new map is empty and [insert] asserts
    [ip->is_internal()] on it. *)
Definition is_empty (n : innert) : bool :=
  match n with Empty => true | _ => false end.

Definition is_internal (n : innert) : bool :=
  match n with Container _ _ => false | _ => true end.

Definition is_container (n : innert) : bool :=
  match n with Internal _ _ => false | _ => true end.

Definition is_defined_internal (n : innert) : bool :=
  negb (is_empty n) && is_internal n.

Definition is_defined_container (n : innert) : bool :=
  negb (is_empty n) && is_container n.

Definition data_of (n : innert) : option ptr :=
  match n with
  | Empty => None
  | Internal p _ => Some p
  | Container p _ => Some p
  end.

(** Modelled from the spec: [shares_with] of sharing_node.h is true iff
    both handles refer to the same allocation. *)
Definition shares_with (a b : innert) : bool :=
  match data_of a, data_of b with
  | Some p, Some q => p =? q
  | None, None => true
  | _, _ => false
  end.

Definition leaf_shares_with (l1 l2 : leaft) : bool :=
  leaf_data l1 =? leaf_data l2.

(** Modelled from the spec: the read accessors of sharing_node.h for the
    mapping of an internal node and the leaf list of a container.  Reading
    a node as the wrong variant, or an empty node, is undefined. *)
Definition get_to_map (n : innert) : result to_mapt :=
  match n with
  | Internal _ m => Ok m
  | _ => Fail undefined_behaviour
  end.

Definition get_container (n : innert) : result leaf_listt :=
  match n with
  | Container _ ll => Ok ll
  | _ => Fail undefined_behaviour
  end.

Fixpoint tm_find (i : N) (m : to_mapt) : option innert :=
  match m with
  | [] => None
  | (j, c) :: m' => if j =? i then Some c else tm_find i m'
  end.

(** Modelled from the spec: [find_child(i)] of sharing_node.h on an
    internal node returns the child at chunk value [i] if present, else
    absent. *)
Definition find_child (i : N) (n : innert) : result (option innert) :=
  m <- get_to_map n ;; Ok (tm_find i m).

(** Modelled from the spec: [find_leaf(k)] of sharing_node.h on a container
    is a linear search by key equality. *)
Definition find_leaf (k : keyT) (n : innert) : result (option leaft) :=
  ll <- get_container n ;;
  Ok (List.find (fun l => equalT (get_key l) k) ll).

Definition is_singular (ll : leaf_listt) : bool :=
  match ll with
  | [_] => true
  | _ => false
  end.

(** Bounds for the loops: the height of a tree and its number of nodes. *)
Fixpoint height (n : innert) : nat :=
  match n with
  | Internal _ m =>
      S ((fix go (m : to_mapt) : nat :=
            match m with
            | [] => O
            | (_, c) :: m' => Nat.max (height c) (go m')
            end) m)
  | _ => O
  end.

Fixpoint node_count (n : innert) : nat :=
  match n with
  | Internal _ m =>
      S ((fix go (m : to_mapt) : nat :=
            match m with
            | [] => O
            | (_, c) :: m' => (node_count c + go m')%nat
            end) m)
  | _ => 1%nat
  end.

(** ** The map *)

Record sharing_mapt : Type := mk_sharing_map {
  map : innert;   (* key-value map *)
  num : N         (* number of elements in the map *)
}.

(** A default-constructed map. *)
Definition new_map : sharing_mapt := mk_sharing_map Empty 0.

(** The implicit copy constructor copies the root handle and the counter:
    the copy refers to the same root allocation. *)
Definition clone (sm : sharing_mapt) : sharing_mapt :=
  mk_sharing_map (map sm) (num sm).

Definition size (sm : sharing_mapt) : N := num sm.

Definition empty (sm : sharing_mapt) : bool := num sm =? 0.

Definition clear (sm : sharing_mapt) : sharing_mapt :=
  mk_sharing_map Empty 0.

Definition swap (sm other : sharing_mapt) : sharing_mapt * sharing_mapt :=
  (mk_sharing_map (map other) (num other), mk_sharing_map (map sm) (num sm)).

(** *** Lookup *)

Fixpoint get_container_node_const_loop (fuel : nat) (ip : innert) (key : N)
  : result (option innert) :=
  match fuel with
  | O => Fail out_of_fuel
  | S fuel' =>
      let bit := N.land key mask in
      p <- find_child bit ip ;;
      match p with
      | None => Ok None
      | Some ip' =>
          SM_ASSERT (negb (is_empty ip')) ;;;
          if is_container ip' then Ok (Some ip')
          else get_container_node_const_loop fuel' ip' (N.shiftr key chunk)
      end
  end.

(** [get_container_node(k) const] *)
Definition get_container_node_const (sm : sharing_mapt) (k : keyT)
  : result (option innert) :=
  if empty sm then Ok None
  else
    let key := hash k in
    let ip := map sm in
    SM_ASSERT (is_defined_internal ip) ;;;
    get_container_node_const_loop (S (height ip)) ip key.

Definition get_leaf_node (sm : sharing_mapt) (k : keyT) : result (option leaft) :=
  cp <- get_container_node_const sm k ;;
  match cp with
  | None => Ok None
  | Some c => find_leaf k c
  end.

Definition has_key (sm : sharing_mapt) (k : keyT) : result bool :=
  lp <- get_leaf_node sm k ;;
  Ok (match lp with Some _ => true | None => false end).

Definition find (sm : sharing_mapt) (k : keyT) : result (option valueT) :=
  lp <- get_leaf_node sm k ;;
  match lp with
  | None => Ok None
  | Some l => Ok (Some (get_value l))
  end.

(** *** Views *)

Definition view_itemt : Type := (keyT * valueT)%type.
Definition viewt : Type := list view_itemt.

Record delta_view_itemt : Type := mk_delta_view_item {
  item_k : keyT;
  item_m : valueT;
  other_m : option valueT
}.
Definition delta_viewt : Type := list delta_view_itemt.

Definition is_in_both_maps (i : delta_view_itemt) : bool :=
  match other_m i with Some _ => true | None => false end.

(** The work stack of [iterate]: the head of the list is the top. *)
Fixpoint iterate_loop {A : Type} (fuel : nat) (stack : list innert)
  (f : keyT -> valueT -> A -> A) (acc : A) : result A :=
  match fuel with
  | O => Fail out_of_fuel
  | S fuel' =>
      match stack with
      | [] => Fail undefined_behaviour
      | ip :: stack =>
          SM_ASSERT (negb (is_empty ip)) ;;;
          '(stack, acc) <-
            (if is_internal ip then
               m <- get_to_map ip ;;
               SM_ASSERT (negb (Nat.eqb (length m) 0)) ;;;
               Ok (fold_left (fun st item => snd item :: st) m stack, acc)
             else
               SM_ASSERT (is_container ip) ;;;
               ll <- get_container ip ;;
               SM_ASSERT (negb (Nat.eqb (length ll) 0)) ;;;
               Ok (stack,
                   fold_left (fun a l => f (get_key l) (get_value l) a) ll acc)) ;;
          match stack with
          | [] => Ok acc
          | _ :: _ => iterate_loop fuel' stack f acc
          end
      end
  end.

Definition iterate {A : Type} (n : innert) (f : keyT -> valueT -> A -> A)
  (acc : A) : result A :=
  SM_ASSERT (negb (is_empty n)) ;;;
  iterate_loop (node_count n) [n] f acc.

(** The public [iterate(f)]: call [f] for every key-value pair in the map. *)
Definition iterate_map {A : Type} (sm : sharing_mapt)
  (f : keyT -> valueT -> A -> A) (acc : A) : result A :=
  if empty sm then Ok acc else iterate (map sm) f acc.

(** [get_view(view)]: the call returns the contents of [view] afterwards. *)
Definition get_view (sm : sharing_mapt) (view : viewt) : result viewt :=
  SM_ASSERT (Nat.eqb (length view) 0) ;;;
  if empty sm then Ok view
  else iterate (map sm) (fun k m view => view ++ [(k, m)]) view.

Definition gather_all (n : innert) (delta_view : delta_viewt)
  : result delta_viewt :=
  iterate n (fun k m dv => dv ++ [mk_delta_view_item k m None]) delta_view.

(** The [for] loop over the leaves of the container reached in the other
    map, in [add_item_if_not_shared]. *)
Fixpoint add_item_scan (l1 : leaft) (ll2 : leaf_listt) (delta_view : delta_viewt)
  : delta_viewt :=
  match ll2 with
  | [] =>
      delta_view ++ [mk_delta_view_item (get_key l1) (get_value l1) None]
  | l2 :: ll2' =>
      if leaf_shares_with l1 l2 then delta_view
      else if equalT (get_key l1) (get_key l2) then
        delta_view ++
          [mk_delta_view_item (get_key l1) (get_value l1) (Some (get_value l2))]
      else add_item_scan l1 ll2' delta_view
  end.

Fixpoint add_item_loop (fuel : nat) (container : innert) (l1 : leaft)
  (ip : innert) (key : N) (delta_view : delta_viewt) (only_common : bool)
  : result delta_viewt :=
  match fuel with
  | O => Fail out_of_fuel
  | S fuel' =>
      let bit := N.land key mask in
      p <- find_child bit ip ;;
      match p with
      | None =>
          (* only in first map *)
          if negb only_common then
            Ok (delta_view ++
                  [mk_delta_view_item (get_key l1) (get_value l1) None])
          else Ok delta_view
      | Some ip' =>
          SM_ASSERT (negb (is_empty ip')) ;;;
          (* potentially in both maps *)
          if is_container ip' then
            if shares_with container ip' then Ok delta_view
            else
              ll2 <- get_container ip' ;;
              Ok (add_item_scan l1 ll2 delta_view)
          else
            add_item_loop fuel' container l1 ip' (N.shiftr key chunk)
              delta_view only_common
      end
  end.

Definition add_item_if_not_shared (container inner : innert) (level : N)
  (delta_view : delta_viewt) (only_common : bool) : result delta_viewt :=
  ll <- get_container container ;;
  l1 <- front ll ;;
  let k := get_key l1 in
  let key := hash k in
  let key := N.shiftr key (level * chunk) in
  SM_ASSERT (is_defined_internal inner) ;;;
  add_item_loop (S (height inner)) container l1 inner key delta_view only_common.

(** State of the lockstep traversal of [get_delta_view]: the stack of node
    pairs, the stack of levels, and the delta view built so far. *)
Definition delta_state : Type :=
  (list (innert * innert) * list N * delta_viewt)%type.

Definition delta_step (other : sharing_mapt) (only_common : bool)
  (ip1 ip2 : innert) (level : N) (s : delta_state) : result delta_state :=
  SM_ASSERT (negb (is_empty ip1)) ;;;
  SM_ASSERT (negb (is_empty ip2)) ;;;
  if is_internal ip1 && is_container ip2 then
    SM_ASSERT_call (ll <- get_container ip2 ;; Ok (is_singular ll)) ;;;
    m <- get_to_map ip1 ;;
    for_each m
      (fun item '(stack, level_stack, dv) =>
         let child := snd item in
         if negb (shares_with child ip2) then
           Ok ((child, ip2) :: stack, dummy_level :: level_stack, dv)
         else Ok (stack, level_stack, dv))
      s
  else if is_internal ip1 then
    SM_ASSERT (is_internal ip2) ;;;
    m <- get_to_map ip1 ;;
    for_each m
      (fun item '(stack, level_stack, dv) =>
         let child := snd item in
         p <- find_child (fst item) ip2 ;;
         match p with
         | None =>
             if negb only_common then
               dv <- gather_all child dv ;;
               Ok (stack, level_stack, dv)
             else Ok (stack, level_stack, dv)
         | Some p =>
             if negb (shares_with child p) then
               Ok ((child, p) :: stack, (level + 1) :: level_stack, dv)
             else Ok (stack, level_stack, dv)
         end)
      s
  else
    SM_ASSERT (is_container ip1) ;;;
    if is_internal ip2 then
      SM_ASSERT_call (ll <- get_container ip1 ;; Ok (is_singular ll)) ;;;
      SM_ASSERT (negb (level =? dummy_level)) ;;;
      let '(stack, level_stack, dv) := s in
      dv <- add_item_if_not_shared ip1 ip2 level dv only_common ;;
      Ok (stack, level_stack, dv)
    else
      SM_ASSERT (is_container ip2) ;;;
      ll <- get_container ip1 ;;
      for_each ll
        (fun l1 '(stack, level_stack, dv) =>
           let k1 := get_key l1 in
           p <- find_leaf k1 ip2 ;;
           match p with
           | Some p =>
               if negb (leaf_shares_with l1 p) then
                 SM_ASSERT_call (has_key other k1) ;;;
                 Ok (stack, level_stack,
                     dv ++ [mk_delta_view_item k1 (get_value l1)
                              (Some (get_value p))])
               else Ok (stack, level_stack, dv)
           | None =>
               if negb only_common then
                 SM_ASSERT_call (b <- has_key other k1 ;; Ok (negb b)) ;;;
                 Ok (stack, level_stack,
                     dv ++ [mk_delta_view_item k1 (get_value l1) None])
               else Ok (stack, level_stack, dv)
           end)
        s.

Fixpoint get_delta_view_loop (fuel : nat) (other : sharing_mapt)
  (only_common : bool) (s : delta_state) : result delta_viewt :=
  match fuel with
  | O => Fail out_of_fuel
  | S fuel' =>
      match s with
      | ((ip1, ip2) :: stack, level :: level_stack, dv) =>
          '(stack, level_stack, dv) <-
            delta_step other only_common ip1 ip2 level (stack, level_stack, dv) ;;
          match stack with
          | [] => Ok dv
          | _ :: _ =>
              get_delta_view_loop fuel' other only_common
                (stack, level_stack, dv)
          end
      | _ => Fail undefined_behaviour
      end
  end.

(** [get_delta_view(other, delta_view, only_common)]: the call returns the
    contents of [delta_view] afterwards. *)
Definition get_delta_view (sm other : sharing_mapt) (delta_view : delta_viewt)
  (only_common : bool) : result delta_viewt :=
  SM_ASSERT (Nat.eqb (length delta_view) 0) ;;;
  if empty sm then Ok delta_view
  else if empty other then
    if negb only_common then gather_all (map sm) delta_view
    else Ok delta_view
  else if shares_with (map sm) (map other) then Ok delta_view
  else
    get_delta_view_loop (node_count (map sm)) other only_common
      ([(map sm, map other)], [0], delta_view).

(** *** Write access to nodes

    Every write access goes through copy-on-write: a shared payload is
    cloned before it is changed, an unshared one is changed in place.  In
    both cases no other handle refers to the written payload afterwards, so
    the model gives a written node an address not in use: the node written
    at depth [level] during a call gets [fresh nx level], where [nx] is the
    first of a block of [alloc_block] unused addresses handed to the call.
    Children that are not written keep their address. *)

Definition fresh (nx : ptr) (level : N) : ptr := nx + level.
Definition fresh_leaf (nx : ptr) : ptr := nx + levels + 1.
Definition alloc_block : N := levels + 2.

Fixpoint tm_place (i : N) (c : innert) (m : to_mapt) : to_mapt :=
  match m with
  | [] => [(i, c)]
  | (j, c') :: m' =>
      if i <? j then (i, c) :: m else (j, c') :: tm_place i c m'
  end.

Fixpoint tm_replace (i : N) (c : innert) (m : to_mapt) : to_mapt :=
  match m with
  | [] => []
  | (j, c') :: m' =>
      if j =? i then (j, c) :: m' else (j, c') :: tm_replace i c m'
  end.

Definition tm_remove (i : N) (m : to_mapt) : to_mapt :=
  filter (fun item => negb (fst item =? i)) m.

(** Modelled from the spec: [add_child(i)] of sharing_node.h gives write
    access to the child at chunk value [i], creating an empty child if
    there is none.  The mapping is ordered by chunk value.  The
    model returns the written node; the child the returned pointer refers to
    is [child_of i] of it, and an assignment through that pointer is
    [set_child i]. *)
Definition add_child (a : ptr) (i : N) (n : innert) : result innert :=
  match n with
  | Empty => Ok (Internal a [(i, Empty)])
  | Internal _ m =>
      Ok (Internal a (match tm_find i m with
                      | Some _ => m
                      | None => tm_place i Empty m
                      end))
  | Container _ _ => Fail undefined_behaviour
  end.

Definition child_of (i : N) (n : innert) : innert :=
  match n with
  | Internal _ m =>
      match tm_find i m with
      | Some c => c
      | None => Empty
      end
  | _ => Empty
  end.

Definition set_child (i : N) (c : innert) (n : innert) : innert :=
  match n with
  | Internal p m => Internal p (tm_replace i c m)
  | _ => n
  end.

(** Modelled from the spec: [remove_child(i)] of sharing_node.h removes the
    child at chunk value [i]. *)
Definition remove_child (a : ptr) (i : N) (n : innert) : result innert :=
  match n with
  | Empty => Ok (Internal a [])
  | Internal _ m => Ok (Internal a (tm_remove i m))
  | Container _ _ => Fail undefined_behaviour
  end.

(** Modelled from the spec: write access to the leaf list of an empty or
    container node (sharing_node.h), followed by [push_front]; the list is
    the [std::forward_list] the documentation of [sharing_mapt] names. *)
Definition push_front_leaf (a : ptr) (l : leaft) (n : innert) : result innert :=
  match n with
  | Empty => Ok (Container a [l])
  | Container _ ll => Ok (Container a (l :: ll))
  | Internal _ _ => Fail undefined_behaviour
  end.

(** Modelled from the spec: [place_leaf(k, v)] of sharing_node.h on an
    empty or container node installs a new leaf (at the front of the
    list). *)
Definition place_leaf (a la : ptr) (k : keyT) (v : valueT) (n : innert)
  : result innert :=
  push_front_leaf a (mk_leaf la k v) n.

Fixpoint ll_remove (k : keyT) (ll : leaf_listt) : option leaf_listt :=
  match ll with
  | [] => None
  | l :: ll' =>
      if equalT (get_key l) k then Some ll'
      else match ll_remove k ll' with
           | Some r => Some (l :: r)
           | None => None
           end
  end.

(** Modelled from the spec: [remove_leaf(k)] of sharing_node.h on a
    container drops the matching leaf. *)
Definition remove_leaf (a : ptr) (k : keyT) (n : innert) : result innert :=
  match n with
  | Container _ ll =>
      match ll_remove k ll with
      | Some ll' => Ok (Container a ll')
      | None => Fail undefined_behaviour
      end
  | _ => Fail undefined_behaviour
  end.

Fixpoint ll_set_value (la : ptr) (k : keyT) (v : valueT) (ll : leaf_listt)
  : leaf_listt :=
  match ll with
  | [] => []
  | l :: ll' =>
      if equalT (get_key l) k then mk_leaf la (get_key l) v :: ll'
      else l :: ll_set_value la k v ll'
  end.

(** Modelled from the spec: the non-const [find_leaf(k)] of sharing_node.h
    on a container followed by [set_value] (or [mutate_value]) on the leaf
    found; both are write accesses. *)
Definition set_leaf_value (a la : ptr) (k : keyT) (v : valueT) (n : innert)
  : result innert :=
  match n with
  | Container _ ll => Ok (Container a (ll_set_value la k v ll))
  | _ => Fail undefined_behaviour
  end.

(** A pointer to a node below [n] is the list of chunk values that lead to
    it.  [node_at] reads through such a pointer, [write_at] applies a write
    to the node it refers to. *)
Fixpoint node_at (cp : list N) (n : innert) : result innert :=
  match cp with
  | [] => Ok n
  | i :: cp' =>
      c <- find_child i n ;;
      match c with
      | Some c => node_at cp' c
      | None => Fail undefined_behaviour
      end
  end.

Fixpoint write_at (cp : list N) (f : innert -> result innert) (n : innert)
  : result innert :=
  match cp with
  | [] => f n
  | i :: cp' =>
      c <- write_at cp' f (child_of i n) ;;
      Ok (set_child i c n)
  end.

(** *** insert and migrate *)

(** The [do ... while(level < levels)] loop of [migrate].  [ip] is at depth
    [level].  The result is the rewritten [ip], the pointer below it that
    the loop holds when it ends, and whether the loop ended by [return cp1]
    (the place was found) rather than by its condition. *)
Fixpoint migrate_loop (fuel : nat) (nx : ptr) (container_copy ip : innert)
  (key key_existing level : N) : result (innert * list N * bool) :=
  match fuel with
  | O => Fail out_of_fuel
  | S fuel' =>
      let bit_existing := N.land key_existing mask in
      let bit := N.land key mask in
      if negb (bit =? bit_existing) then
        (* Place found *)
        ip <- add_child (fresh nx level) bit_existing ip ;;
        let ip := set_child bit_existing container_copy ip in
        ip <- add_child (fresh nx level) bit ip ;;
        Ok (ip, [bit], true)
      else
        SM_ASSERT (bit =? bit_existing) ;;;
        ip <- add_child (fresh nx level) bit ip ;;
        let child := child_of bit ip in
        let key := N.shiftr key chunk in
        let key_existing := N.shiftr key_existing chunk in
        let level := level + 1 in
        if level <? levels then
          '(child, cp, found) <-
            migrate_loop fuel' nx container_copy child key key_existing level ;;
          Ok (set_child bit child ip, bit :: cp, found)
        else Ok (ip, [bit], false)
  end.

(** [migrate(starting_level, key_suffix, bit_last, inner)]: the result is
    the rewritten [inner] and the returned pointer, relative to [inner]. *)
Definition migrate (nx : ptr) (starting_level key_suffix bit_last : N)
  (inner : innert) : result (innert * list N) :=
  SM_ASSERT (starting_level <? levels - 1) ;;;
  SM_ASSERT (is_defined_internal inner) ;;;
  p <- find_child bit_last inner ;;
  child <- match p with
           | Some c => Ok c
           | None => Fail undefined_behaviour
           end ;;
  SM_ASSERT (is_defined_container child) ;;;
  ll <- get_container child ;;
  (* Only containers at the bottom can contain more than two elements *)
  SM_ASSERT (is_singular ll) ;;;
  leaf <- front ll ;;
  let key_existing := hash (get_key leaf) in
  let key_existing := N.shiftr key_existing (chunk * starting_level) in
  (* Copy the container *)
  let container_copy := child in
  (* Delete existing container *)
  inner <- remove_child (fresh nx starting_level) bit_last inner ;;
  (* Add internal node *)
  inner <- add_child (fresh nx starting_level) bit_last inner ;;
  let ip := child_of bit_last inner in
  SM_ASSERT (is_empty ip) ;;;
  (* Find place for both elements *)
  let level := starting_level + 1 in
  let key := key_suffix in
  let key_existing := N.shiftr key_existing chunk in
  let key := N.shiftr key chunk in
  SM_ASSERT (level <? levels) ;;;
  '(ip, cp, found) <-
    migrate_loop (S (N.to_nat (levels - level))) nx container_copy ip
      key key_existing level ;;
  let inner := set_child bit_last ip inner in
  let cp := bit_last :: cp in
  if found then Ok (inner, cp)
  else
    ll <- get_container container_copy ;;
    leaf_copy <- front ll ;;
    inner <-
      write_at cp
        (push_front_leaf (fresh nx (starting_level + N.of_nat (length cp)))
           leaf_copy)
        inner ;;
    Ok (inner, cp)
  .

(** The [while(true)] loop of [insert]; [ip] is at depth [level].  The loop
    moves [ip] to the child and goes on: the model rewrites the child and
    stores it back under [bit]. *)
Fixpoint insert_loop (fuel : nat) (nx : ptr) (k : keyT) (v : valueT)
  (ip : innert) (key level : N) : result innert :=
  match fuel with
  | O => Fail out_of_fuel
  | S fuel' =>
      let bit := N.land key mask in
      SM_ASSERT (is_internal ip) ;;;
      SM_ASSERT ((level =? 0) || negb (is_empty ip)) ;;;
      ip <- add_child (fresh nx level) bit ip ;;
      let child := child_of bit ip in
      (* Place is unoccupied *)
      if is_empty child then
        (* Create container and insert leaf *)
        child <- place_leaf (fresh nx (level + 1)) (fresh_leaf nx) k v child ;;
        SM_ASSERT (is_defined_container child) ;;;
        Ok (set_child bit child ip)
      else if is_container child then
        if level <? levels - 1 then
          (* Migrate the elements downwards *)
          '(ip, cp) <- migrate nx level key bit ip ;;
          write_at cp
            (place_leaf (fresh nx (level + N.of_nat (length cp)))
               (fresh_leaf nx) k v)
            ip
        else
          (* Add to the bottom container *)
          child <- place_leaf (fresh nx (level + 1)) (fresh_leaf nx) k v child ;;
          Ok (set_child bit child ip)
      else
        SM_ASSERT ((level =? levels - 1) || is_defined_internal child) ;;;
        child <-
          insert_loop fuel' nx k v child (N.shiftr key chunk) (level + 1) ;;
        Ok (set_child bit child ip)
  end.

(** [insert(k, m)]; both returning branches of the loop do [num++]. *)
Definition insert (nx : ptr) (k : keyT) (m : valueT) (sm : sharing_mapt)
  : result sharing_mapt :=
  SM_ASSERT_call (b <- has_key sm k ;; Ok (negb b)) ;;;
  let key := hash k in
  let ip := map sm in
  (* The root cannot be a container node *)
  SM_ASSERT (is_internal ip) ;;;
  let level := 0 in
  root <- insert_loop (S (height ip)) nx k m ip key level ;;
  Ok (mk_sharing_map root (size_incr (num sm))).

(** *** erase *)

(** What the walk of [erase] below a node reports to the level above: the
    element has been removed below (the rewritten node is given), or the
    walk reached a container with one leaf and [del] still points to a node
    above, which has to remove its child. *)
Inductive erase_walk : Type :=
| Erased (ip : innert)
| Remove_at_del.

(** The [while(true)] loop of [erase] together with the removal that
    follows it.  [del_null] says that [del == nullptr] when the iteration
    for [ip] starts; [del_here] that the iteration sets [del = ip].  [del]
    always lies on the walked path, and the last node to set it removes its
    child [del_bit = bit]. *)
Fixpoint erase_loop (fuel : nat) (nx : ptr) (k : keyT) (ip : innert)
  (key level : N) (del_null : bool) : result erase_walk :=
  match fuel with
  | O => Fail out_of_fuel
  | S fuel' =>
      let bit := N.land key mask in
      m <- get_to_map ip ;;
      let del_here := (Nat.ltb 1 (length m)) || del_null in
      ip <- add_child (fresh nx level) bit ip ;;
      let child := child_of bit ip in
      SM_ASSERT (negb (is_empty child)) ;;;
      if is_container child then
        PRECONDITION (negb (is_empty child)) ;;;
        ll <- get_container child ;;
        PRECONDITION (negb (Nat.eqb (length ll) 0)) ;;;
        (* forward list has one element *)
        if is_singular ll then
          l <- front ll ;;
          PRECONDITION (equalT (get_key l) k) ;;;
          if del_here then
            ip <- remove_child (fresh nx level) bit ip ;;
            Ok (Erased ip)
          else Ok Remove_at_del
        else
          child <- remove_leaf (fresh nx (level + 1)) k child ;;
          Ok (Erased (set_child bit child ip))
      else
        r <- erase_loop fuel' nx k child (N.shiftr key chunk) (level + 1) false ;;
        match r with
        | Erased child => Ok (Erased (set_child bit child ip))
        | Remove_at_del =>
            if del_here then
              ip <- remove_child (fresh nx level) bit ip ;;
              Ok (Erased ip)
            else Ok Remove_at_del
        end
  end.

Definition erase (nx : ptr) (k : keyT) (sm : sharing_mapt)
  : result sharing_mapt :=
  SM_ASSERT_call (has_key sm k) ;;;
  let key := hash k in
  let ip := map sm in
  r <- erase_loop (S (height ip)) nx k ip key 0 true ;;
  match r with
  | Erased root => Ok (mk_sharing_map root (size_decr (num sm)))
  | Remove_at_del => Fail undefined_behaviour
  end.

Definition erase_if_exists (nx : ptr) (k : keyT) (sm : sharing_mapt)
  : result sharing_mapt :=
  b <- has_key sm k ;;
  if b then erase nx k sm else Ok sm.

(** *** replace and update *)

(** The loop of the non-const [get_container_node]: the rewritten [ip] and
    the pointer to the container, relative to [ip]. *)
Fixpoint get_container_node_loop (fuel : nat) (nx : ptr) (ip : innert)
  (key level : N) : result (innert * list N) :=
  match fuel with
  | O => Fail out_of_fuel
  | S fuel' =>
      let bit := N.land key mask in
      ip <- add_child (fresh nx level) bit ip ;;
      let child := child_of bit ip in
      SM_ASSERT (negb (is_empty child)) ;;;
      if is_container child then Ok (ip, [bit])
      else
        '(child, cp) <-
          get_container_node_loop fuel' nx child (N.shiftr key chunk)
            (level + 1) ;;
        Ok (set_child bit child ip, bit :: cp)
  end.

Definition get_container_node (nx : ptr) (sm : sharing_mapt) (k : keyT)
  : result (innert * list N) :=
  SM_ASSERT_call (has_key sm k) ;;;
  let key := hash k in
  let ip := map sm in
  SM_ASSERT (is_defined_internal ip) ;;;
  get_container_node_loop (S (height ip)) nx ip key 0.

(** [value_equalt] is [std::equal_to<valueT>] when [fail_if_equal] is set
    and [falset] otherwise; likewise [value_comparatort]. *)
Definition value_equalt (lhs rhs : valueT) : bool :=
  if fail_if_equal then value_eq lhs rhs else false.

Definition value_comparatort (old_value new_value : valueT) : bool :=
  if fail_if_equal then value_eq old_value new_value else false.

Definition replace (nx : ptr) (k : keyT) (m : valueT) (sm : sharing_mapt)
  : result sharing_mapt :=
  '(root, cp) <- get_container_node nx sm k ;;
  c <- node_at cp root ;;
  lp <- find_leaf k c ;;
  match lp with
  | None => Fail invariant_violation   (* key must exist in map *)
  | Some l =>
      INVARIANT (negb (value_equalt (get_value l) m)) ;;;
      root <-
        write_at cp
          (set_leaf_value (fresh nx (N.of_nat (length cp))) (fresh_leaf nx) k m)
          root ;;
      Ok (mk_sharing_map root (num sm))
  end.

Definition update (nx : ptr) (k : keyT) (mutator : valueT -> valueT)
  (sm : sharing_mapt) : result sharing_mapt :=
  '(root, cp) <- get_container_node nx sm k ;;
  c <- node_at cp root ;;
  lp <- find_leaf k c ;;
  match lp with
  | None => Fail invariant_violation   (* key must exist in map *)
  | Some l =>
      let comparator := value_comparatort (get_value l) in
      let new_value := mutator (get_value l) in
      root <-
        write_at cp
          (set_leaf_value (fresh nx (N.of_nat (length cp))) (fresh_leaf nx) k
             new_value)
          root ;;
      INVARIANT (negb (comparator new_value)) ;;;
      Ok (mk_sharing_map root (num sm))
  end.

(** *** Sharing statistics *)

(** [unsigned] is taken as 32 bits wide. *)
Definition unsigned_modulus : N := 2 ^ 32.
Definition unsigned_incr (n : N) : N := (n + 1) mod unsigned_modulus.

(** The [std::set<const void *>] of marked allocations. *)
Definition marked_find (p : ptr) (marked : list ptr) : bool :=
  existsb (N.eqb p) marked.

Definition marked_insert (p : ptr) (marked : list ptr) : list ptr :=
  if marked_find p marked then marked else p :: marked.

(** The visit of one allocation in [count_unmarked_nodes]: whether it is
    passed over ([continue]), and the marked set afterwards. *)
Definition visit_marked (use_count : ptr -> N) (mark : bool) (raw_ptr : ptr)
  (marked : list ptr) : bool * list ptr :=
  if 2 <=? use_count raw_ptr then
    if marked_find raw_ptr marked then (true, marked)
    else (false, if mark then marked_insert raw_ptr marked else marked)
  else (false, marked).

(** The loop over the leaves of a container in [count_unmarked_nodes]. *)
Definition count_leaves (use_count : ptr -> N) (mark : bool) (ll : leaf_listt)
  (marked : list ptr) (count : N) : list ptr * N :=
  fold_left
    (fun '(marked, count) l =>
       let '(skip, marked) :=
         visit_marked use_count mark (leaf_data l) marked in
       if skip then (marked, count) else (marked, unsigned_incr count))
    ll (marked, count).

(** The [do ... while(!stack.empty())] loop of [count_unmarked_nodes].
    Modelled from the spec: [use_count()] of sharing_node.h is the number
    of handles that refer to an allocation; it is given as a function of
    the address.  The address of the payload of an empty node is
    undefined. *)
Fixpoint count_unmarked_loop (fuel : nat) (use_count : ptr -> N)
  (leafs_only mark : bool) (stack : list innert) (marked : list ptr)
  (count : N) : result (N * list ptr) :=
  match fuel with
  | O => Fail out_of_fuel
  | S fuel' =>
      match stack with
      | [] => Fail undefined_behaviour
      | ip :: stack =>
          (* internal node or container node *)
          raw_ptr <- match data_of ip with
                     | Some p => Ok p
                     | None => Fail undefined_behaviour
                     end ;;
          let '(skip, marked) := visit_marked use_count mark raw_ptr marked in
          '(stack, marked, count) <-
            (if skip then Ok (stack, marked, count)
             else
               let count := if negb leafs_only then unsigned_incr count
                            else count in
               if is_internal ip then
                 SM_ASSERT (negb (is_empty ip)) ;;;
                 m <- get_to_map ip ;;
                 SM_ASSERT (negb (Nat.eqb (length m) 0)) ;;;
                 Ok (fold_left (fun st item => snd item :: st) m stack,
                     marked, count)
               else
                 SM_ASSERT (is_defined_container ip) ;;;
                 ll <- get_container ip ;;
                 SM_ASSERT (negb (Nat.eqb (length ll) 0)) ;;;
                 let '(marked, count) :=
                   count_leaves use_count mark ll marked count in
                 Ok (stack, marked, count)) ;;
          match stack with
          | [] => Ok (count, marked)
          | _ :: _ =>
              count_unmarked_loop fuel' use_count leafs_only mark stack marked
                count
          end
      end
  end.

(** [count_unmarked_nodes(leafs_only, marked, mark)]: the count and the
    contents of [marked] afterwards. *)
Definition count_unmarked_nodes (use_count : ptr -> N) (sm : sharing_mapt)
  (leafs_only : bool) (marked : list ptr) (mark : bool)
  : result (N * list ptr) :=
  if empty sm then Ok (0, marked)
  else
    count_unmarked_loop (node_count (map sm)) use_count leafs_only mark
      [map sm] marked 0.

Record sharing_map_statst : Type := mk_sharing_map_stats {
  num_nodes : N;
  num_unique_nodes : N;
  num_leafs : N;
  num_unique_leafs : N
}.

(** One pass of [get_sharing_stats] over the maps: the sum of the counts
    (a [std::size_t]) and the marked set afterwards. *)
Definition stats_pass (use_count : ptr -> N) (maps : list sharing_mapt)
  (leafs_only mark : bool) (marked : list ptr) : result (N * list ptr) :=
  for_each maps
    (fun sm '(total, marked) =>
       '(c, marked) <-
         count_unmarked_nodes use_count sm leafs_only marked mark ;;
       Ok ((total + c) mod size_t_modulus, marked))
    (0, marked).

(** [get_sharing_stats(begin, end, f)]; [maps] are the maps [f(it)] for the
    iterators of the range. *)
Definition get_sharing_stats (use_count : ptr -> N) (maps : list sharing_mapt)
  : result sharing_map_statst :=
  let marked := [] in
  (* number of nodes *)
  '(nodes, marked) <- stats_pass use_count maps false false marked ;;
  SM_ASSERT (Nat.eqb (length marked) 0) ;;;
  (* number of unique nodes *)
  '(unique_nodes, marked) <- stats_pass use_count maps false true marked ;;
  let marked := [] in
  (* number of leafs *)
  '(leafs, marked) <- stats_pass use_count maps true false marked ;;
  SM_ASSERT (Nat.eqb (length marked) 0) ;;;
  (* number of unique leafs *)
  '(unique_leafs, marked) <- stats_pass use_count maps true true marked ;;
  Ok (mk_sharing_map_stats nodes unique_nodes leafs unique_leafs).

(** [get_sharing_stats_map(begin, end)] over a map whose values are sharing
    maps. *)
Definition get_sharing_stats_map {K : Type} (use_count : ptr -> N)
  (m : list (K * sharing_mapt)) : result sharing_map_statst :=
  get_sharing_stats use_count (List.map snd m).

End Model.

(** ** Abstraction and invariants

    The contents of a trie are the leaves below its root, in the order in
    which [iterate] visits them.  [wf_node rem d n] states the invariants of
    a node [n] at depth [d] with [rem] levels left below it. *)

Section Invariants.
Context {params : sharing_map_params}.

(** The leaves below a node in the order of [iterate]: the children are
    pushed on the work stack in the order of the mapping and therefore
    visited last child first. *)
Fixpoint iter_leaves (n : innert) : list leaft :=
  match n with
  | Empty => []
  | Internal _ m =>
      (fix go (m : to_mapt) : list leaft :=
         match m with
         | [] => []
         | (_, c) :: m' => go m' ++ iter_leaves c
         end) m
  | Container _ ll => ll
  end.

Definition leaves_of_map (m : to_mapt) : list leaft :=
  flat_map (fun item => iter_leaves (snd item)) (rev m).

(** The first leaf with key [k] in a list of leaves. *)
Definition find_k (k : keyT) (L : list leaft) : option leaft :=
  List.find (fun l => equalT (get_key l) k) L.

(** The chunk of a hash value used at depth [d]. *)
Definition chunk_of (d h : N) : N := N.land (N.shiftr h (chunk * d)) mask.

Definition leaves_chunk (d i : N) (L : list leaft) : Prop :=
  Forall (fun l => chunk_of d (hash (get_key l)) = i) L.

(** The mapping of an internal node is ordered by chunk value. *)
Definition keys_sorted (m : to_mapt) : Prop :=
  StronglySorted (fun x y => fst x < fst y) m.

Definition keys_below (i : N) (m : to_mapt) : Prop :=
  Forall (fun item => fst item < i) m.

Definition keys_above (i : N) (m : to_mapt) : Prop :=
  Forall (fun item => i < fst item) m.

(** The children of an internal node at depth [d]: an ordered mapping,
    every child well formed, and every leaf below the child at [i] has
    chunk [i] at depth [d] (I5). *)
Definition wf_children (wf : innert -> Prop) (d : N) (m : to_mapt) : Prop :=
  keys_sorted m /\
  Forall (fun item =>
            wf (snd item) /\
            leaves_chunk d (fst item) (iter_leaves (snd item))) m.

(** I1-I5 for a node that is not the root. *)
Fixpoint wf_node (rem : nat) (d : N) (n : innert) : Prop :=
  match n with
  | Empty => False
  | Container _ ll =>
      ll <> [] /\ NoDup (List.map get_key ll) /\
      (rem <> O -> length ll = 1%nat)
  | Internal _ m =>
      match rem with
      | O => False
      | S rem' => m <> [] /\ wf_children (wf_node rem' (d + 1)) d m
      end
  end.

(** The nodes the loop of [insert] walks through: the empty root of a new
    map, or an internal node whose children are well formed. *)
Definition wf_inner (rem : nat) (d : N) (ip : innert) : Prop :=
  (ip = Empty /\ d = 0) \/
  exists p m, ip = Internal p m /\ wf_children (wf_node rem (d + 1)) d m.

(** The root is empty (a new or cleared map) or internal, possibly
    without children. *)
Definition wf_root (n : innert) : Prop :=
  match n with
  | Empty => True
  | Internal _ m => wf_children (wf_node (N.to_nat levels - 1) 1) 0 m
  | Container _ _ => False
  end.

(** I1-I6 for a map. *)
Definition wf_map (sm : sharing_mapt) : Prop :=
  wf_root (map sm) /\
  num sm = N.of_nat (length (iter_leaves (map sm))) /\
  num sm < size_t_modulus.

(** The leaves of a map after an insertion of [(k, v)], and after the
    removal of [k]. *)
Definition added (k : keyT) (v : valueT) (L L' : list leaft) : Prop :=
  exists pre post la,
    L = pre ++ post /\ L' = pre ++ mk_leaf la k v :: post.

Definition removed (k : keyT) (L L' : list leaft) : Prop :=
  exists pre post l,
    L = pre ++ l :: post /\ L' = pre ++ post /\ get_key l = k /\
    find_k k pre = None /\ find_k k post = None.

(** The leaves of a map after the value of [k] has been overwritten with
    [v]; [la] is the address of the rewritten leaf. *)
Definition replaced (k : keyT) (v : valueT) (la : ptr) (L L' : list leaft)
  : Prop :=
  exists pre post l,
    L = pre ++ l :: post /\ L' = pre ++ mk_leaf la k v :: post /\
    get_key l = k /\ find_k k pre = None.

(** Reading and replacing the node a pointer refers to, as functions. *)
Fixpoint hole (cp : list N) (n : innert) : innert :=
  match cp with
  | [] => n
  | i :: cp' => hole cp' (child_of i n)
  end.

Fixpoint plug (cp : list N) (x : innert) (n : innert) : innert :=
  match cp with
  | [] => x
  | i :: cp' => set_child i (plug cp' x (child_of i n)) n
  end.

(** *** Traversals

    [emit f] is the call of the callback of [iterate] on a leaf,
    [push_children] the pushes of the children of an internal node on the
    work stack, [count_nodes] the number of nodes below the nodes of a
    stack, and [view_item] the view item of a leaf. *)
Definition emit {A : Type} (f : keyT -> valueT -> A -> A) (a : A) (l : leaft)
  : A :=
  f (get_key l) (get_value l) a.

Definition push_children (m : to_mapt) (stack : list innert) : list innert :=
  fold_left (fun st item => snd item :: st) m stack.

Definition count_nodes (stack : list innert) : nat :=
  list_sum (List.map node_count stack).

Definition wf_some (n : innert) : Prop := exists rem d, wf_node rem d n.

Definition view_item (l : leaft) : view_itemt := (get_key l, get_value l).

(** *** Delta views

    [prefix_dv dv s] is the state [s] of the traversal of [get_delta_view]
    with [dv] in front of its delta view; [keys_from L dv] says that the
    key of every item of [dv] is the key of a leaf of [L]. *)
Definition prefix_dv (dv : delta_viewt) (s : delta_state) : delta_state :=
  let '(stack, level_stack, r) := s in (stack, level_stack, dv ++ r).

Definition keys_from (L : list leaft) (dv : delta_viewt) : Prop :=
  Forall (fun it => In (item_k it) (List.map get_key L)) dv.

Definition delta_inv (L : list leaft) (s : delta_state) : Prop :=
  let '(stack, _, dv) := s in
  Forall (fun p => incl (iter_leaves (fst p)) L) stack /\ keys_from L dv.

(** *** Sequences of operations

    A sequence of [insert] and [erase] calls on a map, each call drawing
    its allocations from its own block of addresses, and the set of keys
    inserted and not erased since. *)
Inductive operation : Type :=
| Insert (k : keyT) (v : valueT)
| Erase (k : keyT).

Fixpoint run (ops : list operation) (nx : ptr) (sm : sharing_mapt)
  : result sharing_mapt :=
  match ops with
  | [] => Ok sm
  | Insert k v :: ops' =>
      sm' <- insert nx k v sm ;; run ops' (nx + alloc_block) sm'
  | Erase k :: ops' =>
      sm' <- erase nx k sm ;; run ops' (nx + alloc_block) sm'
  end.

Fixpoint key_in (k : keyT) (ks : list keyT) : bool :=
  match ks with
  | [] => false
  | k' :: ks' => equalT k' k || key_in k ks'
  end.

Fixpoint key_remove (k : keyT) (ks : list keyT) : list keyT :=
  match ks with
  | [] => []
  | k' :: ks' => if equalT k' k then ks' else k' :: key_remove k ks'
  end.

(** The keys inserted and not subsequently erased, starting from [ks]. *)
Fixpoint live_keys (ops : list operation) (ks : list keyT) : list keyT :=
  match ops with
  | [] => ks
  | Insert k _ :: ops' => live_keys ops' (k :: ks)
  | Erase k :: ops' => live_keys ops' (key_remove k ks)
  end.

(** Every call respects its precondition: [insert] of an absent key,
    [erase] of a present key. *)
Fixpoint respects_preconditions (ops : list operation) (ks : list keyT) : bool :=
  match ops with
  | [] => true
  | Insert k _ :: ops' =>
      negb (key_in k ks) && respects_preconditions ops' (k :: ks)
  | Erase k :: ops' =>
      key_in k ks && respects_preconditions ops' (key_remove k ks)
  end.

(** *** The traversal of [get_delta_view] *)

(** The nodes of a tree. *)
Fixpoint subnodes (n : innert) : list innert :=
  n :: match n with
       | Internal _ m =>
           (fix go (m : to_mapt) : list innert :=
              match m with
              | [] => []
              | (_, c) :: m' => subnodes c ++ go m'
              end) m
       | _ => []
       end.

(** The item of a delta view for a leaf of the first map: its key and
    value, and the value the other map holds for the key, if any. *)
Definition leaf_item (other : sharing_mapt) (l : leaft) : delta_view_itemt :=
  mk_delta_view_item (get_key l) (get_value l)
    (option_map get_value (find_k (get_key l) (iter_leaves (map other)))).

Definition key_count (k : keyT) (L : list leaft) : nat :=
  count_occ key_eq_dec (List.map get_key L) k.

(** The leaves of the first map that the stack of [get_delta_view] still
    has to visit. *)
Definition stack_leaves (stack : list (innert * innert)) : list leaft :=
  flat_map (fun e => iter_leaves (fst e)) stack.

(** Why [get_delta_view] passes over a leaf of the first map: the key is
    not in the other map and [only_common] is set, the leaf is below a node
    that shares its allocation with a node of the other map, or the leaf
    shares its allocation with a leaf of the other map. *)
Definition skipped (sm other : sharing_mapt) (only_common : bool) (l : leaft)
  : Prop :=
  (only_common = true /\
   find_k (get_key l) (iter_leaves (map other)) = None) \/
  (exists n1 n2,
      In n1 (subnodes (map sm)) /\ In n2 (subnodes (map other)) /\
      shares_with n1 n2 = true /\ In l (iter_leaves n1)) \/
  (exists l2, In l2 (iter_leaves (map other)) /\ leaf_shares_with l l2 = true).

(** A pair of nodes on the stack of [get_delta_view], with its level: both
    are well formed nodes of their maps, the second not deeper than the
    first; the second holds whatever the other map holds for the keys below
    the first; and unless the second is a container both are at depth
    [level]. *)
Definition delta_entry (sm other : sharing_mapt) (e : innert * innert)
  (level : N) : Prop :=
  exists rem1 d1 rem2 d2,
    wf_node rem1 d1 (fst e) /\ wf_node rem2 d2 (snd e) /\
    N.of_nat rem1 + d1 = levels /\ N.of_nat rem2 + d2 = levels /\
    d2 <= d1 /\
    (is_container (snd e) = false -> d1 = d2 /\ level = d1) /\
    In (fst e) (subnodes (map sm)) /\ In (snd e) (subnodes (map other)) /\
    forall l, In l (iter_leaves (fst e)) ->
              find_k (get_key l) (iter_leaves (map other)) =
              find_k (get_key l) (iter_leaves (snd e)).

(** What a part of the traversal contributes for the leaves [L] of the
    first map: the pairs [new] it pushes (with levels [newl]) and the
    leaves [Ls] it reports.  What is reported or pushed is in [L], no key
    more often than it occurs there; a reported leaf is not a leaf of the
    other map; and
    every leaf of [L] is reported, pushed or passed over for one of the
    reasons of [skipped]. *)
Definition contrib (sm other : sharing_mapt) (only_common : bool)
  (L : list leaft) (budget : nat) (new : list (innert * innert))
  (newl : list N) (Ls : list leaft) : Prop :=
  Forall2 (delta_entry sm other) new newl /\
  (count_nodes (List.map fst new) <= budget)%nat /\
  (forall k, (key_count k Ls + key_count k (stack_leaves new)
              <= key_count k L)%nat) /\
  incl Ls L /\ incl (stack_leaves new) L /\
  (forall l, In l Ls -> ~ In l (iter_leaves (map other))) /\
  (forall l, In l L ->
             In l Ls \/ In l (stack_leaves new) \/
             skipped sm other only_common l).

(** Two maps are coherent if an allocation they both refer to holds the
    same node or leaf in both. *)
Definition coherent (sm other : sharing_mapt) : Prop :=
  (forall n1 n2,
      In n1 (subnodes (map sm)) -> In n2 (subnodes (map other)) ->
      shares_with n1 n2 = true -> n1 = n2) /\
  (forall l1 l2,
      In l1 (iter_leaves (map sm)) -> In l2 (iter_leaves (map other)) ->
      leaf_shares_with l1 l2 = true -> l1 = l2).

(** *** Copy-on-write

    [leaf_written nx old l]: the leaf [l] is a leaf of the tree [old] or
    has an address from [nx] on.  [written nx old n]: the node [n] is a
    node of [old], or it and the nodes below it that are not nodes of [old]
    have addresses from [nx] on.  [written_path nx old cp n]: in addition
    the nodes of [n] on the way to the pointer [cp] have addresses from
    [nx] on.  [below nx sm]: every address of the map is smaller than
    [nx]. *)
Definition leaf_written (nx : ptr) (old : innert) (l : leaft) : Prop :=
  In l (iter_leaves old) \/ nx <= leaf_data l.

Fixpoint written (nx : ptr) (old : innert) (n : innert) : Prop :=
  In n (subnodes old) \/
  match n with
  | Empty => True
  | Internal a m =>
      nx <= a /\
      (fix go (m : to_mapt) : Prop :=
         match m with
         | [] => True
         | (_, c) :: m' => written nx old c /\ go m'
         end) m
  | Container a ll => nx <= a /\ Forall (leaf_written nx old) ll
  end.

Fixpoint written_path (nx : ptr) (old : innert) (cp : list N) (n : innert)
  : Prop :=
  match cp with
  | [] => written nx old n
  | i :: cp' =>
      match n with
      | Internal a m =>
          nx <= a /\ Forall (fun x => written nx old (snd x)) m /\
          tm_find i m <> None /\ written_path nx old cp' (child_of i n)
      | _ => False
      end
  end.

Definition below (nx : ptr) (sm : sharing_mapt) : Prop :=
  (forall n a, In n (subnodes (map sm)) -> data_of n = Some a -> a < nx) /\
  (forall l, In l (iter_leaves (map sm)) -> leaf_data l < nx).

(** *** Sharing statistics

    The number of nodes and leaves below a node ([leafs_only]: of leaves
    only), below the nodes of a stack, in a map and in a list of maps. *)
Definition node_weight (leafs_only : bool) (n : innert) : N :=
  (if leafs_only then 0 else N.of_nat (node_count n)) +
  N.of_nat (length (iter_leaves n)).

Definition stack_weight (leafs_only : bool) (stack : list innert) : N :=
  fold_right (fun n t => node_weight leafs_only n + t) 0 stack.

Definition map_weight (leafs_only : bool) (sm : sharing_mapt) : N :=
  if empty sm then 0 else node_weight leafs_only (map sm).

Definition maps_weight (leafs_only : bool) (maps : list sharing_mapt) : N :=
  fold_right (fun sm t => map_weight leafs_only sm + t) 0 maps.

(** The addresses of the nodes and leaves of a tree. *)
Fixpoint addresses (n : innert) : list ptr :=
  match n with
  | Empty => []
  | Internal a m =>
      a :: (fix go (m : to_mapt) : list ptr :=
              match m with
              | [] => []
              | (_, c) :: m' => addresses c ++ go m'
              end) m
  | Container a ll => a :: List.map leaf_data ll
  end.

End Invariants.

(** ** Instances for the examples

    Maps from [N] to [N] with a given hash function; [identity_hash] is
    the hash of [std::hash] on integers, [constant_hash] a pathological
    hash that makes all keys collide. *)
Definition params_N (h : N -> N) (fie checks : bool) : sharing_map_params :=
  {| keyT := N; valueT := N; hash := h; key_eq_dec := N.eq_dec;
     value_eq := N.eqb; fail_if_equal := fie; SM_INTERNAL_CHECKS := checks |}.

Definition identity_hash (k : N) : N := k.
Definition constant_hash (k : N) : N := 42.

(** The default build, the build with [SM_INTERNAL_CHECKS], the build
    with [fail_if_equal], and a map with the colliding hash. *)
Definition P_default : sharing_map_params := params_N identity_hash false false.
Definition P_checked : sharing_map_params := params_N identity_hash false true.
Definition P_debug : sharing_map_params := params_N identity_hash true false.
Definition P_collide : sharing_map_params := params_N constant_hash false true.

(** A map with the single element [(k, v)], the chunk of whose hash at the
    root is [i]. *)
Definition sm_single {P : sharing_map_params} (i : N) (k : @keyT P)
  (v : @valueT P) : @sharing_mapt P :=
  mk_sharing_map (Internal 100 [(i, Container 101 [mk_leaf 111 k v])]) 1.

Definition ops_example : list (@operation P_checked) :=
  [@Insert P_checked 1 10; @Insert P_checked 2 20; @Erase P_checked 1].

(** ** Renaming levels (goto-symex/renaming_level.h)

    [symex_renaming_levelt] wraps [current_names], a sharing map from
    identifiers to pairs of an SSA expression and a counter.  The types of
    identifiers and SSA expressions and the hash of identifiers are
    parameters; the counter is an [unsigned]. *)
Class renaming_types : Type := {
  irep_idt : Type;
  ssa_exprt : Type;
  irep_id_hash : irep_idt -> N;
  irep_id_eq_dec : forall a b : irep_idt, {a = b} + {a <> b};
  ssa_expr_eq_dec : forall a b : ssa_exprt, {a = b} + {a <> b};
  renaming_checks : bool   (* SM_INTERNAL_CHECKS *)
}.

(** [sharing_mapt<irep_idt, std::pair<ssa_exprt, unsigned>>], with the
    default [fail_if_equal = false]. *)
Definition current_names_params (R : renaming_types) : sharing_map_params :=
  {| keyT := irep_idt; valueT := (ssa_exprt * N)%type;
     hash := irep_id_hash; key_eq_dec := irep_id_eq_dec;
     value_eq := fun _ _ => false;   (* not used without fail_if_equal *)
     fail_if_equal := false; SM_INTERNAL_CHECKS := renaming_checks |}.

Definition current_namest (R : renaming_types) : Type :=
  @sharing_mapt (current_names_params R).

(** [current_count(identifier)]: the counter corresponding to an
    identifier. *)
Definition current_count {R : renaming_types} (current_names : current_namest R)
  (identifier : irep_idt) : result N :=
  r_opt <- @find (current_names_params R) current_names identifier ;;
  Ok (match r_opt with
      | None => 0
      | Some r => snd r
      end).

(** [std::unordered_set::insert] on a set kept as a list without order. *)
Definition set_insert {R : renaming_types} (e : ssa_exprt)
  (vars : list ssa_exprt) : list ssa_exprt :=
  if in_dec ssa_expr_eq_dec e vars then vars else e :: vars.

(** [get_variables(vars)]: add the SSA expressions of [current_names] to
    [vars]. *)
Definition get_variables {R : renaming_types} (current_names : current_namest R)
  (vars : list ssa_exprt) : result (list ssa_exprt) :=
  view <- @get_view (current_names_params R) current_names [] ;;
  Ok (fold_left (fun vars pair => set_insert (fst (snd pair)) vars) view vars).

(** ** Further instances *)

(** A map with the single element [(k, v)] whose nodes are allocated from
    address [a] on. *)
Definition sm_at {P : sharing_map_params} (a : ptr) (i : N) (k : @keyT P)
  (v : @valueT P) : @sharing_mapt P :=
  mk_sharing_map (Internal a [(i, Container (a + 1) [mk_leaf (a + 11) k v])]) 1.

(** Renaming levels over integers as identifiers and SSA expressions. *)
Definition R_N : renaming_types :=
  {| irep_idt := N; ssa_exprt := N; irep_id_hash := identity_hash;
     irep_id_eq_dec := N.eq_dec; ssa_expr_eq_dec := N.eq_dec;
     renaming_checks := true |}.

(** Use counts: every allocation has one user; the allocation at address
    100 has two. *)
Definition single_user (p : ptr) : N := 1.
Definition root_shared (p : ptr) : N := if p =? 100 then 2 else 1.

(** ** Basic facts *)

Section Basics.
Context {params : sharing_map_params}.

Lemma equalT_true (a b : keyT) : equalT a b = true <-> a = b.
Proof. unfold equalT. destruct (key_eq_dec a b); split; congruence. Qed.

Lemma equalT_false (a b : keyT) : equalT a b = false <-> a <> b.
Proof. unfold equalT. destruct (key_eq_dec a b); split; congruence. Qed.

Lemma equalT_refl (a : keyT) : equalT a a = true.
Proof. apply equalT_true. reflexivity. Qed.

Lemma SM_ASSERT_true : SM_ASSERT true = Ok tt.
Proof. unfold SM_ASSERT. destruct SM_INTERNAL_CHECKS; reflexivity. Qed.

Lemma SM_ASSERT_call_true (c : result bool) :
  c = Ok true -> SM_ASSERT_call c = Ok tt.
Proof.
  intros ->. unfold SM_ASSERT_call. destruct SM_INTERNAL_CHECKS; reflexivity.
Qed.

Lemma levels_eq : levels = 10.
Proof. reflexivity. Qed.

Lemma chunk_of_shift (d h : N) :
  N.land (N.shiftr h (chunk * d)) mask = chunk_of d h.
Proof. reflexivity. Qed.

Lemma shiftr_step (d h : N) :
  N.shiftr (N.shiftr h (chunk * d)) chunk = N.shiftr h (chunk * (d + 1)).
Proof. rewrite N.shiftr_shiftr. f_equal. lia. Qed.

(** *** Lists of leaves *)

Lemma find_k_app (k : keyT) (L1 L2 : list leaft) :
  find_k k (L1 ++ L2) =
  match find_k k L1 with
  | Some l => Some l
  | None => find_k k L2
  end.
Proof.
  unfold find_k. induction L1 as [|l L1 IH]; simpl; [reflexivity|].
  destruct (equalT (get_key l) k); auto.
Qed.

Lemma find_k_key (k : keyT) (L : list leaft) (l : leaft) :
  find_k k L = Some l -> get_key l = k /\ In l L.
Proof.
  unfold find_k. intros H. apply find_some in H. destruct H as [H1 H2].
  apply equalT_true in H2. auto.
Qed.

Lemma find_k_none (k : keyT) (L : list leaft) :
  find_k k L = None <-> (forall l, In l L -> get_key l <> k).
Proof.
  unfold find_k. split.
  - intros H l Hl. apply (find_none _ _ H) in Hl. apply equalT_false. exact Hl.
  - intros H. induction L as [|l L IH]; simpl; [reflexivity|].
    destruct (equalT (get_key l) k) eqn:E.
    + apply equalT_true in E. exfalso. apply (H l); simpl; auto.
    + apply IH. intros l' Hl'. apply H. simpl; auto.
Qed.

Lemma find_k_chunk (k : keyT) (d i : N) (L : list leaft) :
  leaves_chunk d i L -> i <> chunk_of d (hash k) -> find_k k L = None.
Proof.
  intros HL Hi. apply find_k_none. intros l Hl E.
  unfold leaves_chunk in HL. rewrite Forall_forall in HL.
  specialize (HL l Hl). subst k. congruence.
Qed.

(** *** The mapping of an internal node *)

Lemma iter_leaves_internal (p : ptr) (m : to_mapt) :
  iter_leaves (Internal p m) = leaves_of_map m.
Proof.
  unfold leaves_of_map. simpl.
  induction m as [|[i c] m IH]; simpl; [reflexivity|].
  rewrite IH, flat_map_app. simpl. rewrite app_nil_r. reflexivity.
Qed.

Lemma leaves_of_map_app (m1 m2 : to_mapt) :
  leaves_of_map (m1 ++ m2) = leaves_of_map m2 ++ leaves_of_map m1.
Proof. unfold leaves_of_map. rewrite rev_app_distr, flat_map_app. reflexivity. Qed.

Lemma leaves_of_map_cons (i : N) (c : innert) (m : to_mapt) :
  leaves_of_map ((i, c) :: m) = leaves_of_map m ++ iter_leaves c.
Proof.
  unfold leaves_of_map. simpl. rewrite flat_map_app. simpl.
  rewrite app_nil_r. reflexivity.
Qed.

Lemma leaves_of_map_focus (m1 m2 : to_mapt) (i : N) (c : innert) :
  leaves_of_map (m1 ++ (i, c) :: m2) =
  leaves_of_map m2 ++ iter_leaves c ++ leaves_of_map m1.
Proof.
  rewrite leaves_of_map_app, leaves_of_map_cons, <- app_assoc. reflexivity.
Qed.

Lemma tm_find_none (i : N) (m : to_mapt) :
  tm_find i m = None <-> ~ In i (List.map fst m).
Proof.
  induction m as [|[j c] m IH]; simpl.
  - tauto.
  - destruct (N.eqb_spec j i).
    + split; [discriminate|]. intros H. exfalso. apply H. auto.
    + rewrite IH. tauto.
Qed.

Lemma tm_find_split (i : N) (m : to_mapt) (c : innert) :
  tm_find i m = Some c ->
  exists m1 m2, m = m1 ++ (i, c) :: m2 /\ ~ In i (List.map fst m1).
Proof.
  induction m as [|[j c'] m IH]; simpl; [discriminate|].
  destruct (N.eqb_spec j i).
  - intros [= ->]. subst j. exists [], m. simpl. auto.
  - intros H. destruct (IH H) as (m1 & m2 & -> & Hn).
    exists ((j, c') :: m1), m2. simpl. split; [reflexivity|]. tauto.
Qed.

Lemma keys_below_notin (i : N) (m : to_mapt) :
  keys_below i m -> ~ In i (List.map fst m).
Proof.
  unfold keys_below. rewrite Forall_forall. intros H Hi.
  apply in_map_iff in Hi. destruct Hi as (x & <- & Hx).
  specialize (H x Hx). lia.
Qed.

Lemma keys_above_notin (i : N) (m : to_mapt) :
  keys_above i m -> ~ In i (List.map fst m).
Proof.
  unfold keys_above. rewrite Forall_forall. intros H Hi.
  apply in_map_iff in Hi. destruct Hi as (x & <- & Hx).
  specialize (H x Hx). lia.
Qed.

Lemma keys_sorted_focus (m1 m2 : to_mapt) (x : N * innert) :
  keys_sorted (m1 ++ x :: m2) <->
  keys_sorted (m1 ++ m2) /\ keys_below (fst x) m1 /\ keys_above (fst x) m2.
Proof.
  unfold keys_sorted, keys_below, keys_above.
  induction m1 as [|y m1 IH]; simpl.
  - split.
    + intros H. apply StronglySorted_inv in H. destruct H. auto.
    + intros (H & _ & H2). constructor; auto.
  - split.
    + intros H. apply StronglySorted_inv in H. destruct H as [H Hy].
      apply IH in H. destruct H as (H & H1 & H2).
      rewrite Forall_app in Hy. destruct Hy as [Hy1 Hy2].
      apply Forall_cons_iff in Hy2. destruct Hy2 as [Hyx Hy2].
      split; [|split]; auto.
      constructor; auto. rewrite Forall_app. auto.
    + intros (H & H1 & H2). apply StronglySorted_inv in H. destruct H as [H Hy].
      apply Forall_cons_iff in H1. destruct H1 as [Hyx H1].
      rewrite Forall_app in Hy. destruct Hy as [Hy1 Hy2].
      constructor.
      * apply IH. auto.
      * rewrite Forall_app. split; auto.
Qed.

Lemma tm_find_focus (i : N) (m1 m2 : to_mapt) (c : innert) :
  keys_below i m1 -> tm_find i (m1 ++ (i, c) :: m2) = Some c.
Proof.
  intros H. apply keys_below_notin in H.
  induction m1 as [|[j c'] m1 IH]; simpl in *.
  - rewrite N.eqb_refl. reflexivity.
  - destruct (N.eqb_spec j i); [exfalso; auto|]. apply IH. tauto.
Qed.

Lemma tm_find_split_sorted (i : N) (m : to_mapt) (c : innert) :
  keys_sorted m -> tm_find i m = Some c ->
  exists m1 m2, m = m1 ++ (i, c) :: m2 /\ keys_below i m1 /\ keys_above i m2.
Proof.
  intros Hs H. destruct (tm_find_split _ _ _ H) as (m1 & m2 & -> & _).
  apply keys_sorted_focus in Hs. simpl in Hs. exists m1, m2. tauto.
Qed.

Lemma tm_replace_focus (i : N) (m1 m2 : to_mapt) (c c' : innert) :
  keys_below i m1 ->
  tm_replace i c' (m1 ++ (i, c) :: m2) = m1 ++ (i, c') :: m2.
Proof.
  intros H. apply keys_below_notin in H.
  induction m1 as [|[j c0] m1 IH]; simpl in *.
  - rewrite N.eqb_refl. reflexivity.
  - destruct (N.eqb_spec j i); [exfalso; auto|]. rewrite IH; tauto.
Qed.

Lemma tm_remove_absent (i : N) (m : to_mapt) :
  ~ In i (List.map fst m) -> tm_remove i m = m.
Proof.
  unfold tm_remove. induction m as [|[j c] m IH]; simpl; intros H; [reflexivity|].
  destruct (N.eqb_spec j i); [exfalso; auto|]. simpl. rewrite IH; tauto.
Qed.

Lemma tm_remove_focus (i : N) (m1 m2 : to_mapt) (c : innert) :
  keys_below i m1 -> keys_above i m2 ->
  tm_remove i (m1 ++ (i, c) :: m2) = m1 ++ m2.
Proof.
  intros H1 H2. apply keys_below_notin in H1. apply keys_above_notin in H2.
  unfold tm_remove. rewrite filter_app. simpl.
  rewrite N.eqb_refl. simpl.
  fold (tm_remove i m1). fold (tm_remove i m2).
  rewrite !tm_remove_absent; auto.
Qed.

Lemma tm_place_focus (i : N) (c : innert) (m1 m2 : to_mapt) :
  keys_below i m1 -> keys_above i m2 ->
  tm_place i c (m1 ++ m2) = m1 ++ (i, c) :: m2.
Proof.
  unfold keys_below, keys_above. intros H1 H2.
  induction m1 as [|[j c'] m1 IH]; simpl.
  - destruct m2 as [|[j c'] m2]; simpl; [reflexivity|].
    apply Forall_cons_iff in H2. destruct H2 as [Hj _]. simpl in Hj.
    apply N.ltb_lt in Hj. rewrite Hj. reflexivity.
  - apply Forall_cons_iff in H1. destruct H1 as [Hj H1]. simpl in Hj.
    destruct (N.ltb_spec i j); [lia|]. rewrite IH; auto.
Qed.

Lemma tm_place_split_sorted (i : N) (m : to_mapt) :
  keys_sorted m -> tm_find i m = None ->
  exists m1 m2, m = m1 ++ m2 /\ keys_below i m1 /\ keys_above i m2.
Proof.
  unfold keys_sorted, keys_below, keys_above.
  induction m as [|[j c'] m IH]; simpl; intros Hs Hf.
  - exists [], []. auto.
  - apply StronglySorted_inv in Hs. destruct Hs as [Hs Hj].
    destruct (N.eqb_spec j i); [discriminate|].
    destruct (N.lt_ge_cases i j) as [Hlt|Hge].
    + exists [], ((j, c') :: m). simpl. split; [reflexivity|].
      split; [constructor|]. constructor; [exact Hlt|].
      eapply Forall_impl; [|exact Hj]. simpl. intros a Ha. lia.
    + destruct (IH Hs Hf) as (m1 & m2 & -> & H1 & H2).
      exists ((j, c') :: m1), m2. simpl. split; [reflexivity|].
      split; [|exact H2]. constructor; [simpl; lia|exact H1].
Qed.

(** The result of [add_child]: the written node has an entry for [i], the
    other entries are those of the node before. *)
Lemma add_child_focus (a p i : N) (m : to_mapt) :
  keys_sorted m ->
  exists m1 m2 c,
    add_child a i (Internal p m) = Ok (Internal a (m1 ++ (i, c) :: m2)) /\
    keys_below i m1 /\ keys_above i m2 /\
    ((m = m1 ++ (i, c) :: m2 /\ tm_find i m = Some c) \/
     (m = m1 ++ m2 /\ c = Empty /\ tm_find i m = None)).
Proof.
  intros Hs. simpl. destruct (tm_find i m) as [c|] eqn:E.
  - destruct (tm_find_split_sorted _ _ _ Hs E) as (m1 & m2 & -> & H1 & H2).
    exists m1, m2, c. auto 10.
  - destruct (tm_place_split_sorted i m Hs E) as (m1 & m2 & -> & H1 & H2).
    exists m1, m2, Empty. rewrite tm_place_focus by assumption. auto 10.
Qed.

Lemma child_of_focus (a i : N) (m1 m2 : to_mapt) (c : innert) :
  keys_below i m1 ->
  child_of i (Internal a (m1 ++ (i, c) :: m2)) = c.
Proof. intros H. simpl. rewrite tm_find_focus; auto. Qed.

Lemma set_child_focus (a i : N) (m1 m2 : to_mapt) (c c' : innert) :
  keys_below i m1 ->
  set_child i c' (Internal a (m1 ++ (i, c) :: m2)) =
  Internal a (m1 ++ (i, c') :: m2).
Proof. intros H. simpl. rewrite tm_replace_focus; auto. Qed.

Lemma remove_child_focus (a a' i : N) (m1 m2 : to_mapt) (c : innert) :
  keys_below i m1 -> keys_above i m2 ->
  remove_child a' i (Internal a (m1 ++ (i, c) :: m2)) =
  Ok (Internal a' (m1 ++ m2)).
Proof. intros H1 H2. simpl. rewrite tm_remove_focus; auto. Qed.

Lemma height_focus (a i : N) (m1 m2 : to_mapt) (c : innert) :
  (height c < height (Internal a (m1 ++ (i, c) :: m2)))%nat.
Proof.
  simpl. apply Nat.lt_succ_r.
  induction m1 as [|[j c'] m1 IH]; simpl; lia.
Qed.

Lemma wf_children_focus (wf : innert -> Prop) (d i : N) (m1 m2 : to_mapt)
  (c : innert) :
  wf_children wf d (m1 ++ (i, c) :: m2) <->
  wf_children wf d (m1 ++ m2) /\
  keys_below i m1 /\ keys_above i m2 /\
  wf c /\ leaves_chunk d i (iter_leaves c).
Proof.
  unfold wf_children. rewrite keys_sorted_focus, !Forall_app, Forall_cons_iff.
  simpl. tauto.
Qed.

Lemma wf_children_chunk (wf : innert -> Prop) (d : N) (m : to_mapt) (k : keyT) :
  wf_children wf d m -> ~ In (chunk_of d (hash k)) (List.map fst m) ->
  find_k k (leaves_of_map m) = None.
Proof.
  intros [_ H] Hn. induction m as [|[j c] m IH]; [reflexivity|].
  rewrite leaves_of_map_cons, find_k_app.
  inversion H as [|x y [_ Hc] Hm]; subst. simpl in Hn.
  rewrite IH by tauto.
  eapply find_k_chunk; [exact Hc|]. simpl. tauto.
Qed.

Lemma wf_node_empty (rem : nat) (d : N) : wf_node rem d Empty -> False.
Proof. destruct rem; simpl; auto. Qed.

Lemma wf_node_container (rem : nat) (d : N) (q : ptr) (ll : leaf_listt) :
  wf_node rem d (Container q ll) <->
  ll <> [] /\ NoDup (List.map get_key ll) /\ (rem <> O -> length ll = 1%nat).
Proof. destruct rem; simpl; tauto. Qed.

Lemma wf_node_internal (rem : nat) (d : N) (q : ptr) (m : to_mapt) :
  wf_node rem d (Internal q m) <->
  exists rem', rem = S rem' /\ m <> [] /\
               wf_children (wf_node rem' (d + 1)) d m.
Proof.
  destruct rem as [|rem']; simpl.
  - split; [tauto|]. intros (r & H & _). discriminate.
  - split.
    + intros H. exists rem'. tauto.
    + intros (r & [= <-] & H). exact H.
Qed.

End Basics.

(** ** Lookup *)

Section Lookup.
Context {params : sharing_map_params}.

Lemma focus_siblings (wf : innert -> Prop) (d i : N) (m1 m2 : to_mapt)
  (c : innert) (k : keyT) :
  wf_children wf d (m1 ++ (i, c) :: m2) -> i = chunk_of d (hash k) ->
  find_k k (leaves_of_map m1) = None /\ find_k k (leaves_of_map m2) = None.
Proof.
  intros H ->. apply wf_children_focus in H. destruct H as (H & H1 & H2 & _).
  apply keys_below_notin in H1. apply keys_above_notin in H2.
  assert (Hn : find_k k (leaves_of_map (m1 ++ m2)) = None).
  { eapply wf_children_chunk; [exact H|].
    rewrite map_app, in_app_iff. tauto. }
  rewrite leaves_of_map_app, find_k_app in Hn.
  destruct (find_k k (leaves_of_map m2)); [discriminate|]. auto.
Qed.

Lemma find_k_focus (wf : innert -> Prop) (d i : N) (m1 m2 : to_mapt)
  (c : innert) (k : keyT) :
  wf_children wf d (m1 ++ (i, c) :: m2) -> i = chunk_of d (hash k) ->
  find_k k (leaves_of_map (m1 ++ (i, c) :: m2)) = find_k k (iter_leaves c).
Proof.
  intros H Hi. destruct (focus_siblings _ _ _ _ _ _ _ H Hi) as [H1 H2].
  rewrite leaves_of_map_focus, !find_k_app, H1, H2.
  destruct (find_k k (iter_leaves c)); reflexivity.
Qed.

Lemma get_container_node_const_loop_S (fuel : nat) (ip : innert) (key : N) :
  get_container_node_const_loop (S fuel) ip key =
  (p <- find_child (N.land key mask) ip ;;
   match p with
   | None => Ok None
   | Some ip' =>
       SM_ASSERT (negb (is_empty ip')) ;;;
       if is_container ip' then Ok (Some ip')
       else get_container_node_const_loop fuel ip' (N.shiftr key chunk)
   end).
Proof. reflexivity. Qed.

(** The lookup loop followed by the scan of the container finds the first
    leaf with key [k] below the node. *)
Lemma get_container_node_const_loop_spec (k : keyT) :
  forall fuel rem d p m key,
    wf_children (wf_node rem (d + 1)) d m ->
    key = N.shiftr (hash k) (chunk * d) ->
    (height (Internal p m) < fuel)%nat ->
    (cp <- get_container_node_const_loop fuel (Internal p m) key ;;
     match cp with
     | None => Ok None
     | Some c => find_leaf k c
     end) = Ok (find_k k (leaves_of_map m)).
Proof.
  induction fuel as [|fuel IH]; intros rem d p m key Hwf Hkey Hh; [lia|].
  rewrite get_container_node_const_loop_S. subst key.
  rewrite chunk_of_shift. unfold find_child. cbn [get_to_map bind].
  destruct (tm_find (chunk_of d (hash k)) m) as [c|] eqn:E.
  - destruct (tm_find_split _ _ _ E) as (m1 & m2 & -> & Hn1).
    rewrite (find_k_focus _ _ _ _ _ _ _ Hwf eq_refl).
    pose proof (height_focus p (chunk_of d (hash k)) m1 m2 c) as Hc.
    apply wf_children_focus in Hwf. destruct Hwf as (_ & _ & _ & Hwc & _).
    destruct c as [|q m'|q ll].
    + destruct (wf_node_empty _ _ Hwc).
    + apply wf_node_internal in Hwc. destruct Hwc as (rem' & -> & _ & Hwc).
      cbn [is_empty negb is_container]. rewrite SM_ASSERT_true. cbn [bind].
      rewrite iter_leaves_internal.
      apply (IH rem' (d + 1) q m'); [exact Hwc|apply shiftr_step|lia].
    + cbn [is_empty negb is_container]. rewrite SM_ASSERT_true. cbn [bind].
      reflexivity.
  - cbn [bind]. f_equal. symmetry. eapply wf_children_chunk; [exact Hwf|].
    apply tm_find_none. exact E.
Qed.

Lemma wf_map_empty (sm : sharing_mapt) :
  wf_map sm -> empty sm = true -> iter_leaves (map sm) = [].
Proof.
  intros (_ & Hn & _) He. unfold empty in He. apply N.eqb_eq in He.
  rewrite He in Hn. destruct (iter_leaves (map sm)); [reflexivity|].
  simpl in Hn. lia.
Qed.

Lemma wf_map_root (sm : sharing_mapt) :
  wf_map sm -> empty sm = false ->
  exists p m, map sm = Internal p m /\
              wf_children (wf_node (N.to_nat levels - 1) 1) 0 m.
Proof.
  intros (Hr & Hn & _) He. unfold empty in He. apply N.eqb_neq in He.
  destruct (map sm) as [|p m|p ll]; simpl in *.
  - congruence.
  - eauto.
  - destruct Hr.
Qed.

Theorem get_leaf_node_spec (sm : sharing_mapt) (k : keyT) :
  wf_map sm -> get_leaf_node sm k = Ok (find_k k (iter_leaves (map sm))).
Proof.
  intros Hwf. unfold get_leaf_node, get_container_node_const.
  destruct (empty sm) eqn:He.
  - rewrite (wf_map_empty _ Hwf He). reflexivity.
  - destruct (wf_map_root _ Hwf He) as (p & m & Hm & Hc). rewrite Hm.
    cbn [is_defined_internal is_empty is_internal negb andb].
    rewrite SM_ASSERT_true. cbn [bind]. rewrite iter_leaves_internal.
    eapply (get_container_node_const_loop_spec k) with (d := 0);
      [exact Hc| |apply Nat.lt_succ_diag_r].
    rewrite N.mul_0_r, N.shiftr_0_r. reflexivity.
Qed.

Lemma has_key_spec (sm : sharing_mapt) (k : keyT) :
  wf_map sm ->
  has_key sm k =
  Ok (match find_k k (iter_leaves (map sm)) with Some _ => true | None => false end).
Proof. intros H. unfold has_key. rewrite get_leaf_node_spec; auto. Qed.

Lemma find_spec (sm : sharing_mapt) (k : keyT) :
  wf_map sm ->
  find sm k = Ok (option_map get_value (find_k k (iter_leaves (map sm)))).
Proof.
  intros H. unfold find. rewrite get_leaf_node_spec; auto.
  cbn [bind]. destruct (find_k k (iter_leaves (map sm))); reflexivity.
Qed.

End Lookup.

(** ** Insertion *)

Section Insert.
Context {params : sharing_map_params}.

Lemma write_at_plug (cp : list N) (g : innert -> result innert) :
  forall n, write_at cp g n = (x <- g (hole cp n) ;; Ok (plug cp x n)).
Proof.
  induction cp as [|i cp IH]; intros n; simpl.
  - destruct (g n); reflexivity.
  - rewrite IH. destruct (g (hole cp (child_of i n))); reflexivity.
Qed.

Lemma added_frame (k : keyT) (v : valueT) (A B L L' : list leaft) :
  added k v L L' -> added k v (A ++ L ++ B) (A ++ L' ++ B).
Proof.
  intros (pre & post & la & -> & ->).
  exists (A ++ pre), (post ++ B), la.
  repeat rewrite <- app_assoc. simpl. auto.
Qed.

Lemma added_front (k : keyT) (v : valueT) (la : ptr) (L : list leaft) :
  added k v L (mk_leaf la k v :: L).
Proof. exists [], L, la. auto. Qed.

Lemma added_Forall (P : leaft -> Prop) (k : keyT) (v : valueT)
  (L L' : list leaft) :
  added k v L L' -> Forall P L -> (forall la, P (mk_leaf la k v)) ->
  Forall P L'.
Proof.
  intros (pre & post & la & -> & ->) H Hn.
  rewrite Forall_app in *. destruct H. split; auto.
Qed.

Lemma hole_single (b a : N) (cp : list N) (c : innert) :
  hole (b :: cp) (Internal a [(b, c)]) = hole cp c.
Proof. cbn [hole child_of tm_find]. rewrite N.eqb_refl. reflexivity. Qed.

Lemma plug_single (b a : N) (cp : list N) (x c : innert) :
  plug (b :: cp) x (Internal a [(b, c)]) = Internal a [(b, plug cp x c)].
Proof.
  cbn [plug child_of tm_find set_child tm_replace].
  rewrite !N.eqb_refl. reflexivity.
Qed.

Lemma wf_single (rem : nat) (d b a : N) (c : innert) :
  wf_node rem (d + 1) c -> leaves_chunk d b (iter_leaves c) ->
  wf_node (S rem) d (Internal a [(b, c)]).
Proof.
  intros Hc Hl. apply wf_node_internal. exists rem.
  split; [reflexivity|]. split; [discriminate|].
  split.
  - repeat constructor.
  - constructor; [|constructor]. auto.
Qed.

Lemma wf_leaf_container (rem : nat) (d a la : N) (k : keyT) (v : valueT) :
  wf_node rem d (Container a [mk_leaf la k v]).
Proof.
  apply wf_node_container. split; [discriminate|].
  split; [|reflexivity]. repeat constructor. simpl. tauto.
Qed.

Lemma fork_split (b be : N) (cc : innert) :
  b <> be ->
  exists m1 m2,
    tm_place b Empty [(be, cc)] = m1 ++ (b, Empty) :: m2 /\
    m1 ++ m2 = [(be, cc)] /\ keys_below b m1 /\ keys_above b m2.
Proof.
  intros Hne. cbn [tm_place]. destruct (N.ltb_spec b be).
  - exists [], [(be, cc)]. repeat split; repeat constructor. simpl. lia.
  - exists [(be, cc)], []. repeat split; repeat constructor. simpl. lia.
Qed.

(** The loop of [migrate], started on the new empty node: it builds the
    spine along the common chunks of the two hash values, and the result
    with the remaining writes of [migrate] and [insert] applied is a well
    formed node holding the existing leaf and the new one. *)
Lemma migrate_loop_spec (nx : ptr) (k : keyT) (v : valueT) (e : leaft)
  (q : ptr) :
  get_key e <> k ->
  forall fuel rem level key key_existing,
    (1 <= rem)%nat -> (rem <= fuel)%nat ->
    level + N.of_nat rem = levels ->
    key = N.shiftr (hash k) (chunk * level) ->
    key_existing = N.shiftr (hash (get_key e)) (chunk * level) ->
    exists ipc cp found,
      migrate_loop fuel nx (Container q [e]) Empty key key_existing level =
      Ok (ipc, cp, found) /\
      hole cp ipc = Empty /\
      (found = true -> forall a la,
          wf_node rem level (plug cp (Container a [mk_leaf la k v]) ipc) /\
          added k v [e]
            (iter_leaves (plug cp (Container a [mk_leaf la k v]) ipc))) /\
      (found = false -> forall a1,
          hole cp (plug cp (Container a1 [e]) ipc) = Container a1 [e] /\
          forall a2 la,
            wf_node rem level
              (plug cp (Container a2 [mk_leaf la k v; e])
                 (plug cp (Container a1 [e]) ipc)) /\
            added k v [e]
              (iter_leaves
                 (plug cp (Container a2 [mk_leaf la k v; e])
                    (plug cp (Container a1 [e]) ipc)))).
Proof.
  intros Hke.
  induction fuel as [|fuel IH];
    intros rem level key key_existing Hrem Hfuel Hlev Hkey Hkeye; [lia|].
  destruct rem as [|rem']; [lia|].
  cbn [migrate_loop]. subst key key_existing. rewrite !chunk_of_shift.
  set (b := chunk_of level (hash k)).
  set (be := chunk_of level (hash (get_key e))).
  destruct (N.eqb_spec b be) as [Heq|Hne]; cbn [negb].
  - rewrite SM_ASSERT_true. cbn [bind add_child child_of tm_find].
    rewrite N.eqb_refl. rewrite !shiftr_step.
    destruct (N.ltb_spec (level + 1) levels) as [Hlt|Hge].
    + destruct (IH rem' (level + 1) _ _ ltac:(lia) ltac:(lia) ltac:(lia)
                  eq_refl eq_refl)
        as (ipc & cp & found & Hrun & Hhole & Ht & Hf).
      rewrite Hrun. cbn [bind set_child tm_replace]. rewrite N.eqb_refl.
      exists (Internal (fresh nx level) [(b, ipc)]), (b :: cp), found.
      split; [reflexivity|]. split; [rewrite hole_single; exact Hhole|].
      assert (Hchunk : forall L, added k v [e] L -> leaves_chunk level b L).
      { intros L HL. eapply added_Forall; [exact HL| |].
        - constructor; [|constructor]. symmetry. exact Heq.
        - intros la. reflexivity. }
      split.
      * intros Hfound a la. destruct (Ht Hfound a la) as [Hw Ha].
        rewrite plug_single. split; [|exact Ha].
        apply wf_single; [exact Hw|]. apply Hchunk. exact Ha.
      * intros Hfound a1. destruct (Hf Hfound a1) as [Hh Hrest].
        rewrite plug_single, hole_single. split; [exact Hh|].
        intros a2 la. destruct (Hrest a2 la) as [Hw Ha].
        rewrite plug_single. split; [|exact Ha].
        apply wf_single; [exact Hw|]. apply Hchunk. exact Ha.
    + assert (rem' = O) by lia. subst rem'.
      exists (Internal (fresh nx level) [(b, Empty)]), [b], false.
      split; [reflexivity|]. split; [rewrite hole_single; reflexivity|].
      split; [discriminate|]. intros _ a1.
      split; [rewrite plug_single, hole_single; reflexivity|].
      intros a2 la. rewrite !plug_single. cbn [plug].
      split; [|apply added_front].
      apply wf_single.
      * apply wf_node_container. split; [discriminate|].
        split; [|tauto]. repeat constructor; simpl; [|tauto].
        intros [H|[]]. auto.
      * constructor; [reflexivity|]. constructor; [|constructor].
        symmetry. exact Heq.
  - cbn [bind add_child set_child tm_replace tm_find].
    rewrite N.eqb_refl. cbn [bind add_child tm_find].
    destruct (N.eqb_spec be b) as [Hx|_]; [congruence|].
    destruct (fork_split b be (Container q [e]) Hne)
      as (m1 & m2 & -> & Hm & H1 & H2).
    exists (Internal (fresh nx level) (m1 ++ (b, Empty) :: m2)), [b], true.
    split; [reflexivity|].
    split; [cbn [hole]; apply child_of_focus; exact H1|].
    split; [|discriminate]. intros _ a la.
    cbn [plug]. rewrite set_child_focus by exact H1.
    assert (Hwc : wf_children (wf_node rem' (level + 1)) level (m1 ++ m2)).
    { rewrite Hm. split; [repeat constructor|].
      constructor; [|constructor]. cbn [fst snd iter_leaves]. split.
      - apply wf_node_container. split; [discriminate|].
        split; [|reflexivity]. repeat constructor. simpl. tauto.
      - constructor; [reflexivity|constructor]. }
    split.
    + apply wf_node_internal. exists rem'. split; [reflexivity|].
      split; [destruct m1; discriminate|].
      apply wf_children_focus. repeat split; try assumption.
      * apply Hwc.
      * apply Hwc.
      * apply wf_leaf_container.
      * constructor; [reflexivity|constructor].
    + rewrite iter_leaves_internal, leaves_of_map_focus.
      assert (HL : [e] = leaves_of_map m2 ++ leaves_of_map m1).
      { rewrite <- leaves_of_map_app, Hm. reflexivity. }
      rewrite HL. exists (leaves_of_map m2), (leaves_of_map m1), la.
      split; reflexivity.
Qed.

Lemma find_k_app_none (k : keyT) (A B : list leaft) :
  find_k k (A ++ B) = None <-> find_k k A = None /\ find_k k B = None.
Proof.
  rewrite find_k_app. destruct (find_k k A); split; try tauto;
    try discriminate.
Qed.

Lemma tm_find_app_none (i : N) (m1 m2 : to_mapt) :
  keys_below i m1 -> keys_above i m2 -> tm_find i (m1 ++ m2) = None.
Proof.
  intros H1 H2. apply tm_find_none. rewrite map_app, in_app_iff.
  apply keys_below_notin in H1. apply keys_above_notin in H2. tauto.
Qed.

Lemma add_child_wf (rem : nat) (d : N) (ip : innert) :
  wf_inner rem d ip ->
  exists m,
    iter_leaves ip = leaves_of_map m /\
    wf_children (wf_node rem (d + 1)) d m /\
    forall a i, exists m1 m2 c,
      add_child a i ip = Ok (Internal a (m1 ++ (i, c) :: m2)) /\
      keys_below i m1 /\ keys_above i m2 /\
      ((m = m1 ++ (i, c) :: m2 /\ (height c < height ip)%nat) \/
       (m = m1 ++ m2 /\ c = Empty /\ tm_find i m = None)).
Proof.
  intros [[-> _]|(p & m & -> & Hwf)].
  - exists []. split; [reflexivity|]. split; [split; constructor|].
    intros a i. exists [], [], Empty. split; [reflexivity|].
    split; [constructor|]. split; [constructor|]. right. auto.
  - exists m. split; [apply iter_leaves_internal|]. split; [exact Hwf|].
    intros a i.
    destruct (add_child_focus a p i m (proj1 Hwf))
      as (m1 & m2 & c & Hrun & H1 & H2 & Hcase).
    exists m1, m2, c. split; [exact Hrun|]. split; [exact H1|].
    split; [exact H2|]. destruct Hcase as [[-> _]|Hcase]; [left|right; exact Hcase].
    split; [reflexivity|]. apply height_focus.
Qed.

Lemma wf_focus_replace (rem : nat) (d i a : N) (m1 m2 : to_mapt) (c' : innert) :
  wf_children (wf_node rem (d + 1)) d (m1 ++ m2) ->
  keys_below i m1 -> keys_above i m2 ->
  wf_node rem (d + 1) c' -> leaves_chunk d i (iter_leaves c') ->
  wf_node (S rem) d (Internal a (m1 ++ (i, c') :: m2)).
Proof.
  intros Hwf H1 H2 Hc Hl. apply wf_node_internal. exists rem.
  split; [reflexivity|]. split; [destruct m1; discriminate|].
  apply wf_children_focus. auto.
Qed.

Lemma added_focus (k : keyT) (v : valueT) (Lc : list leaft) (a i : N)
  (m1 m2 : to_mapt) (c' : innert) :
  added k v Lc (iter_leaves c') ->
  added k v (leaves_of_map m2 ++ Lc ++ leaves_of_map m1)
    (iter_leaves (Internal a (m1 ++ (i, c') :: m2))).
Proof.
  intros H. rewrite iter_leaves_internal, leaves_of_map_focus.
  apply added_frame. exact H.
Qed.

Lemma find_k_notin_keys (k : keyT) (ll : list leaft) :
  find_k k ll = None -> ~ In k (List.map get_key ll).
Proof.
  intros H Hin. apply in_map_iff in Hin. destruct Hin as (l & Hl & Hin).
  rewrite find_k_none in H. exact (H l Hin Hl).
Qed.

Lemma new_leaf_chunk (d : N) (k : keyT) (v : valueT) (la : ptr) :
  leaves_chunk d (chunk_of d (hash k)) [mk_leaf la k v].
Proof. constructor; [reflexivity|constructor]. Qed.

(** The loop of [insert] on a well formed node that does not hold [k]
    returns a well formed node whose leaves are those of the node and the
    new leaf. *)
Lemma insert_loop_spec (nx : ptr) (k : keyT) (v : valueT) :
  forall fuel rem d ip key,
    wf_inner rem d ip ->
    d + 1 + N.of_nat rem = levels ->
    key = N.shiftr (hash k) (chunk * d) ->
    find_k k (iter_leaves ip) = None ->
    (height ip < fuel)%nat ->
    exists ip',
      insert_loop fuel nx k v ip key d = Ok ip' /\
      wf_node (S rem) d ip' /\ is_container ip' = false /\
      added k v (iter_leaves ip) (iter_leaves ip').
Proof.
  pose proof levels_eq as Hlevels.
  induction fuel as [|fuel IH]; intros rem d ip key Hwf Hlev Hkey Hnone Hh; [lia|].
  cbn [insert_loop]. unfold migrate. subst key. rewrite chunk_of_shift.
  set (bit := chunk_of d (hash k)).
  assert (Hint : is_internal ip = true).
  { destruct Hwf as [[-> _]|(p & m & -> & _)]; reflexivity. }
  assert (Hlv : (d =? 0) || negb (is_empty ip) = true).
  { destruct Hwf as [[-> ->]|(p & m & -> & _)]; [reflexivity|apply orb_true_r]. }
  rewrite Hint, Hlv, SM_ASSERT_true. cbn [bind].
  destruct (add_child_wf _ _ _ Hwf) as (m & Hleaves & Hwc & Hadd).
  destruct (Hadd (fresh nx d) bit) as (m1 & m2 & c & Hrun & H1 & H2 & Hcase).
  rewrite Hrun. cbn [bind]. rewrite !child_of_focus by exact H1.
  rewrite Hleaves in Hnone |- *.
  destruct Hcase as [[Hm Hhc]|(Hm & -> & Hfind)]; subst m.
  - (* the place is occupied *)
    rewrite leaves_of_map_focus in Hnone |- *.
    apply find_k_app_none in Hnone. destruct Hnone as [Hn2 Hnone].
    apply find_k_app_none in Hnone. destruct Hnone as [Hnc Hn1].
    apply wf_children_focus in Hwc.
    destruct Hwc as (Hwc & _ & _ & Hc & Hcl).
    destruct c as [|q m'|q ll].
    + destruct (wf_node_empty _ _ Hc).
    + (* internal node: continue descent *)
      cbn [is_empty is_container is_defined_internal is_internal negb andb].
      rewrite orb_true_r, SM_ASSERT_true. cbn [bind].
      apply wf_node_internal in Hc. destruct Hc as (rem' & -> & Hne & Hc).
      destruct (IH rem' (d + 1) (Internal q m')
                  (N.shiftr (N.shiftr (hash k) (chunk * d)) chunk))
        as (c' & Hrec & Hwc' & _ & Hadded).
      * right. eauto.
      * lia.
      * apply shiftr_step.
      * exact Hnc.
      * lia.
      * rewrite Hrec. cbn [bind]. rewrite set_child_focus by exact H1.
        eexists. split; [reflexivity|]. split; [|split; [reflexivity|]].
        -- apply wf_focus_replace; auto.
           eapply added_Forall; [exact Hadded|exact Hcl|].
           intros la. reflexivity.
        -- apply added_focus. exact Hadded.
    + (* container *)
      cbn [is_empty is_container].
      apply wf_node_container in Hc. destruct Hc as (Hne & Hnd & Hsing).
      destruct (N.ltb_spec d (levels - 1)) as [Hlt|Hge].
      * (* migrate *)
        assert (Hrem : (1 <= rem)%nat) by lia.
        destruct ll as [|e [|e' ll']];
          [congruence| |specialize (Hsing ltac:(lia)); discriminate].
        assert (Hke : get_key e <> k).
        { rewrite find_k_none in Hnc. apply Hnc. simpl. auto. }
        assert (Hce : chunk_of d (hash (get_key e)) = bit).
        { inversion Hcl. assumption. }
        assert (Hd : (d <? levels - 1) = true) by (apply N.ltb_lt; exact Hlt).
        assert (Hd1 : (d + 1 <? levels) = true) by (apply N.ltb_lt; lia).
        rewrite SM_ASSERT_true.
        cbn [bind is_defined_internal is_empty is_internal negb andb].
        rewrite SM_ASSERT_true. unfold find_child.
        cbn [bind get_to_map]. rewrite tm_find_focus by exact H1.
        cbn [bind is_defined_container is_empty is_container negb andb
               get_container is_singular front].
        rewrite !SM_ASSERT_true. cbn [bind].
        rewrite remove_child_focus by assumption. cbn [bind add_child].
        rewrite tm_find_app_none by assumption.
        rewrite tm_place_focus by assumption.
        rewrite !child_of_focus by exact H1.
        cbn [is_empty]. rewrite Hd1, !SM_ASSERT_true. cbn [bind].
        rewrite !shiftr_step.
        destruct (migrate_loop_spec nx k v e q Hke
                    (S (N.to_nat (levels - (d + 1)))) rem (d + 1)
                    (N.shiftr (hash k) (chunk * (d + 1)))
                    (N.shiftr (hash (get_key e)) (chunk * (d + 1)))
                    Hrem ltac:(lia) ltac:(lia) eq_refl eq_refl)
          as (ipc & cp & found & Hmig & Hhole & Ht & Hf).
        rewrite Hmig. cbn [bind]. rewrite set_child_focus by exact H1.
        assert (Hchunk : forall L, added k v [e] L -> leaves_chunk d bit L).
        { intros L HL. eapply added_Forall; [exact HL|exact Hcl|].
          intros la. reflexivity. }
        destruct found.
        -- destruct (Ht eq_refl (fresh nx (d + N.of_nat (length (bit :: cp))))
                       (fresh_leaf nx)) as [Hw Ha].
           cbn [bind]. rewrite write_at_plug. cbn [hole plug].
           rewrite !child_of_focus by exact H1. rewrite Hhole.
           cbn [place_leaf push_front_leaf bind].
           rewrite set_child_focus by exact H1.
           eexists. split; [reflexivity|]. split; [|split; [reflexivity|]].
           ++ apply wf_focus_replace; auto.
           ++ apply (added_focus k v [e]). exact Ha.
        -- destruct (Hf eq_refl
                       (fresh nx (d + N.of_nat (length (bit :: cp)))))
             as [Hh1 Hrest].
           destruct (Hrest (fresh nx (d + N.of_nat (length (bit :: cp))))
                       (fresh_leaf nx)) as [Hw Ha].
           cbn [get_container bind front]. rewrite write_at_plug.
           cbn [hole plug]. rewrite !child_of_focus by exact H1.
           rewrite Hhole. cbn [push_front_leaf bind].
           rewrite set_child_focus by exact H1.
           rewrite write_at_plug. cbn [hole plug].
           rewrite !child_of_focus by exact H1. rewrite Hh1.
           cbn [place_leaf push_front_leaf bind].
           rewrite set_child_focus by exact H1.
           eexists. split; [reflexivity|]. split; [|split; [reflexivity|]].
           ++ apply wf_focus_replace; auto.
           ++ apply (added_focus k v [e]). exact Ha.
      * (* bottom container *)
        assert (Hd : (d <? levels - 1) = false) by (apply N.ltb_ge; exact Hge).
        assert (rem = O) by lia. subst rem.
        cbn [place_leaf push_front_leaf bind].
        rewrite set_child_focus by exact H1.
        eexists. split; [reflexivity|]. split; [|split; [reflexivity|]].
        -- apply wf_focus_replace; auto.
           ++ apply wf_node_container. split; [discriminate|].
              split; [|tauto]. cbn [List.map get_key]. constructor; [|exact Hnd].
              apply find_k_notin_keys. exact Hnc.
           ++ constructor; [reflexivity|exact Hcl].
        -- apply added_focus. apply added_front.
  - (* the place is unoccupied *)
    cbn [is_empty place_leaf push_front_leaf bind is_defined_container
           is_container negb andb].
    rewrite SM_ASSERT_true. cbn [bind]. rewrite set_child_focus by exact H1.
    eexists. split; [reflexivity|]. split; [|split; [reflexivity|]].
    + apply wf_focus_replace; auto.
      * apply wf_leaf_container.
      * apply new_leaf_chunk.
    + rewrite leaves_of_map_app.
      apply (added_focus k v []). apply added_front.
Qed.

Lemma size_incr_spec (n : N) :
  n + 1 < size_t_modulus -> size_incr n = n + 1.
Proof. intros H. unfold size_incr. apply N.mod_small. exact H. Qed.

Lemma added_length (k : keyT) (v : valueT) (L L' : list leaft) :
  added k v L L' -> length L' = S (length L).
Proof.
  intros (pre & post & la & -> & ->). rewrite !length_app. simpl. lia.
Qed.

(** [insert] of an absent key into a well formed map. *)
Theorem insert_spec (nx : ptr) (k : keyT) (v : valueT) (sm : sharing_mapt) :
  wf_map sm ->
  find_k k (iter_leaves (map sm)) = None ->
  num sm + 1 < size_t_modulus ->
  exists sm',
    insert nx k v sm = Ok sm' /\ wf_map sm' /\
    added k v (iter_leaves (map sm)) (iter_leaves (map sm')) /\
    num sm' = num sm + 1.
Proof.
  intros Hwf Hnone Hnum. unfold insert.
  rewrite SM_ASSERT_call_true
    by (rewrite (has_key_spec _ _ Hwf), Hnone; reflexivity).
  cbn [bind].
  assert (Hin : wf_inner (N.to_nat levels - 1) 0 (map sm)).
  { destruct Hwf as (Hr & _). destruct (map sm) as [|p m|p ll]; simpl in Hr.
    - left. auto.
    - right. eauto.
    - destruct Hr. }
  assert (Hint : is_internal (map sm) = true).
  { destruct Hin as [[-> _]|(p & m & -> & _)]; reflexivity. }
  rewrite Hint, SM_ASSERT_true. cbn [bind].
  destruct (insert_loop_spec nx k v (S (height (map sm))) _ 0 (map sm) (hash k)
              Hin eq_refl)
    as (root & Hrun & Hw & Hc & Hadd).
  - rewrite N.mul_0_r, N.shiftr_0_r. reflexivity.
  - exact Hnone.
  - apply Nat.lt_succ_diag_r.
  - rewrite Hrun. cbn [bind]. eexists. split; [reflexivity|].
    rewrite size_incr_spec by exact Hnum. unfold wf_map. cbn [map num].
    split; [|split; [exact Hadd|reflexivity]].
    split; [|split; [|exact Hnum]].
    + destruct root as [|a m'|a ll]; [destruct (wf_node_empty _ _ Hw)| |discriminate].
      apply wf_node_internal in Hw. destruct Hw as (rem' & [= <-] & _ & Hw).
      exact Hw.
    + rewrite (added_length _ _ _ _ Hadd). destruct Hwf as (_ & -> & _). lia.
Qed.

End Insert.

(** ** Removal *)

Section Erase.
Context {params : sharing_map_params}.

Lemma removed_frame (k : keyT) (A B L L' : list leaft) :
  removed k L L' -> find_k k A = None -> find_k k B = None ->
  removed k (A ++ L ++ B) (A ++ L' ++ B).
Proof.
  intros (pre & post & l & -> & -> & Hl & Hpre & Hpost) HA HB.
  exists (A ++ pre), (post ++ B), l.
  repeat rewrite <- app_assoc. simpl.
  repeat split; auto; apply find_k_app_none; auto.
Qed.

Lemma removed_Forall (P : leaft -> Prop) (k : keyT) (L L' : list leaft) :
  removed k L L' -> Forall P L -> Forall P L'.
Proof.
  intros (pre & post & l & -> & -> & _) H.
  rewrite Forall_app in *. destruct H as [H1 H2].
  apply Forall_cons_iff in H2. tauto.
Qed.

Lemma removed_length (k : keyT) (L L' : list leaft) :
  removed k L L' -> length L = S (length L').
Proof.
  intros (pre & post & l & -> & -> & _). rewrite !length_app. simpl. lia.
Qed.

Lemma removed_NoDup (k : keyT) (L L' : list leaft) :
  removed k L L' -> NoDup (List.map get_key L) -> NoDup (List.map get_key L').
Proof.
  intros (pre & post & l & -> & -> & _). rewrite !map_app. simpl.
  apply NoDup_remove_1.
Qed.

Lemma ll_remove_spec (k : keyT) (ll : leaf_listt) (l : leaft) :
  NoDup (List.map get_key ll) -> find_k k ll = Some l ->
  exists ll', ll_remove k ll = Some ll' /\ removed k ll ll'.
Proof.
  induction ll as [|l0 ll IH]; intros Hnd Hf; [discriminate|].
  simpl in Hnd. apply NoDup_cons_iff in Hnd. destruct Hnd as [Hn Hnd].
  unfold find_k in Hf. simpl in *.
  destruct (equalT (get_key l0) k) eqn:E.
  - apply equalT_true in E. exists ll. split; [reflexivity|].
    exists [], ll, l0. repeat split; auto.
    apply find_k_none. intros l' Hl' Hk. apply Hn.
    apply in_map_iff. exists l'. split; [congruence|exact Hl'].
  - destruct (IH Hnd Hf) as (ll' & -> & pre & post & l1 & -> & -> & Hl1 & Hp & Hq).
    exists (l0 :: pre ++ post). split; [reflexivity|].
    exists (l0 :: pre), post, l1. repeat split; auto.
    unfold find_k. simpl. rewrite E. exact Hp.
Qed.

(** The loop of [erase] on a well formed internal node that holds [k]. *)
Lemma erase_loop_spec (nx : ptr) (k : keyT) :
  forall fuel rem d p m key del_null,
    wf_children (wf_node rem (d + 1)) d m ->
    key = N.shiftr (hash k) (chunk * d) ->
    (exists l, find_k k (leaves_of_map m) = Some l) ->
    (height (Internal p m) < fuel)%nat ->
    exists r,
      erase_loop fuel nx k (Internal p m) key d del_null = Ok r /\
      match r with
      | Erased ip' =>
          exists a m',
            ip' = Internal a m' /\
            wf_children (wf_node rem (d + 1)) d m' /\
            (del_null = false -> m' <> []) /\
            removed k (leaves_of_map m) (leaves_of_map m')
      | Remove_at_del =>
          del_null = false /\ removed k (leaves_of_map m) []
      end.
Proof.
  induction fuel as [|fuel IH];
    intros rem d p m key del_null Hwf Hkey [l Hl] Hh; [lia|].
  cbn [erase_loop get_to_map bind]. subst key. rewrite chunk_of_shift.
  set (bit := chunk_of d (hash k)).
  destruct (add_child_focus (fresh nx d) p bit m (proj1 Hwf))
    as (m1 & m2 & c & Hrun & H1 & H2 & Hcase).
  rewrite Hrun. cbn [bind]. rewrite !child_of_focus by exact H1.
  destruct Hcase as [[Hm _]|(Hm & _ & Hfind)]; cycle 1.
  { exfalso. apply tm_find_none in Hfind.
    rewrite (wf_children_chunk _ _ _ _ Hwf Hfind) in Hl. discriminate. }
  rewrite Hm in Hh.
  pose proof (height_focus p bit m1 m2 c) as Hhc.
  set (del_here := (Nat.ltb 1 (length m) || del_null)%bool).
  destruct (focus_siblings _ _ _ _ _ _ k ltac:(rewrite Hm in Hwf; exact Hwf) eq_refl)
    as [Hn1 Hn2].
  assert (Hlen : length m = S (length (m1 ++ m2))).
  { rewrite Hm, !length_app. simpl. lia. }
  rewrite Hm in Hwf, Hl |- *. clear Hm.
  rewrite leaves_of_map_focus in Hl |- *.
  rewrite !find_k_app, Hn2 in Hl.
  assert (Hlc : find_k k (iter_leaves c) = Some l).
  { destruct (find_k k (iter_leaves c)); [exact Hl|].
    rewrite Hn1 in Hl. discriminate. }
  clear Hl.
  apply wf_children_focus in Hwf. destruct Hwf as (Hwf & _ & _ & Hc & Hcl).
  (* what happens when the walk below asks for the removal at [del] *)
  assert (Hprune :
    removed k (iter_leaves c) [] ->
    exists r,
      (if del_here
       then ip <- remove_child (fresh nx d) bit
                    (Internal (fresh nx d) (m1 ++ (bit, c) :: m2)) ;;
            Ok (Erased ip)
       else Ok Remove_at_del) = Ok r /\
      match r with
      | Erased ip' =>
          exists a m',
            ip' = Internal a m' /\
            wf_children (wf_node rem (d + 1)) d m' /\
            (del_null = false -> m' <> []) /\
            removed k (leaves_of_map m2 ++ iter_leaves c ++ leaves_of_map m1)
              (leaves_of_map m')
      | Remove_at_del =>
          del_null = false /\
          removed k (leaves_of_map m2 ++ iter_leaves c ++ leaves_of_map m1) []
      end).
  { intros Hrem. destruct del_here eqn:Hdel.
    - rewrite remove_child_focus by assumption. cbn [bind].
      eexists. split; [reflexivity|]. exists (fresh nx d), (m1 ++ m2).
      split; [reflexivity|]. split; [exact Hwf|]. split.
      + intros ->. unfold del_here in Hdel. rewrite orb_false_r in Hdel.
        apply Nat.ltb_lt in Hdel. intros Hnil. rewrite Hnil in Hlen.
        simpl in Hlen. lia.
      + rewrite leaves_of_map_app.
        apply (removed_frame k _ _ _ []); assumption.
    - eexists. split; [reflexivity|]. unfold del_here in Hdel.
      apply orb_false_iff in Hdel. destruct Hdel as [Hdel ->].
      split; [reflexivity|]. apply Nat.ltb_ge in Hdel.
      assert (Hm12 : m1 ++ m2 = []).
      { destruct (m1 ++ m2); [reflexivity|]. simpl in Hlen. lia. }
      apply app_eq_nil in Hm12. destruct Hm12 as [-> ->].
      cbn [leaves_of_map rev flat_map app]. rewrite app_nil_r. exact Hrem. }
  destruct c as [|q m'|q ll].
  - destruct (wf_node_empty _ _ Hc).
  - (* internal node: continue the walk *)
    cbn [is_empty is_container negb]. rewrite SM_ASSERT_true. cbn [bind].
    apply wf_node_internal in Hc. destruct Hc as (rem' & -> & Hne & Hc).
    rewrite iter_leaves_internal in Hlc, Hcl, Hprune.
    destruct (IH rem' (d + 1) q m'
                (N.shiftr (N.shiftr (hash k) (chunk * d)) chunk) false Hc
                (shiftr_step d (hash k)) (ex_intro _ l Hlc) ltac:(lia))
      as (r & Hrec & Hr).
    rewrite Hrec. cbn [bind]. destruct r as [child|].
    + destruct Hr as (a & mm & -> & Hwm & Hnn & Hrem).
      rewrite set_child_focus by exact H1.
      eexists. split; [reflexivity|].
      exists (fresh nx d), (m1 ++ (bit, Internal a mm) :: m2).
      split; [reflexivity|]. split; [|split].
      * apply wf_children_focus. split; [exact Hwf|].
        split; [exact H1|]. split; [exact H2|]. split.
        -- apply wf_node_internal. exists rem'. auto.
        -- rewrite iter_leaves_internal.
           eapply removed_Forall; [exact Hrem|exact Hcl].
      * intros _. destruct m1; discriminate.
      * rewrite iter_leaves_internal, leaves_of_map_focus, iter_leaves_internal.
        apply removed_frame; assumption.
    + destruct Hr as [_ Hrem]. rewrite iter_leaves_internal. apply Hprune.
      exact Hrem.
  - (* container *)
    cbn [is_empty is_container negb PRECONDITION INVARIANT get_container].
    rewrite SM_ASSERT_true. cbn [bind].
    apply wf_node_container in Hc. destruct Hc as (Hne & Hnd & Hsing).
    cbn [iter_leaves] in Hlc, Hcl, Hprune |- *.
    destruct ll as [|e [|e' ll']]; [congruence| |].
    + (* one leaf *)
      cbn [length Nat.eqb negb INVARIANT bind is_singular front].
      assert (He : equalT (get_key e) k = true).
      { unfold find_k in Hlc. simpl in Hlc.
        destruct (equalT (get_key e) k); [reflexivity|discriminate]. }
      rewrite He. cbn [INVARIANT bind]. apply Hprune.
      exists [], [], e. apply equalT_true in He. repeat split; auto.
    + (* several leaves *)
      cbn [length Nat.eqb negb INVARIANT bind is_singular remove_leaf].
      destruct (ll_remove_spec k _ l Hnd Hlc) as (ll'' & -> & Hrem).
      cbn [bind]. rewrite set_child_focus by exact H1.
      eexists. split; [reflexivity|].
      exists (fresh nx d),
        (m1 ++ (bit, Container (fresh nx (d + 1)) ll'') :: m2).
      split; [reflexivity|]. split; [|split].
      * apply wf_children_focus. split; [exact Hwf|].
        split; [exact H1|]. split; [exact H2|]. split.
        -- apply wf_node_container. split; [|split].
           ++ pose proof (removed_length _ _ _ Hrem) as Hlen'.
              destruct ll''; [simpl in Hlen'; lia|discriminate].
           ++ eapply removed_NoDup; eassumption.
           ++ intros Hr0. specialize (Hsing Hr0). simpl in Hsing. lia.
        -- eapply removed_Forall; [exact Hrem|exact Hcl].
      * intros _. destruct m1; discriminate.
      * rewrite leaves_of_map_focus. cbn [iter_leaves].
        apply removed_frame; assumption.
Qed.

Lemma size_decr_spec (n : N) :
  0 < n -> n < size_t_modulus -> size_decr n = n - 1.
Proof.
  intros H0 H. unfold size_decr.
  replace (n + (size_t_modulus - 1)) with (n - 1 + 1 * size_t_modulus) by lia.
  rewrite N.Div0.mod_add. apply N.mod_small. lia.
Qed.

(** [erase] of a present key from a well formed map. *)
Theorem erase_spec (nx : ptr) (k : keyT) (sm : sharing_mapt) (l : leaft) :
  wf_map sm ->
  find_k k (iter_leaves (map sm)) = Some l ->
  exists sm',
    erase nx k sm = Ok sm' /\ wf_map sm' /\
    removed k (iter_leaves (map sm)) (iter_leaves (map sm')) /\
    num sm = num sm' + 1.
Proof.
  intros Hwf Hl. unfold erase.
  rewrite SM_ASSERT_call_true
    by (rewrite (has_key_spec _ _ Hwf), Hl; reflexivity).
  cbn [bind].
  assert (He : empty sm = false).
  { destruct (empty sm) eqn:E; [|reflexivity].
    rewrite (wf_map_empty _ Hwf E) in Hl. discriminate. }
  destruct (wf_map_root _ Hwf He) as (p & m & Hm & Hc).
  rewrite Hm in Hl |- *. rewrite iter_leaves_internal in Hl |- *.
  destruct (erase_loop_spec nx k (S (height (Internal p m))) _ 0 p m (hash k)
              true Hc)
    as (r & Hrun & Hr).
  - rewrite N.mul_0_r, N.shiftr_0_r. reflexivity.
  - eauto.
  - apply Nat.lt_succ_diag_r.
  - rewrite Hrun. cbn [bind]. destruct r as [root|]; [|destruct Hr; discriminate].
    destruct Hr as (a & m' & -> & Hwm & _ & Hrem).
    eexists. split; [reflexivity|]. unfold wf_map. cbn [map num].
    rewrite iter_leaves_internal.
    destruct Hwf as (_ & Hnum & Hlt). rewrite Hm, iter_leaves_internal in Hnum.
    pose proof (removed_length _ _ _ Hrem) as Hlen.
    rewrite size_decr_spec by lia.
    split; [|split; [exact Hrem|lia]].
    split; [exact Hwm|]. split; lia.
Qed.

End Erase.

(** ** Replacement *)

Section Replace.
Context {params : sharing_map_params}.

Lemma replaced_frame (k : keyT) (v : valueT) (la : ptr)
  (A B L L' : list leaft) :
  replaced k v la L L' -> find_k k A = None ->
  replaced k v la (A ++ L ++ B) (A ++ L' ++ B).
Proof.
  intros (pre & post & l & -> & -> & Hl & Hpre) HA.
  exists (A ++ pre), (post ++ B), l.
  repeat rewrite <- app_assoc. simpl.
  repeat split; auto. apply find_k_app_none; auto.
Qed.

Lemma replaced_keys (k : keyT) (v : valueT) (la : ptr) (L L' : list leaft) :
  replaced k v la L L' -> List.map get_key L' = List.map get_key L.
Proof.
  intros (pre & post & l & -> & -> & Hl & _). rewrite !map_app. simpl.
  rewrite Hl. reflexivity.
Qed.

Lemma leaves_chunk_keys (d i : N) (L L' : list leaft) :
  List.map get_key L' = List.map get_key L ->
  leaves_chunk d i L -> leaves_chunk d i L'.
Proof.
  unfold leaves_chunk. revert L'.
  induction L as [|l L IH]; intros [|l' L'] H HL; try discriminate; auto.
  simpl in H. injection H as Hk HL'.
  apply Forall_cons_iff in HL. destruct HL as [Hl HL].
  constructor; [rewrite Hk; exact Hl|]. apply IH; auto.
Qed.

Lemma ll_set_value_replaced (k : keyT) (v : valueT) (la : ptr)
  (ll : leaf_listt) (l : leaft) :
  find_k k ll = Some l -> replaced k v la ll (ll_set_value la k v ll).
Proof.
  induction ll as [|l0 ll IH]; intros Hf; [discriminate|].
  unfold find_k in Hf. simpl in *.
  destruct (equalT (get_key l0) k) eqn:E.
  - apply equalT_true in E. exists [], ll, l0. rewrite E. auto.
  - destruct (IH Hf) as (pre & post & l1 & Hll & -> & Hl1 & Hp).
    exists (l0 :: pre), post, l1. rewrite Hll at 1.
    repeat split; auto. unfold find_k. simpl. rewrite E. exact Hp.
Qed.

Lemma node_at_focus (a i : N) (cp : list N) (m1 m2 : to_mapt) (c : innert) :
  keys_below i m1 ->
  node_at (i :: cp) (Internal a (m1 ++ (i, c) :: m2)) = node_at cp c.
Proof.
  intros H. cbn [node_at]. unfold find_child. cbn [get_to_map bind].
  rewrite tm_find_focus by exact H. reflexivity.
Qed.

(** The loop of the non-const [get_container_node] on a well formed
    internal node that holds [k]: the returned pointer refers to the
    container with the leaf of [k], and overwriting the value there keeps
    the node well formed. *)
Lemma get_container_node_loop_spec (nx : ptr) (k : keyT) (l : leaft) :
  forall fuel rem d p m key,
    wf_children (wf_node rem (d + 1)) d m ->
    key = N.shiftr (hash k) (chunk * d) ->
    find_k k (leaves_of_map m) = Some l ->
    (height (Internal p m) < fuel)%nat ->
    exists ip' cp q ll,
      get_container_node_loop fuel nx (Internal p m) key d = Ok (ip', cp) /\
      node_at cp ip' = Ok (Container q ll) /\
      hole cp ip' = Container q ll /\
      find_k k ll = Some l /\
      forall a la v,
        exists a' m',
          plug cp (Container a (ll_set_value la k v ll)) ip' = Internal a' m' /\
          m' <> [] /\
          wf_children (wf_node rem (d + 1)) d m' /\
          replaced k v la (leaves_of_map m) (leaves_of_map m').
Proof.
  induction fuel as [|fuel IH]; intros rem d p m key Hwf Hkey Hl Hh; [lia|].
  cbn [get_container_node_loop]. subst key. rewrite chunk_of_shift.
  set (bit := chunk_of d (hash k)).
  destruct (add_child_focus (fresh nx d) p bit m (proj1 Hwf))
    as (m1 & m2 & c & Hrun & H1 & H2 & Hcase).
  rewrite Hrun. cbn [bind]. rewrite !child_of_focus by exact H1.
  destruct Hcase as [[Hm _]|(Hm & _ & Hfind)]; cycle 1.
  { exfalso. apply tm_find_none in Hfind.
    rewrite (wf_children_chunk _ _ _ _ Hwf Hfind) in Hl. discriminate. }
  pose proof (height_focus p bit m1 m2 c) as Hhc.
  rewrite Hm in Hh, Hwf, Hl |- *. clear Hm.
  destruct (focus_siblings _ _ _ _ _ _ k Hwf eq_refl) as [Hn1 Hn2].
  rewrite leaves_of_map_focus in Hl |- *.
  rewrite !find_k_app, Hn2 in Hl.
  assert (Hlc : find_k k (iter_leaves c) = Some l).
  { destruct (find_k k (iter_leaves c)); [exact Hl|].
    rewrite Hn1 in Hl. discriminate. }
  clear Hl.
  apply wf_children_focus in Hwf. destruct Hwf as (Hwf & _ & _ & Hc & Hcl).
  destruct c as [|q m'|q ll].
  - destruct (wf_node_empty _ _ Hc).
  - cbn [is_empty is_container negb]. rewrite SM_ASSERT_true. cbn [bind].
    apply wf_node_internal in Hc. destruct Hc as (rem' & -> & Hne & Hc).
    rewrite iter_leaves_internal in Hlc, Hcl |- *.
    destruct (IH rem' (d + 1) q m'
                (N.shiftr (N.shiftr (hash k) (chunk * d)) chunk) Hc
                (shiftr_step d (hash k)) Hlc ltac:(lia))
      as (c' & cp & q' & ll & Hrec & Hnode & Hhole & Hfl & Hplug).
    rewrite Hrec. cbn [bind]. rewrite set_child_focus by exact H1.
    eexists _, (bit :: cp), q', ll. split; [reflexivity|].
    split; [rewrite node_at_focus by exact H1; exact Hnode|].
    split; [cbn [hole]; rewrite child_of_focus by exact H1; exact Hhole|].
    split; [exact Hfl|]. intros a la v.
    destruct (Hplug a la v) as (a' & mm & Hp & Hmm & Hwm & Hrep).
    cbn [plug]. rewrite child_of_focus, set_child_focus by exact H1.
    rewrite Hp. eexists _, _. split; [reflexivity|].
    split; [destruct m1; discriminate|]. split.
    + apply wf_children_focus. split; [exact Hwf|].
      split; [exact H1|]. split; [exact H2|]. split.
      * apply wf_node_internal. exists rem'. auto.
      * rewrite iter_leaves_internal.
        eapply leaves_chunk_keys; [|exact Hcl].
        eapply replaced_keys. exact Hrep.
    + rewrite leaves_of_map_focus, iter_leaves_internal.
      apply replaced_frame; assumption.
  - cbn [is_empty is_container negb]. rewrite SM_ASSERT_true. cbn [bind].
    cbn [iter_leaves] in Hlc, Hcl |- *.
    eexists _, [bit], q, ll. split; [reflexivity|].
    split; [rewrite node_at_focus by exact H1; reflexivity|].
    split; [cbn [hole]; rewrite child_of_focus by exact H1; reflexivity|].
    split; [exact Hlc|]. intros a la v.
    cbn [plug]. rewrite set_child_focus by exact H1.
    pose proof (ll_set_value_replaced k v la ll l Hlc) as Hrep.
    pose proof (replaced_keys _ _ _ _ _ Hrep) as Hkeys.
    eexists _, _. split; [reflexivity|].
    split; [destruct m1; discriminate|]. split.
    + apply wf_children_focus. split; [exact Hwf|].
      split; [exact H1|]. split; [exact H2|]. split.
      * apply wf_node_container in Hc. destruct Hc as (Hne & Hnd & Hsing).
        assert (Hlen : length (ll_set_value la k v ll) = length ll).
        { rewrite <- (length_map get_key), Hkeys, length_map. reflexivity. }
        apply wf_node_container. split; [|split].
        -- intros Hnil. rewrite Hnil in Hlen. destruct ll; [auto|discriminate].
        -- rewrite Hkeys. exact Hnd.
        -- rewrite Hlen. exact Hsing.
      * eapply leaves_chunk_keys; [exact Hkeys|exact Hcl].
    + rewrite leaves_of_map_focus. cbn [iter_leaves].
      apply replaced_frame; assumption.
Qed.

Lemma replaced_length (k : keyT) (v : valueT) (la : ptr) (L L' : list leaft) :
  replaced k v la L L' -> length L' = length L.
Proof.
  intros H. apply replaced_keys in H.
  rewrite <- (length_map get_key L'), H, length_map. reflexivity.
Qed.

(** The common part of [replace] and [update] on a well formed map that
    holds [k]: the walk to the container, the lookup of the leaf, and the
    write of the new value. *)
Lemma write_value_spec (nx : ptr) (k : keyT) (sm : sharing_mapt) (l : leaft) :
  wf_map sm ->
  find_k k (iter_leaves (map sm)) = Some l ->
  exists root cp c,
    get_container_node nx sm k = Ok (root, cp) /\
    node_at cp root = Ok c /\
    find_leaf k c = Ok (Some l) /\
    forall v, exists root',
      write_at cp
        (set_leaf_value (fresh nx (N.of_nat (length cp))) (fresh_leaf nx) k v)
        root = Ok root' /\
      wf_map (mk_sharing_map root' (num sm)) /\
      replaced k v (fresh_leaf nx) (iter_leaves (map sm)) (iter_leaves root').
Proof.
  intros Hwf Hl. unfold get_container_node.
  rewrite SM_ASSERT_call_true
    by (rewrite (has_key_spec _ _ Hwf), Hl; reflexivity).
  cbn [bind].
  assert (He : empty sm = false).
  { destruct (empty sm) eqn:E; [|reflexivity].
    rewrite (wf_map_empty _ Hwf E) in Hl. discriminate. }
  destruct (wf_map_root _ Hwf He) as (p & m & Hm & Hc).
  rewrite Hm in Hl |- *. rewrite iter_leaves_internal in Hl |- *.
  cbn [is_defined_internal is_empty is_internal negb andb].
  rewrite SM_ASSERT_true. cbn [bind].
  destruct (get_container_node_loop_spec nx k l (S (height (Internal p m))) _ 0
              p m (hash k) Hc)
    as (root & cp & q & ll & Hrun & Hnode & Hhole & Hfl & Hplug).
  - rewrite N.mul_0_r, N.shiftr_0_r. reflexivity.
  - exact Hl.
  - apply Nat.lt_succ_diag_r.
  - exists root, cp, (Container q ll). split; [exact Hrun|].
    split; [exact Hnode|]. split; [unfold find_leaf; cbn [get_container bind];
      fold (find_k k ll); rewrite Hfl; reflexivity|].
    intros v. rewrite write_at_plug, Hhole. cbn [set_leaf_value bind].
    destruct (Hplug (fresh nx (N.of_nat (length cp))) (fresh_leaf nx) v)
      as (a' & m' & -> & Hne & Hwm & Hrep).
    eexists. split; [reflexivity|]. rewrite iter_leaves_internal.
    split; [|exact Hrep]. unfold wf_map. cbn [map num].
    split; [exact Hwm|]. rewrite iter_leaves_internal.
    rewrite (replaced_length _ _ _ _ _ Hrep).
    destruct Hwf as (_ & Hnum & Hlt). rewrite Hm, iter_leaves_internal in Hnum.
    auto.
Qed.

Theorem replace_spec (nx : ptr) (k : keyT) (v : valueT) (sm : sharing_mapt)
  (l : leaft) :
  wf_map sm ->
  find_k k (iter_leaves (map sm)) = Some l ->
  if value_equalt (get_value l) v
  then replace nx k v sm = Fail invariant_violation
  else exists sm',
      replace nx k v sm = Ok sm' /\ wf_map sm' /\ num sm' = num sm /\
      replaced k v (fresh_leaf nx) (iter_leaves (map sm)) (iter_leaves (map sm')).
Proof.
  intros Hwf Hl.
  destruct (write_value_spec nx k sm l Hwf Hl)
    as (root & cp & c & Hrun & Hnode & Hfl & Hwrite).
  unfold replace. rewrite Hrun. cbn [bind]. rewrite Hnode. cbn [bind].
  rewrite Hfl. cbn [bind].
  destruct (value_equalt (get_value l) v); cbn [negb INVARIANT bind].
  - reflexivity.
  - destruct (Hwrite v) as (root' & -> & Hw & Hrep). cbn [bind].
    eexists. split; [reflexivity|]. auto.
Qed.

Theorem update_spec (nx : ptr) (k : keyT) (mutator : valueT -> valueT)
  (sm : sharing_mapt) (l : leaft) :
  wf_map sm ->
  find_k k (iter_leaves (map sm)) = Some l ->
  if value_comparatort (get_value l) (mutator (get_value l))
  then update nx k mutator sm = Fail invariant_violation
  else exists sm',
      update nx k mutator sm = Ok sm' /\ wf_map sm' /\ num sm' = num sm /\
      replaced k (mutator (get_value l)) (fresh_leaf nx)
        (iter_leaves (map sm)) (iter_leaves (map sm')).
Proof.
  intros Hwf Hl.
  destruct (write_value_spec nx k sm l Hwf Hl)
    as (root & cp & c & Hrun & Hnode & Hfl & Hwrite).
  unfold update. rewrite Hrun. cbn [bind]. rewrite Hnode. cbn [bind].
  rewrite Hfl. cbn [bind].
  destruct (Hwrite (mutator (get_value l))) as (root' & -> & Hw & Hrep).
  cbn [bind].
  destruct (value_comparatort (get_value l) (mutator (get_value l)));
    cbn [negb INVARIANT bind].
  - reflexivity.
  - eexists. split; [reflexivity|]. auto.
Qed.

End Replace.

(** ** Views *)

Section Views.
Context {params : sharing_map_params}.

Lemma push_children_eq (m : to_mapt) (stack : list innert) :
  push_children m stack = rev (List.map snd m) ++ stack.
Proof.
  unfold push_children. revert stack.
  induction m as [|x m IH]; intros stack; simpl; [reflexivity|].
  rewrite IH, <- app_assoc. reflexivity.
Qed.

Lemma flat_map_children (m : to_mapt) :
  flat_map iter_leaves (rev (List.map snd m)) = leaves_of_map m.
Proof.
  unfold leaves_of_map. rewrite <- map_rev.
  induction (rev m) as [|x r IH]; simpl; [reflexivity|].
  rewrite IH. reflexivity.
Qed.

Lemma node_count_internal (q : ptr) (m : to_mapt) :
  node_count (Internal q m) = S (count_nodes (List.map snd m)).
Proof.
  unfold count_nodes. simpl. f_equal.
  induction m as [|[i c] m IH]; simpl; [reflexivity|].
  rewrite IH. reflexivity.
Qed.

Lemma count_nodes_app (s1 s2 : list innert) :
  count_nodes (s1 ++ s2) = (count_nodes s1 + count_nodes s2)%nat.
Proof. unfold count_nodes. rewrite map_app, list_sum_app. reflexivity. Qed.

Lemma count_nodes_rev (s : list innert) :
  count_nodes (rev s) = count_nodes s.
Proof.
  induction s as [|x s IH]; [reflexivity|]. simpl rev.
  rewrite count_nodes_app, IH. unfold count_nodes. simpl. lia.
Qed.

Lemma node_count_pos (n : innert) : (1 <= node_count n)%nat.
Proof. destruct n; simpl; lia. Qed.

Lemma wf_children_some (wf : innert -> Prop) (d : N) (m : to_mapt) :
  (forall n, wf n -> wf_some n) -> wf_children wf d m ->
  Forall wf_some (rev (List.map snd m)).
Proof.
  intros Hsome [_ H]. apply Forall_rev. apply Forall_map.
  eapply Forall_impl; [|exact H]. simpl. intros x [Hx _]. auto.
Qed.

(** On well formed nodes the traversal of [iterate] calls [f] on the
    leaves below the nodes of the stack, in the order of [iter_leaves]. *)
Lemma iterate_loop_spec {A : Type} (f : keyT -> valueT -> A -> A) :
  forall fuel stack acc,
    stack <> [] -> Forall wf_some stack ->
    (count_nodes stack <= fuel)%nat ->
    iterate_loop fuel stack f acc =
    Ok (fold_left (emit f) (flat_map iter_leaves stack) acc).
Proof.
  induction fuel as [|fuel IH]; intros stack acc Hne Hwf Hfuel.
  - destruct stack as [|ip stack]; [congruence|].
    unfold count_nodes in Hfuel. simpl in Hfuel.
    pose proof (node_count_pos ip). lia.
  - destruct stack as [|ip stack]; [congruence|].
    apply Forall_cons_iff in Hwf. destruct Hwf as [(rem & d & Hip) Hwf].
    cbn [iterate_loop].
    change (count_nodes (ip :: stack)) with
      (node_count ip + count_nodes stack)%nat in Hfuel.
    destruct ip as [|q m|q ll].
    + destruct (wf_node_empty _ _ Hip).
    + apply wf_node_internal in Hip. destruct Hip as (rem' & -> & Hm & Hc).
      cbn [is_empty negb is_internal get_to_map].
      rewrite SM_ASSERT_true. cbn [bind].
      assert (Hlen : negb (Nat.eqb (length m) 0) = true)
        by (destruct m; [congruence|reflexivity]).
      rewrite Hlen, SM_ASSERT_true. cbn [bind].
      fold (push_children m stack). rewrite push_children_eq.
      rewrite node_count_internal in Hfuel.
      assert (Hne' : rev (List.map snd m) ++ stack <> []).
      { destruct m as [|x m]; [congruence|]. simpl.
        intros H. apply app_eq_nil in H. destruct H as [H _].
        apply app_eq_nil in H. destruct H. discriminate. }
      destruct (rev (List.map snd m) ++ stack) as [|x st] eqn:E; [congruence|].
      rewrite <- E. rewrite IH.
      * rewrite flat_map_app, flat_map_children. cbn [flat_map].
        rewrite iter_leaves_internal. reflexivity.
      * rewrite E. discriminate.
      * apply Forall_app. split; [|exact Hwf].
        eapply wf_children_some; [|exact Hc]. intros n Hn. red. eauto.
      * rewrite count_nodes_app, count_nodes_rev. lia.
    + apply wf_node_container in Hip. destruct Hip as (Hll & _).
      cbn [is_empty negb is_internal is_container get_container].
      rewrite !SM_ASSERT_true. cbn [bind].
      assert (Hlen : negb (Nat.eqb (length ll) 0) = true)
        by (destruct ll; [congruence|reflexivity]).
      rewrite Hlen, SM_ASSERT_true. cbn [bind flat_map iter_leaves].
      rewrite fold_left_app. fold (emit f).
      destruct stack as [|x st]; [reflexivity|].
      apply IH; [discriminate|exact Hwf|]. simpl in Hfuel. lia.
Qed.

Lemma fold_left_snoc {X Y : Type} (g : X -> Y) (L : list X) (acc : list Y) :
  fold_left (fun a x => a ++ [g x]) L acc = acc ++ List.map g L.
Proof.
  revert acc. induction L as [|x L IH]; intros acc; simpl.
  - rewrite app_nil_r. reflexivity.
  - rewrite IH, <- app_assoc. reflexivity.
Qed.

Lemma fold_left_emit_view (L : list leaft) (acc : viewt) :
  fold_left (emit (fun k m view => view ++ [(k, m)])) L acc =
  acc ++ List.map view_item L.
Proof.
  revert acc. induction L as [|l L IH]; intros acc; simpl.
  - rewrite app_nil_r. reflexivity.
  - rewrite IH. unfold emit at 1. rewrite <- app_assoc. reflexivity.
Qed.

(** [get_view] on a well formed map yields its leaves. *)
Theorem get_view_spec (sm : sharing_mapt) :
  wf_map sm ->
  get_view sm [] = Ok (List.map view_item (iter_leaves (map sm))).
Proof.
  intros Hwf. unfold get_view. cbn [length Nat.eqb].
  rewrite SM_ASSERT_true. cbn [bind].
  destruct (empty sm) eqn:He.
  - rewrite (wf_map_empty _ Hwf He). reflexivity.
  - destruct (wf_map_root _ Hwf He) as (p & m & Hm & Hc).
    assert (Hne : m <> []).
    { intros ->. destruct Hwf as (_ & Hnum & _). rewrite Hm in Hnum.
      simpl in Hnum. unfold empty in He. apply N.eqb_neq in He. lia. }
    rewrite Hm. unfold iterate. cbn [is_empty negb].
    rewrite SM_ASSERT_true. cbn [bind]. rewrite iterate_loop_spec.
    + cbn [flat_map]. rewrite app_nil_r. apply f_equal.
      apply fold_left_emit_view.
    + discriminate.
    + constructor; [|constructor].
      exists (S (N.to_nat levels - 1)), 0. apply wf_node_internal.
      eexists. split; [reflexivity|]. auto.
    + unfold count_nodes. simpl. lia.
Qed.

End Views.

(** ** Delta views *)

Section DeltaView.
Context {params : sharing_map_params}.

Ltac assert_goal :=
  match goal with
  | |- context [SM_ASSERT ?b] =>
      destruct (SM_ASSERT b) as [[]|?]; cbn [bind]; [|reflexivity]
  | |- context [SM_ASSERT_call ?c] =>
      destruct (SM_ASSERT_call c) as [[]|?]; cbn [bind]; [|reflexivity]
  end.

Ltac assert_hyp H :=
  match type of H with
  | context [SM_ASSERT ?b] =>
      destruct (SM_ASSERT b) as [[]|?]; cbn [bind] in H; [|discriminate H]
  | context [SM_ASSERT_call ?c] =>
      destruct (SM_ASSERT_call c) as [[]|?]; cbn [bind] in H; [|discriminate H]
  end.

(** *** The output sequence is only appended to *)

Lemma iterate_loop_append {X : Type} (g : keyT -> valueT -> X) :
  forall fuel stack (acc : list X),
    iterate_loop fuel stack (fun k m a => a ++ [g k m]) acc =
    (r <- iterate_loop fuel stack (fun k m a => a ++ [g k m]) [] ;;
     Ok (acc ++ r)).
Proof.
  induction fuel as [|fuel IH]; intros stack acc; [reflexivity|].
  cbn [iterate_loop]. destruct stack as [|ip st]; [reflexivity|].
  assert_goal. destruct (is_internal ip).
  - destruct (get_to_map ip) as [m|e]; cbn [bind]; [|reflexivity].
    assert_goal.
    destruct (fold_left (fun st0 item => snd item :: st0) m st) as [|x st'].
    + cbn [bind]. rewrite app_nil_r. reflexivity.
    + apply IH.
  - assert_goal. destruct (get_container ip) as [ll|e]; cbn [bind];
      [|reflexivity].
    assert_goal.
    rewrite !(fold_left_snoc (fun l => g (get_key l) (get_value l))).
    cbn [app]. destruct st as [|x st']; [reflexivity|].
    rewrite IH.
    rewrite (IH (x :: st') (List.map (fun l => g (get_key l) (get_value l)) ll)).
    destruct (iterate_loop fuel (x :: st') (fun k m a => a ++ [g k m]) []);
      cbn [bind]; [|reflexivity].
    rewrite app_assoc. reflexivity.
Qed.

Lemma iterate_append {X : Type} (g : keyT -> valueT -> X) (n : innert)
  (acc : list X) :
  iterate n (fun k m a => a ++ [g k m]) acc =
  (r <- iterate n (fun k m a => a ++ [g k m]) [] ;; Ok (acc ++ r)).
Proof. unfold iterate. assert_goal. apply iterate_loop_append. Qed.

Lemma gather_all_append (n : innert) (dv : delta_viewt) :
  gather_all n dv = (r <- gather_all n [] ;; Ok (dv ++ r)).
Proof.
  unfold gather_all.
  apply (iterate_append (fun k m => mk_delta_view_item k m None)).
Qed.

Lemma add_item_scan_append (l1 : leaft) (ll2 : leaf_listt) (dv : delta_viewt) :
  add_item_scan l1 ll2 dv = dv ++ add_item_scan l1 ll2 [].
Proof.
  induction ll2 as [|l2 ll2 IH]; cbn [add_item_scan app]; [reflexivity|].
  destruct (leaf_shares_with l1 l2); [rewrite app_nil_r; reflexivity|].
  destruct (equalT (get_key l1) (get_key l2)); [reflexivity|exact IH].
Qed.

Lemma add_item_loop_append (container : innert) (l1 : leaft)
  (only_common : bool) :
  forall fuel ip key dv,
    add_item_loop fuel container l1 ip key dv only_common =
    (r <- add_item_loop fuel container l1 ip key [] only_common ;;
     Ok (dv ++ r)).
Proof.
  induction fuel as [|fuel IH]; intros ip key dv; [reflexivity|].
  cbn [add_item_loop].
  destruct (find_child (N.land key mask) ip) as [[ip'|]|e]; cbn [bind];
    [| |reflexivity].
  - assert_goal. destruct (is_container ip'); [|apply IH].
    destruct (shares_with container ip');
      [cbn [bind]; rewrite app_nil_r; reflexivity|].
    destruct (get_container ip') as [ll2|e]; cbn [bind]; [|reflexivity].
    rewrite add_item_scan_append. reflexivity.
  - destruct (negb only_common); cbn [bind app]; [reflexivity|].
    rewrite app_nil_r. reflexivity.
Qed.

Lemma add_item_if_not_shared_append (container inner : innert) (level : N)
  (dv : delta_viewt) (only_common : bool) :
  add_item_if_not_shared container inner level dv only_common =
  (r <- add_item_if_not_shared container inner level [] only_common ;;
   Ok (dv ++ r)).
Proof.
  unfold add_item_if_not_shared.
  destruct (get_container container) as [ll|e]; cbn [bind]; [|reflexivity].
  destruct (front ll) as [l1|e]; cbn [bind]; [|reflexivity].
  assert_goal. apply add_item_loop_append.
Qed.

Lemma for_each_prefix {X : Type}
  (body : X -> delta_state -> result delta_state) (l : list X) :
  (forall x s dv,
      body x (prefix_dv dv s) = (s' <- body x s ;; Ok (prefix_dv dv s'))) ->
  forall s dv,
    for_each l body (prefix_dv dv s) =
    (s' <- for_each l body s ;; Ok (prefix_dv dv s')).
Proof.
  intros Hbody. induction l as [|x l IH]; intros s dv; cbn [for_each bind];
    [reflexivity|].
  rewrite Hbody. destruct (body x s) as [s1|e]; cbn [bind]; [|reflexivity].
  apply IH.
Qed.

Lemma delta_step_append (other : sharing_mapt) (only_common : bool)
  (ip1 ip2 : innert) (level : N) (s : delta_state) (dv : delta_viewt) :
  delta_step other only_common ip1 ip2 level (prefix_dv dv s) =
  (s' <- delta_step other only_common ip1 ip2 level s ;;
   Ok (prefix_dv dv s')).
Proof.
  unfold delta_step. do 2 assert_goal.
  destruct (is_internal ip1 && is_container ip2).
  { assert_goal. destruct (get_to_map ip1) as [m|e]; cbn [bind];
      [|reflexivity].
    apply for_each_prefix. intros x [[st ls] r] dv0. cbn [prefix_dv].
    destruct (negb (shares_with (snd x) ip2)); reflexivity. }
  destruct (is_internal ip1).
  { assert_goal. destruct (get_to_map ip1) as [m|e]; cbn [bind];
      [|reflexivity].
    apply for_each_prefix. intros x [[st ls] r] dv0. cbn [prefix_dv].
    destruct (find_child (fst x) ip2) as [[p|]|e]; cbn [bind];
      [| |reflexivity].
    - destruct (negb (shares_with (snd x) p)); reflexivity.
    - destruct (negb only_common); [|reflexivity].
      rewrite gather_all_append. rewrite (gather_all_append (snd x) r).
      destruct (gather_all (snd x) []); cbn [bind prefix_dv]; [|reflexivity].
      rewrite app_assoc. reflexivity. }
  assert_goal. destruct (is_internal ip2).
  { do 2 assert_goal. destruct s as [[st ls] r]. cbn [prefix_dv].
    rewrite add_item_if_not_shared_append.
    rewrite (add_item_if_not_shared_append ip1 ip2 level r).
    destruct (add_item_if_not_shared ip1 ip2 level [] only_common);
      cbn [bind prefix_dv]; [|reflexivity].
    rewrite app_assoc. reflexivity. }
  assert_goal. destruct (get_container ip1) as [ll|e]; cbn [bind];
    [|reflexivity].
  apply for_each_prefix. intros x [[st ls] r] dv0. cbn [prefix_dv].
  destruct (find_leaf (get_key x) ip2) as [[p|]|e]; cbn [bind];
    [| |reflexivity].
  - destruct (negb (leaf_shares_with x p)); [|reflexivity].
    assert_goal. cbn [prefix_dv]. rewrite app_assoc. reflexivity.
  - destruct (negb only_common); [|reflexivity].
    assert_goal. cbn [prefix_dv]. rewrite app_assoc. reflexivity.
Qed.

Lemma get_delta_view_loop_append (other : sharing_mapt) (only_common : bool) :
  forall fuel s dv,
    get_delta_view_loop fuel other only_common (prefix_dv dv s) =
    (r <- get_delta_view_loop fuel other only_common s ;; Ok (dv ++ r)).
Proof.
  induction fuel as [|fuel IH]; intros [[st ls] r] dv; [reflexivity|].
  cbn [get_delta_view_loop prefix_dv].
  destruct st as [|[ip1 ip2] st]; [reflexivity|].
  destruct ls as [|level ls]; [reflexivity|].
  change (st, ls, dv ++ r) with (prefix_dv dv (st, ls, r)).
  rewrite delta_step_append.
  destruct (delta_step other only_common ip1 ip2 level (st, ls, r))
    as [[[st' ls'] r']|e]; cbn [bind prefix_dv]; [|reflexivity].
  destruct st' as [|x st']; [reflexivity|].
  apply (IH (x :: st', ls', r')).
Qed.

(** *** The keys of the items come from the first map *)

Lemma child_leaves_incl (q : ptr) (m : to_mapt) (x : N * innert) :
  In x m -> incl (iter_leaves (snd x)) (iter_leaves (Internal q m)).
Proof.
  intros Hx l Hl. rewrite iter_leaves_internal. unfold leaves_of_map.
  apply in_flat_map. exists x. split; [|exact Hl].
  apply in_rev. rewrite rev_involutive. exact Hx.
Qed.

Lemma keys_from_app (L : list leaft) (dv1 dv2 : delta_viewt) :
  keys_from L dv1 -> keys_from L dv2 -> keys_from L (dv1 ++ dv2).
Proof. unfold keys_from. intros. apply Forall_app. auto. Qed.

Lemma keys_from_leaf (L : list leaft) (l : leaft) (o : option valueT) :
  In l L -> keys_from L [mk_delta_view_item (get_key l) (get_value l) o].
Proof.
  intros H. constructor; [|constructor]. cbn [item_k]. apply in_map. exact H.
Qed.

Lemma iterate_loop_keys (L : list leaft) :
  forall fuel stack r,
    iterate_loop fuel stack
      (fun k m dv => dv ++ [mk_delta_view_item k m None]) [] = Ok r ->
    incl (flat_map iter_leaves stack) L ->
    keys_from L r.
Proof.
  induction fuel as [|fuel IH]; intros stack r H Hincl; [discriminate|].
  cbn [iterate_loop] in H. destruct stack as [|ip st]; [discriminate|].
  assert_hyp H. cbn [flat_map] in Hincl.
  destruct ip as [|q m|q ll]; cbn [is_internal get_to_map bind] in H.
  - discriminate.
  - assert_hyp H. fold (push_children m st) in H.
    rewrite push_children_eq in H.
    assert (Hincl' : incl (flat_map iter_leaves (rev (List.map snd m) ++ st)) L).
    { rewrite flat_map_app, flat_map_children, <- (iter_leaves_internal q).
      exact Hincl. }
    destruct (rev (List.map snd m) ++ st) as [|x st'].
    + injection H as <-. constructor.
    + eapply IH; eassumption.
  - assert_hyp H. cbn [get_container bind] in H. assert_hyp H.
    rewrite (fold_left_snoc
               (fun l => mk_delta_view_item (get_key l) (get_value l) None))
      in H.
    cbn [app iter_leaves] in H, Hincl.
    assert (Hll : keys_from L
                    (List.map (fun l => mk_delta_view_item (get_key l)
                                          (get_value l) None) ll)).
    { apply Forall_map. apply Forall_forall. intros l Hl. cbn [item_k].
      apply in_map. apply Hincl. apply in_or_app. auto. }
    destruct st as [|x st'].
    + injection H as <-. exact Hll.
    + rewrite iterate_loop_append in H.
      destruct (iterate_loop fuel (x :: st')
                  (fun k m dv => dv ++ [mk_delta_view_item k m None]) [])
        as [r'|e] eqn:E; cbn [bind] in H; [|discriminate].
      injection H as <-. apply keys_from_app; [exact Hll|].
      eapply IH; [exact E|]. intros l Hl. apply Hincl. apply in_or_app. auto.
Qed.

Lemma gather_all_keys (L : list leaft) (n : innert) (dv r : delta_viewt) :
  gather_all n dv = Ok r -> incl (iter_leaves n) L -> keys_from L dv ->
  keys_from L r.
Proof.
  intros H Hincl Hdv. rewrite gather_all_append in H.
  destruct (gather_all n []) as [r'|e] eqn:E; cbn [bind] in H; [|discriminate].
  injection H as <-. apply keys_from_app; [exact Hdv|].
  unfold gather_all, iterate in E. assert_hyp E.
  eapply iterate_loop_keys; [exact E|].
  cbn [flat_map]. rewrite app_nil_r. exact Hincl.
Qed.

Lemma add_item_scan_keys (L : list leaft) (l1 : leaft) (ll2 : leaf_listt) :
  In l1 L -> keys_from L (add_item_scan l1 ll2 []).
Proof.
  intros Hl. induction ll2 as [|l2 ll2 IH]; cbn [add_item_scan app].
  - apply keys_from_leaf. exact Hl.
  - destruct (leaf_shares_with l1 l2); [constructor|].
    destruct (equalT (get_key l1) (get_key l2)); [|exact IH].
    apply keys_from_leaf. exact Hl.
Qed.

Lemma add_item_loop_keys (L : list leaft) (container : innert) (l1 : leaft)
  (only_common : bool) :
  In l1 L ->
  forall fuel ip key r,
    add_item_loop fuel container l1 ip key [] only_common = Ok r ->
    keys_from L r.
Proof.
  intros Hl. induction fuel as [|fuel IH]; intros ip key r H; [discriminate|].
  cbn [add_item_loop] in H.
  destruct (find_child (N.land key mask) ip) as [[ip'|]|e]; cbn [bind] in H;
    [| |discriminate].
  - assert_hyp H. destruct (is_container ip'); [|eapply IH; exact H].
    destruct (shares_with container ip'); [injection H as <-; constructor|].
    destruct (get_container ip') as [ll2|e]; cbn [bind] in H; [|discriminate].
    injection H as <-. apply add_item_scan_keys. exact Hl.
  - destruct (negb only_common); injection H as <-; [|constructor].
    apply keys_from_leaf. exact Hl.
Qed.

Lemma for_each_inv {X S : Type} (P : S -> Prop)
  (body : X -> S -> result S) (l : list X) :
  (forall x s s', In x l -> P s -> body x s = Ok s' -> P s') ->
  forall s s', P s -> for_each l body s = Ok s' -> P s'.
Proof.
  induction l as [|x l IH]; intros Hbody s s' Hs H; cbn [for_each] in H.
  - injection H as <-. exact Hs.
  - destruct (body x s) as [s1|e] eqn:E; cbn [bind] in H; [|discriminate].
    eapply IH; [|eapply Hbody; [left; reflexivity|exact Hs|exact E]|exact H].
    intros y t t' Hy. apply Hbody. right. exact Hy.
Qed.

Lemma delta_step_keys (L : list leaft) (other : sharing_mapt)
  (only_common : bool) (ip1 ip2 : innert) (level : N) (s s' : delta_state) :
  incl (iter_leaves ip1) L -> delta_inv L s ->
  delta_step other only_common ip1 ip2 level s = Ok s' ->
  delta_inv L s'.
Proof.
  intros Hincl Hs H. unfold delta_step in H. do 2 assert_hyp H.
  destruct ip1 as [|q m|q ll]; cbn [is_internal andb] in H.
  - destruct (is_container ip2); [assert_hyp H|assert_hyp H]; discriminate.
  - destruct (is_container ip2).
    + assert_hyp H. cbn [get_to_map bind] in H.
      eapply (for_each_inv (delta_inv L)); [|exact Hs|exact H].
      intros x [[st ls] r] t Hx [Hst Hr] Hb.
      destruct (negb (shares_with (snd x) ip2)); injection Hb as <-.
      * split; [|exact Hr]. constructor; [|exact Hst]. cbn [fst].
        eapply incl_tran; [eapply child_leaves_incl; exact Hx|exact Hincl].
      * split; assumption.
    + assert_hyp H. cbn [get_to_map bind] in H.
      eapply (for_each_inv (delta_inv L)); [|exact Hs|exact H].
      intros x [[st ls] r] t Hx [Hst Hr] Hb.
      assert (Hxi : incl (iter_leaves (snd x)) L).
      { eapply incl_tran; [eapply child_leaves_incl; exact Hx|exact Hincl]. }
      destruct (find_child (fst x) ip2) as [[p|]|e]; cbn [bind] in Hb;
        [| |discriminate].
      * destruct (negb (shares_with (snd x) p)); injection Hb as <-.
        -- split; [|exact Hr]. constructor; [exact Hxi|exact Hst].
        -- split; assumption.
      * destruct (negb only_common).
        -- destruct (gather_all (snd x) r) as [r'|e] eqn:E; cbn [bind] in Hb;
             [|discriminate].
           injection Hb as <-. split; [exact Hst|].
           eapply gather_all_keys; eassumption.
        -- injection Hb as <-. split; assumption.
  - assert_hyp H. destruct (is_internal ip2).
    + do 2 assert_hyp H. destruct s as [[st ls] r]. destruct Hs as [Hst Hr].
      rewrite add_item_if_not_shared_append in H.
      destruct (add_item_if_not_shared (Container q ll) ip2 level []
                  only_common) as [r'|e] eqn:E; cbn [bind] in H;
        [|discriminate].
      injection H as <-. split; [exact Hst|].
      apply keys_from_app; [exact Hr|].
      unfold add_item_if_not_shared in E. cbn [get_container bind] in E.
      destruct ll as [|l1 ll]; cbn [front bind] in E; [discriminate|].
      assert_hyp E. eapply add_item_loop_keys; [|exact E].
      apply Hincl. left. reflexivity.
    + assert_hyp H. cbn [get_container bind] in H.
      eapply (for_each_inv (delta_inv L)); [|exact Hs|exact H].
      intros x [[st ls] r] t Hx [Hst Hr] Hb.
      assert (Hxl : In x L) by (apply Hincl; exact Hx).
      destruct (find_leaf (get_key x) ip2) as [[p|]|e]; cbn [bind] in Hb;
        [| |discriminate].
      * destruct (negb (leaf_shares_with x p)).
        -- assert_hyp Hb. injection Hb as <-. split; [exact Hst|].
           apply keys_from_app; [exact Hr|]. apply keys_from_leaf. exact Hxl.
        -- injection Hb as <-. split; assumption.
      * destruct (negb only_common).
        -- assert_hyp Hb. injection Hb as <-. split; [exact Hst|].
           apply keys_from_app; [exact Hr|]. apply keys_from_leaf. exact Hxl.
        -- injection Hb as <-. split; assumption.
Qed.

Lemma get_delta_view_loop_keys (L : list leaft) (other : sharing_mapt)
  (only_common : bool) :
  forall fuel s r,
    delta_inv L s ->
    get_delta_view_loop fuel other only_common s = Ok r ->
    keys_from L r.
Proof.
  induction fuel as [|fuel IH]; intros [[st ls] dv] r Hs H; [discriminate|].
  cbn [get_delta_view_loop] in H.
  destruct st as [|[ip1 ip2] st]; [discriminate|].
  destruct ls as [|level ls]; [discriminate|].
  destruct Hs as [Hst Hdv]. apply Forall_cons_iff in Hst.
  destruct Hst as [Hip Hst]. cbn [fst] in Hip.
  destruct (delta_step other only_common ip1 ip2 level (st, ls, dv))
    as [[[st' ls'] r']|e] eqn:E; cbn [bind] in H; [|discriminate].
  assert (Hs' : delta_inv L (st', ls', r')).
  { eapply delta_step_keys; [exact Hip| |exact E]. split; assumption. }
  destruct st' as [|x st'].
  - injection H as <-. apply Hs'.
  - eapply IH; [exact Hs'|exact H].
Qed.

(** Every item of a delta view carries the key of a leaf of the first
    map. *)
Lemma get_delta_view_keys (sm other : sharing_mapt) (only_common : bool)
  (r : delta_viewt) :
  get_delta_view sm other [] only_common = Ok r ->
  keys_from (iter_leaves (map sm)) r.
Proof.
  intros H. unfold get_delta_view in H. assert_hyp H.
  destruct (empty sm); [injection H as <-; constructor|].
  destruct (empty other).
  - destruct (negb only_common); [|injection H as <-; constructor].
    eapply gather_all_keys; [exact H|apply incl_refl|constructor].
  - destruct (shares_with (map sm) (map other));
      [injection H as <-; constructor|].
    eapply get_delta_view_loop_keys; [|exact H].
    split; [|constructor]. constructor; [apply incl_refl|constructor].
Qed.

End DeltaView.

(** ** The documented properties *)

Section Properties.
Context {params : sharing_map_params}.

Lemma wf_map_new : wf_map new_map.
Proof. split; [exact I|]. split; reflexivity. Qed.

Lemma shares_with_refl (n : innert) : shares_with n n = true.
Proof.
  destruct n; unfold shares_with; cbn [data_of]; auto using N.eqb_refl.
Qed.

Lemma added_find_same (k : keyT) (v : valueT) (L L' : list leaft) :
  added k v L L' -> find_k k L = None ->
  exists la, find_k k L' = Some (mk_leaf la k v).
Proof.
  intros (pre & post & la & -> & ->) H. apply find_k_app_none in H.
  destruct H as [H _]. exists la. rewrite find_k_app, H.
  unfold find_k. simpl. rewrite equalT_refl. reflexivity.
Qed.

Lemma added_find_other (k k' : keyT) (v : valueT) (L L' : list leaft) :
  added k v L L' -> k' <> k -> find_k k' L' = find_k k' L.
Proof.
  intros (pre & post & la & -> & ->) H. rewrite !find_k_app.
  destruct (find_k k' pre); [reflexivity|].
  unfold find_k. simpl. apply not_eq_sym in H.
  apply equalT_false in H. rewrite H. reflexivity.
Qed.

Lemma removed_find_same (k : keyT) (L L' : list leaft) :
  removed k L L' -> find_k k L' = None.
Proof.
  intros (pre & post & l & -> & -> & _ & H1 & H2).
  apply find_k_app_none. auto.
Qed.

Lemma removed_find_other (k k' : keyT) (L L' : list leaft) :
  removed k L L' -> k' <> k -> find_k k' L' = find_k k' L.
Proof.
  intros (pre & post & l & -> & -> & Hl & _) H. rewrite !find_k_app.
  destruct (find_k k' pre); [reflexivity|].
  unfold find_k. simpl. rewrite <- Hl in H. apply not_eq_sym in H.
  apply equalT_false in H. rewrite H. reflexivity.
Qed.

Lemma replaced_find_same (k : keyT) (v : valueT) (la : ptr)
  (L L' : list leaft) :
  replaced k v la L L' -> find_k k L' = Some (mk_leaf la k v).
Proof.
  intros (pre & post & l & -> & -> & _ & H). rewrite find_k_app, H.
  unfold find_k. simpl. rewrite equalT_refl. reflexivity.
Qed.

Lemma split_unique (k : keyT) (pre pre' post post' : list leaft) (x y : leaft) :
  pre ++ x :: post = pre' ++ y :: post' ->
  get_key x = k -> get_key y = k ->
  find_k k pre = None -> find_k k pre' = None ->
  pre = pre' /\ post = post'.
Proof.
  revert pre'. induction pre as [|z pre IH]; intros [|z' pre'] E Hx Hy Hp Hp'.
  - simpl in E. injection E as _ E. auto.
  - simpl in E. injection E as E1 E2. subst z'.
    unfold find_k in Hp'. simpl in Hp'. rewrite <- Hx, equalT_refl in Hp'.
    discriminate.
  - simpl in E. injection E as E1 E2. subst z.
    unfold find_k in Hp. simpl in Hp. rewrite <- Hy, equalT_refl in Hp.
    discriminate.
  - simpl in E. injection E as E1 E2. subst z'.
    unfold find_k in Hp, Hp'. simpl in Hp, Hp'.
    destruct (equalT (get_key z) k); [discriminate|].
    destruct (IH pre' E2 Hx Hy Hp Hp') as [-> ->]. auto.
Qed.

Lemma added_removed (k : keyT) (v : valueT) (L L1 L2 : list leaft) :
  added k v L L1 -> find_k k L = None -> removed k L1 L2 -> L2 = L.
Proof.
  intros (pre & post & la & -> & ->) Hn (pre' & post' & l & E & -> & Hl & Hp & _).
  apply find_k_app_none in Hn. destruct Hn as [Hn _].
  destruct (split_unique k _ _ _ _ _ _ E eq_refl Hl Hn Hp) as [-> ->].
  reflexivity.
Qed.

Lemma key_in_In (k : keyT) (ks : list keyT) : key_in k ks = true <-> In k ks.
Proof.
  induction ks as [|k' ks IH]; simpl; [split; [discriminate|tauto]|].
  rewrite orb_true_iff, equalT_true, IH. tauto.
Qed.

Lemma find_k_In_keys (k : keyT) (L : list leaft) :
  In k (List.map get_key L) <-> exists l, find_k k L = Some l.
Proof.
  split.
  - intros H. destruct (find_k k L) as [l|] eqn:E; [eauto|].
    apply find_k_notin_keys in E. tauto.
  - intros [l H]. apply find_k_key in H. destruct H as [<- H].
    apply in_map. exact H.
Qed.

Lemma key_remove_perm (k : keyT) (ks : list keyT) :
  In k ks -> Permutation.Permutation ks (k :: key_remove k ks).
Proof.
  induction ks as [|k' ks IH]; simpl; [tauto|]. intros H.
  destruct (equalT k' k) eqn:E.
  - apply equalT_true in E. subst. reflexivity.
  - apply equalT_false in E. destruct H as [H|H]; [congruence|].
    rewrite (IH H) at 1. apply Permutation.perm_swap.
Qed.

(** A sequence of calls that respect their preconditions keeps the map
    well formed, and the keys of its leaves are the live keys. *)
Lemma run_spec (ops : list operation) :
  forall nx sm ks,
    wf_map sm ->
    Permutation.Permutation ks (List.map get_key (iter_leaves (map sm))) ->
    respects_preconditions ops ks = true ->
    num sm + N.of_nat (length ops) < size_t_modulus ->
    exists sm',
      run ops nx sm = Ok sm' /\ wf_map sm' /\
      Permutation.Permutation (live_keys ops ks)
        (List.map get_key (iter_leaves (map sm'))).
Proof.
  induction ops as [|[k v|k] ops IH]; intros nx sm ks Hwf Hperm Hpre Hnum.
  - exists sm. auto.
  - cbn [respects_preconditions] in Hpre. apply andb_true_iff in Hpre.
    destruct Hpre as [Hk Hpre]. apply negb_true_iff in Hk.
    assert (Hnone : find_k k (iter_leaves (map sm)) = None).
    { destruct (find_k k (iter_leaves (map sm))) as [l|] eqn:E; [|reflexivity].
      assert (Hin : In k ks).
      { eapply Permutation.Permutation_in;
          [symmetry; exact Hperm|apply find_k_In_keys; eauto]. }
      apply key_in_In in Hin. congruence. }
    cbn [length] in Hnum.
    destruct (insert_spec nx k v sm Hwf Hnone ltac:(lia))
      as (sm1 & Hrun & Hwf1 & Hadd & Hn1).
    cbn [run live_keys]. rewrite Hrun. cbn [bind].
    apply IH; [exact Hwf1| |exact Hpre|lia].
    destruct Hadd as (pre & post & la & HL & ->). rewrite HL in Hperm.
    rewrite map_app in *. cbn [List.map get_key].
    apply Permutation.Permutation_cons_app. exact Hperm.
  - cbn [respects_preconditions] in Hpre. apply andb_true_iff in Hpre.
    destruct Hpre as [Hk Hpre]. apply key_in_In in Hk.
    assert (Hin : In k (List.map get_key (iter_leaves (map sm)))).
    { eapply Permutation.Permutation_in; [exact Hperm|exact Hk]. }
    apply find_k_In_keys in Hin. destruct Hin as [l Hl].
    cbn [length] in Hnum.
    destruct (erase_spec nx k sm l Hwf Hl) as (sm1 & Hrun & Hwf1 & Hrem & Hn1).
    cbn [run live_keys]. rewrite Hrun. cbn [bind].
    apply IH; [exact Hwf1| |exact Hpre|lia].
    destruct Hrem as (pre & post & l' & HL & -> & Hl' & _).
    rewrite HL in Hperm. rewrite map_app in *. cbn [List.map] in Hperm.
    rewrite Hl' in Hperm.
    rewrite (key_remove_perm k ks Hk) in Hperm.
    apply Permutation.Permutation_cons_app_inv in Hperm. exact Hperm.
Qed.

Lemma live_keys_NoDup (ops : list operation) :
  forall ks, NoDup ks -> respects_preconditions ops ks = true ->
             NoDup (live_keys ops ks).
Proof.
  induction ops as [|[k v|k] ops IH]; intros ks Hnd Hpre; [exact Hnd| |].
  - cbn [respects_preconditions] in Hpre. apply andb_true_iff in Hpre.
    destruct Hpre as [Hk Hpre]. apply negb_true_iff in Hk.
    apply IH; [|exact Hpre]. constructor; [|exact Hnd].
    intros H. apply key_in_In in H. congruence.
  - cbn [respects_preconditions] in Hpre. apply andb_true_iff in Hpre.
    destruct Hpre as [Hk Hpre]. apply key_in_In in Hk.
    apply IH; [|exact Hpre].
    pose proof (key_remove_perm k ks Hk) as Hp.
    eapply Permutation.Permutation_NoDup in Hnd; [|exact Hp].
    apply NoDup_cons_iff in Hnd. tauto.
Qed.

(** C3 (P1).  After any sequence of [insert] and [erase] calls on a new
    map, each respecting its precondition (insert of an absent key, erase
    of a present key), [size()] is the number of distinct keys that have
    been inserted and not erased since; these are exactly the keys for
    which [has_key] holds.  The counter is a [size_t]: the sequence is
    shorter than [2^64]. *)
Theorem size_counts_live_keys (ops : list operation) (nx : ptr) :
  respects_preconditions ops [] = true ->
  N.of_nat (length ops) < size_t_modulus ->
  exists sm,
    run ops nx new_map = Ok sm /\
    size sm = N.of_nat (length (live_keys ops [])) /\
    NoDup (live_keys ops []) /\
    forall k, has_key sm k = Ok (key_in k (live_keys ops [])).
Proof.
  intros Hpre Hlen.
  destruct (run_spec ops nx new_map [] wf_map_new) as (sm & Hrun & Hwf & Hperm);
    [reflexivity|exact Hpre|exact Hlen|].
  exists sm. split; [exact Hrun|]. split; [|split].
  - unfold size. destruct Hwf as (_ & -> & _).
    rewrite (Permutation.Permutation_length Hperm), length_map. reflexivity.
  - apply live_keys_NoDup; [constructor|exact Hpre].
  - intros k. rewrite (has_key_spec _ _ Hwf). f_equal.
    destruct (find_k k (iter_leaves (map sm))) as [l|] eqn:E.
    + symmetry. apply key_in_In.
      eapply Permutation.Permutation_in; [symmetry; exact Hperm|].
      apply find_k_In_keys. eauto.
    + destruct (key_in k (live_keys ops [])) eqn:Hk; [|reflexivity].
      apply key_in_In in Hk.
      eapply Permutation.Permutation_in in Hk; [|exact Hperm].
      apply find_k_In_keys in Hk. destruct Hk as [l Hl]. congruence.
Qed.

Lemma has_key_false (sm : sharing_mapt) (k : keyT) :
  wf_map sm -> has_key sm k = Ok false ->
  find_k k (iter_leaves (map sm)) = None.
Proof.
  intros Hwf H. rewrite (has_key_spec _ _ Hwf) in H.
  destruct (find_k k (iter_leaves (map sm))); [discriminate|reflexivity].
Qed.

(** C4 (P3).  For a map that does not hold [k], [insert(k, v)] followed by
    [erase(k)] gives a map with the same result of [find] for every key,
    the same [size()] and the same [get_view]. *)
Theorem insert_then_erase (nx nx' : ptr) (k : keyT) (v : valueT)
  (sm : sharing_mapt) :
  wf_map sm ->
  has_key sm k = Ok false ->
  num sm + 1 < size_t_modulus ->
  exists sm1 sm2,
    insert nx k v sm = Ok sm1 /\
    erase nx' k sm1 = Ok sm2 /\
    (forall k', find sm2 k' = find sm k') /\
    size sm2 = size sm /\
    get_view sm2 [] = get_view sm [].
Proof.
  intros Hwf Hk Hnum. apply (has_key_false _ _ Hwf) in Hk.
  destruct (insert_spec nx k v sm Hwf Hk Hnum)
    as (sm1 & Hins & Hwf1 & Hadd & Hn1).
  destruct (added_find_same _ _ _ _ Hadd Hk) as (la & Hl).
  destruct (erase_spec nx' k sm1 _ Hwf1 Hl) as (sm2 & Hers & Hwf2 & Hrem & Hn2).
  pose proof (added_removed _ _ _ _ _ Hadd Hk Hrem) as HL.
  exists sm1, sm2. split; [exact Hins|]. split; [exact Hers|].
  split; [|split].
  - intros k'. rewrite (find_spec _ _ Hwf2), (find_spec _ _ Hwf), HL.
    reflexivity.
  - unfold size. lia.
  - rewrite (get_view_spec _ Hwf2), (get_view_spec _ Hwf), HL. reflexivity.
Qed.

(** C6.  Two distinct keys with the same hash value are both stored:
    after inserting both, [find] returns the value of each; after erasing
    the first, [find] still returns the value of the second and the first
    is absent. *)
Theorem colliding_keys_are_chained (nx1 nx2 nx3 : ptr) (a b : keyT)
  (va vb : valueT) (sm : sharing_mapt) :
  wf_map sm ->
  a <> b -> hash a = hash b ->
  has_key sm a = Ok false -> has_key sm b = Ok false ->
  num sm + 2 < size_t_modulus ->
  exists sm1 sm2 sm3,
    insert nx1 a va sm = Ok sm1 /\
    insert nx2 b vb sm1 = Ok sm2 /\
    find sm2 a = Ok (Some va) /\
    find sm2 b = Ok (Some vb) /\
    erase nx3 a sm2 = Ok sm3 /\
    find sm3 b = Ok (Some vb) /\
    find sm3 a = Ok None.
Proof.
  intros Hwf Hab _ Ha Hb Hnum.
  apply (has_key_false _ _ Hwf) in Ha. apply (has_key_false _ _ Hwf) in Hb.
  destruct (insert_spec nx1 a va sm Hwf Ha ltac:(lia))
    as (sm1 & Hins1 & Hwf1 & Hadd1 & Hn1).
  destruct (added_find_same _ _ _ _ Hadd1 Ha) as (la & Hla).
  assert (Hb1 : find_k b (iter_leaves (map sm1)) = None).
  { rewrite (added_find_other _ _ _ _ _ Hadd1); auto. }
  destruct (insert_spec nx2 b vb sm1 Hwf1 Hb1 ltac:(lia))
    as (sm2 & Hins2 & Hwf2 & Hadd2 & Hn2).
  destruct (added_find_same _ _ _ _ Hadd2 Hb1) as (lb & Hlb).
  assert (Ha2 : find_k a (iter_leaves (map sm2)) = Some (mk_leaf la a va)).
  { rewrite (added_find_other _ _ _ _ _ Hadd2); auto. }
  destruct (erase_spec nx3 a sm2 _ Hwf2 Ha2) as (sm3 & Hers & Hwf3 & Hrem & Hn3).
  exists sm1, sm2, sm3.
  split; [exact Hins1|]. split; [exact Hins2|].
  split; [rewrite (find_spec _ _ Hwf2), Ha2; reflexivity|].
  split; [rewrite (find_spec _ _ Hwf2), Hlb; reflexivity|].
  split; [exact Hers|]. split.
  - rewrite (find_spec _ _ Hwf3), (removed_find_other _ _ _ _ Hrem), Hlb; auto.
  - rewrite (find_spec _ _ Hwf3), (removed_find_same _ _ _ Hrem). reflexivity.
Qed.

Lemma find_some_leaf (sm : sharing_mapt) (k : keyT) (old : valueT) :
  wf_map sm -> find sm k = Ok (Some old) ->
  exists l, find_k k (iter_leaves (map sm)) = Some l /\ get_value l = old.
Proof.
  intros Hwf H. rewrite (find_spec _ _ Hwf) in H.
  destruct (find_k k (iter_leaves (map sm))) as [l|]; [|discriminate].
  simpl in H. injection H as H. eauto.
Qed.

(** C5.  With [fail_if_equal] set, [replace(k, v)] on a present key is an
    invariant violation when [v] equals the stored value and overwrites the
    value otherwise; without the flag no comparison is made and [replace]
    overwrites the value also with an equal one.  [update] compares the
    value after the mutator with the value before it in the same way. *)
Theorem replace_update_fail_if_equal (nx : ptr) (k : keyT) (v : valueT)
  (mutator : valueT -> valueT) (sm : sharing_mapt) (old : valueT) :
  wf_map sm ->
  find sm k = Ok (Some old) ->
  (if fail_if_equal && value_eq old v
   then replace nx k v sm = Fail invariant_violation
   else exists sm', replace nx k v sm = Ok sm' /\ find sm' k = Ok (Some v)) /\
  (if fail_if_equal && value_eq old (mutator old)
   then update nx k mutator sm = Fail invariant_violation
   else exists sm',
       update nx k mutator sm = Ok sm' /\
       find sm' k = Ok (Some (mutator old))).
Proof.
  intros Hwf Hfind.
  destruct (find_some_leaf _ _ _ Hwf Hfind) as (l & Hl & <-).
  split.
  - pose proof (replace_spec nx k v sm l Hwf Hl) as H.
    unfold value_equalt in H.
    destruct fail_if_equal; cbn [andb];
      [destruct (value_eq (get_value l) v); [exact H|]|];
      destruct H as (sm' & Hrun & Hwf' & _ & Hrep);
      exists sm'; (split; [exact Hrun|]);
      rewrite (find_spec _ _ Hwf'), (replaced_find_same _ _ _ _ _ Hrep);
      reflexivity.
  - pose proof (update_spec nx k mutator sm l Hwf Hl) as H.
    unfold value_comparatort in H.
    destruct fail_if_equal; cbn [andb];
      [destruct (value_eq (get_value l) (mutator (get_value l))); [exact H|]|];
      destruct H as (sm' & Hrun & Hwf' & _ & Hrep);
      exists sm'; (split; [exact Hrun|]);
      rewrite (find_spec _ _ Hwf'), (replaced_find_same _ _ _ _ _ Hrep);
      reflexivity.
Qed.

(** C8.  With [bits = 30] and [chunk = 3] the mask [0xffff >> (16 - chunk)]
    is [2^chunk - 1 = 7], and the height [bits / chunk] is [10]. *)
Theorem derived_constants :
  bits = 30 /\ chunk = 3 /\
  mask = N.shiftr 0xffff (16 - chunk) /\ mask = 2 ^ chunk - 1 /\ mask = 7 /\
  levels = bits / chunk /\ levels = 10.
Proof. repeat split. Qed.

(** C9.  [has_key(k)] is true iff [find(k)] returns a value: both are
    computed from [get_leaf_node(k)], and [has_key] is in every case the
    presence of the result of [find]. *)
Theorem has_key_iff_find (sm : sharing_mapt) (k : keyT) :
  (has_key sm k = Ok true <-> exists v, find sm k = Ok (Some v)) /\
  has_key sm k =
  (r <- find sm k ;; Ok (match r with Some _ => true | None => false end)).
Proof.
  unfold has_key, find.
  destruct (get_leaf_node sm k) as [[l|]|e]; cbn [bind]; split;
    try reflexivity; split; try discriminate; eauto.
  - intros [v H]. discriminate.
  - intros [v H]. discriminate.
Qed.

(** C10.  After [clear()], [size()] is [0], [empty()] is true and
    [find(k)] is absent for every key; and for every map [empty()] is true
    iff [size()] is [0]. *)
Theorem clear_empties_the_map (sm : sharing_mapt) :
  size (clear sm) = 0 /\ empty (clear sm) = true /\
  (forall k, find (clear sm) k = Ok None) /\
  (forall sm', empty sm' = true <-> size sm' = 0).
Proof.
  split; [reflexivity|]. split; [reflexivity|]. split; [reflexivity|].
  intros sm'. unfold empty, size. apply N.eqb_eq.
Qed.

(** C2 (P6).  The delta view of a map and its clone is empty, for either
    value of [only_common]. *)
Theorem delta_view_of_clone_is_empty (sm : sharing_mapt) (only_common : bool) :
  get_delta_view sm (clone sm) [] only_common = Ok [].
Proof.
  unfold get_delta_view, clone, empty. cbn [length Nat.eqb map num].
  rewrite SM_ASSERT_true. cbn [bind].
  destruct (num sm =? 0); [reflexivity|].
  rewrite shares_with_refl. reflexivity.
Qed.

Lemma SM_ASSERT_off (b : bool) :
  SM_INTERNAL_CHECKS = false -> SM_ASSERT b = Ok tt.
Proof. intros H. unfold SM_ASSERT. rewrite H. reflexivity. Qed.

Lemma SM_ASSERT_on (b : bool) :
  SM_INTERNAL_CHECKS = true -> SM_ASSERT b = INVARIANT b.
Proof. intros H. unfold SM_ASSERT. rewrite H. reflexivity. Qed.

(** C7, as the code has it.  The requirement that the output sequence of
    [get_view] and [get_delta_view] is empty is an [SM_ASSERT]: with
    [SM_INTERNAL_CHECKS] defined a non-empty output sequence is an invariant
    violation; without it (the default) the call is accepted and the items
    are appended to the contents of the sequence. *)
Theorem view_buffer_misuse (sm other : sharing_mapt) (view : viewt)
  (dv : delta_viewt) (only_common : bool) :
  view <> [] -> dv <> [] ->
  if SM_INTERNAL_CHECKS
  then get_view sm view = Fail invariant_violation /\
       get_delta_view sm other dv only_common = Fail invariant_violation
  else get_view sm view = (r <- get_view sm [] ;; Ok (view ++ r)) /\
       get_delta_view sm other dv only_common =
       (r <- get_delta_view sm other [] only_common ;; Ok (dv ++ r)).
Proof.
  intros Hv Hd. destruct SM_INTERNAL_CHECKS eqn:E.
  - unfold get_view, get_delta_view. rewrite !(SM_ASSERT_on _ E).
    destruct view; [congruence|]. destruct dv; [congruence|].
    split; reflexivity.
  - unfold get_view, get_delta_view. rewrite !(SM_ASSERT_off _ E).
    cbn [bind]. split.
    + destruct (empty sm); [cbn [bind]; rewrite app_nil_r; reflexivity|].
      apply (iterate_append (fun k m => (k, m))).
    + destruct (empty sm); [cbn [bind]; rewrite app_nil_r; reflexivity|].
      destruct (empty other).
      { destruct (negb only_common); [apply gather_all_append|].
        cbn [bind]. rewrite app_nil_r. reflexivity. }
      destruct (shares_with (map sm) (map other));
        [cbn [bind]; rewrite app_nil_r; reflexivity|].
      rewrite <- (app_nil_r dv) at 1.
      apply (get_delta_view_loop_append other only_common _
               ([(map sm, map other)], [0], [])).
Qed.

(** The part of P5 that holds: every item of a delta view carries a key
    present in the first map. *)
Theorem delta_view_keys_in_first_map (sm other : sharing_mapt)
  (only_common : bool) (dv : delta_viewt) (it : delta_view_itemt) :
  wf_map sm ->
  get_delta_view sm other [] only_common = Ok dv ->
  In it dv ->
  has_key sm (item_k it) = Ok true.
Proof.
  intros Hwf H Hit. apply get_delta_view_keys in H.
  unfold keys_from in H. rewrite Forall_forall in H. specialize (H it Hit).
  apply find_k_In_keys in H. destruct H as [l Hl].
  rewrite (has_key_spec _ _ Hwf), Hl. reflexivity.
Qed.

End Properties.

(** ** Further properties of the operations *)

Section Operations.
Context {params : sharing_map_params}.

(** *** The keys of a well formed trie are distinct *)

Lemma leaves_of_map_chunk (wf : innert -> Prop) (d : N) (m : to_mapt)
  (l : leaft) :
  wf_children wf d m -> In l (leaves_of_map m) ->
  In (chunk_of d (hash (get_key l))) (List.map fst m).
Proof.
  intros [_ H] Hl. unfold leaves_of_map in Hl. apply in_flat_map in Hl.
  destruct Hl as (x & Hx & Hl). apply in_rev in Hx.
  rewrite Forall_forall in H. destruct (H x Hx) as [_ Hc].
  unfold leaves_chunk in Hc. rewrite Forall_forall in Hc.
  rewrite (Hc l Hl). apply in_map. exact Hx.
Qed.

Lemma wf_children_tail (wf : innert -> Prop) (d : N) (x : N * innert)
  (m : to_mapt) :
  wf_children wf d (x :: m) ->
  wf_children wf d m /\ ~ In (fst x) (List.map fst m) /\
  wf (snd x) /\ leaves_chunk d (fst x) (iter_leaves (snd x)).
Proof.
  intros H. destruct x as [i c].
  apply (wf_children_focus wf d i [] m c) in H. simpl in H.
  destruct H as (H & _ & H2 & Hc). apply keys_above_notin in H2. tauto.
Qed.

Lemma wf_children_NoDup (wf : innert -> Prop) (d : N) (m : to_mapt) :
  (forall c, wf c -> NoDup (List.map get_key (iter_leaves c))) ->
  wf_children wf d m ->
  NoDup (List.map get_key (leaves_of_map m)).
Proof.
  intros Hwf. induction m as [|[i c] m IH]; intros H; [constructor|].
  apply wf_children_tail in H. destruct H as (Hm & Hi & Hc & Hcl).
  rewrite leaves_of_map_cons, map_app. apply NoDup_app; auto.
  intros k Hk1 Hk2. apply in_map_iff in Hk1. destruct Hk1 as (l1 & <- & Hl1).
  apply in_map_iff in Hk2. destruct Hk2 as (l2 & Hk & Hl2).
  pose proof (leaves_of_map_chunk _ _ _ _ Hm Hl1) as Hin.
  unfold leaves_chunk in Hcl. rewrite Forall_forall in Hcl.
  specialize (Hcl l2 Hl2). simpl in Hcl. rewrite Hk, Hcl in *. auto.
Qed.

Lemma wf_node_NoDup :
  forall rem d n, wf_node rem d n ->
                  NoDup (List.map get_key (iter_leaves n)).
Proof.
  induction rem as [|rem IH]; intros d [|q m|q ll] H.
  - destruct (wf_node_empty _ _ H).
  - destruct H.
  - apply wf_node_container in H. apply H.
  - destruct (wf_node_empty _ _ H).
  - apply wf_node_internal in H. destruct H as (rem' & [= <-] & _ & H).
    rewrite iter_leaves_internal.
    eapply wf_children_NoDup; [|exact H]. intros c. apply IH.
  - apply wf_node_container in H. apply H.
Qed.

Lemma wf_map_NoDup (sm : sharing_mapt) :
  wf_map sm -> NoDup (List.map get_key (iter_leaves (map sm))).
Proof.
  intros (Hr & _). destruct (map sm) as [|q m|q ll]; cbn [wf_root] in Hr.
  - constructor.
  - rewrite iter_leaves_internal.
    eapply wf_children_NoDup; [|exact Hr]. intros c. apply wf_node_NoDup.
  - destruct Hr.
Qed.

Lemma find_k_of_leaf (L : list leaft) (l : leaft) :
  NoDup (List.map get_key L) -> In l L -> find_k (get_key l) L = Some l.
Proof.
  induction L as [|l0 L IH]; intros Hnd Hl; [destruct Hl|].
  simpl in Hnd. apply NoDup_cons_iff in Hnd. destruct Hnd as [Hn Hnd].
  unfold find_k. simpl. destruct Hl as [->|Hl].
  - rewrite equalT_refl. reflexivity.
  - destruct (equalT (get_key l0) (get_key l)) eqn:E.
    + apply equalT_true in E. exfalso. apply Hn. rewrite E.
      apply in_map. exact Hl.
    + apply IH; assumption.
Qed.

Lemma has_key_true (sm : sharing_mapt) (k : keyT) :
  wf_map sm -> has_key sm k = Ok true ->
  exists l, find_k k (iter_leaves (map sm)) = Some l.
Proof.
  intros Hwf H. rewrite (has_key_spec _ _ Hwf) in H.
  destruct (find_k k (iter_leaves (map sm))) as [l|]; [eauto|discriminate].
Qed.

(** *** insert, erase, replace and update against find *)

Lemma find_added (sm sm' : sharing_mapt) (k : keyT) (v : valueT) :
  wf_map sm -> wf_map sm' ->
  find_k k (iter_leaves (map sm)) = None ->
  added k v (iter_leaves (map sm)) (iter_leaves (map sm')) ->
  find sm' k = Ok (Some v) /\
  forall k', k' <> k -> find sm' k' = find sm k'.
Proof.
  intros Hwf Hwf' Hk Hadd. split.
  - destruct (added_find_same _ _ _ _ Hadd Hk) as (la & Hl).
    rewrite (find_spec _ _ Hwf'), Hl. reflexivity.
  - intros k' Hne.
    rewrite (find_spec _ _ Hwf'), (find_spec _ _ Hwf),
      (added_find_other _ _ _ _ _ Hadd Hne).
    reflexivity.
Qed.

Lemma find_removed (sm sm' : sharing_mapt) (k : keyT) :
  wf_map sm -> wf_map sm' ->
  removed k (iter_leaves (map sm)) (iter_leaves (map sm')) ->
  find sm' k = Ok None /\
  forall k', k' <> k -> find sm' k' = find sm k'.
Proof.
  intros Hwf Hwf' Hrem. split.
  - rewrite (find_spec _ _ Hwf'), (removed_find_same _ _ _ Hrem). reflexivity.
  - intros k' Hne.
    rewrite (find_spec _ _ Hwf'), (find_spec _ _ Hwf),
      (removed_find_other _ _ _ _ Hrem Hne).
    reflexivity.
Qed.

Lemma replaced_find_other (k k' : keyT) (v : valueT) (la : ptr)
  (L L' : list leaft) :
  replaced k v la L L' -> k' <> k -> find_k k' L' = find_k k' L.
Proof.
  intros (pre & post & l & -> & -> & Hl & _) H. rewrite !find_k_app.
  destruct (find_k k' pre); [reflexivity|].
  unfold find_k. simpl. pose proof H as H'. rewrite <- Hl in H'.
  apply not_eq_sym in H, H'. apply equalT_false in H, H'.
  rewrite H, H'. reflexivity.
Qed.

Lemma find_replaced (sm sm' : sharing_mapt) (k : keyT) (v : valueT)
  (la : ptr) :
  wf_map sm -> wf_map sm' ->
  replaced k v la (iter_leaves (map sm)) (iter_leaves (map sm')) ->
  find sm' k = Ok (Some v) /\
  forall k', k' <> k -> find sm' k' = find sm k'.
Proof.
  intros Hwf Hwf' Hrep. split.
  - rewrite (find_spec _ _ Hwf'), (replaced_find_same _ _ _ _ _ Hrep).
    reflexivity.
  - intros k' Hne.
    rewrite (find_spec _ _ Hwf'), (find_spec _ _ Hwf),
      (replaced_find_other _ _ _ _ _ _ Hrep Hne).
    reflexivity.
Qed.

(** X1.  [insert] of an absent key into a well formed map succeeds; the map
    stays well formed, its size grows by one, [find] returns the inserted
    value for the key and what it returned before for every other key. *)
Theorem insert_find (nx : ptr) (k : keyT) (v : valueT) (sm : sharing_mapt) :
  wf_map sm ->
  has_key sm k = Ok false ->
  size sm + 1 < size_t_modulus ->
  exists sm',
    insert nx k v sm = Ok sm' /\ wf_map sm' /\
    size sm' = size sm + 1 /\
    find sm' k = Ok (Some v) /\
    forall k', k' <> k -> find sm' k' = find sm k'.
Proof.
  intros Hwf Hk Hnum. apply (has_key_false _ _ Hwf) in Hk.
  destruct (insert_spec nx k v sm Hwf Hk Hnum) as (sm' & Hrun & Hwf' & Hadd & Hn).
  exists sm'. split; [exact Hrun|]. split; [exact Hwf'|].
  split; [exact Hn|]. apply (find_added sm sm' k v); assumption.
Qed.

(** X2.  [erase] of a present key from a well formed map succeeds; the map
    stays well formed, its size shrinks by one, the key is absent afterwards
    and [find] is unchanged for every other key. *)
Theorem erase_find (nx : ptr) (k : keyT) (sm : sharing_mapt) :
  wf_map sm ->
  has_key sm k = Ok true ->
  exists sm',
    erase nx k sm = Ok sm' /\ wf_map sm' /\
    size sm' + 1 = size sm /\
    find sm' k = Ok None /\
    forall k', k' <> k -> find sm' k' = find sm k'.
Proof.
  intros Hwf Hk. destruct (has_key_true _ _ Hwf Hk) as [l Hl].
  destruct (erase_spec nx k sm l Hwf Hl) as (sm' & Hrun & Hwf' & Hrem & Hn).
  exists sm'. split; [exact Hrun|]. split; [exact Hwf'|].
  split; [unfold size; lia|]. apply (find_removed sm sm' k); assumption.
Qed.

(** X3.  [replace] of a present key whose stored value passes the
    [fail_if_equal] comparison: the map stays well formed, its size and every
    other key are unchanged, and [find] returns the new value. *)
Theorem replace_find (nx : ptr) (k : keyT) (v old : valueT)
  (sm : sharing_mapt) :
  wf_map sm ->
  find sm k = Ok (Some old) ->
  value_equalt old v = false ->
  exists sm',
    replace nx k v sm = Ok sm' /\ wf_map sm' /\
    size sm' = size sm /\
    find sm' k = Ok (Some v) /\
    forall k', k' <> k -> find sm' k' = find sm k'.
Proof.
  intros Hwf Hfind Hneq.
  destruct (find_some_leaf _ _ _ Hwf Hfind) as (l & Hl & <-).
  pose proof (replace_spec nx k v sm l Hwf Hl) as H. rewrite Hneq in H.
  destruct H as (sm' & Hrun & Hwf' & Hn & Hrep).
  exists sm'. split; [exact Hrun|]. split; [exact Hwf'|].
  split; [exact Hn|]. eapply find_replaced; eassumption.
Qed.

(** X4.  [update] of a present key with a mutator whose result passes the
    [fail_if_equal] comparison: [find] returns the mutated value, and the size
    and every other key are unchanged. *)
Theorem update_find (nx : ptr) (k : keyT) (mutator : valueT -> valueT)
  (old : valueT) (sm : sharing_mapt) :
  wf_map sm ->
  find sm k = Ok (Some old) ->
  value_comparatort old (mutator old) = false ->
  exists sm',
    update nx k mutator sm = Ok sm' /\ wf_map sm' /\
    size sm' = size sm /\
    find sm' k = Ok (Some (mutator old)) /\
    forall k', k' <> k -> find sm' k' = find sm k'.
Proof.
  intros Hwf Hfind Hneq.
  destruct (find_some_leaf _ _ _ Hwf Hfind) as (l & Hl & <-).
  pose proof (update_spec nx k mutator sm l Hwf Hl) as H. rewrite Hneq in H.
  destruct H as (sm' & Hrun & Hwf' & Hn & Hrep).
  exists sm'. split; [exact Hrun|]. split; [exact Hwf'|].
  split; [exact Hn|]. eapply find_replaced; eassumption.
Qed.

(** X5.  [erase_if_exists] on a well formed map always succeeds: the key is
    absent afterwards, every other key is unchanged, and a map that does not
    hold the key is returned as it is. *)
Theorem erase_if_exists_find (nx : ptr) (k : keyT) (sm : sharing_mapt) :
  wf_map sm ->
  exists sm',
    erase_if_exists nx k sm = Ok sm' /\ wf_map sm' /\
    find sm' k = Ok None /\
    (forall k', k' <> k -> find sm' k' = find sm k') /\
    (has_key sm k = Ok false -> sm' = sm).
Proof.
  intros Hwf. unfold erase_if_exists. rewrite (has_key_spec _ _ Hwf).
  cbn [bind].
  destruct (find_k k (iter_leaves (map sm))) as [l|] eqn:E.
  - destruct (erase_spec nx k sm l Hwf E) as (sm' & Hrun & Hwf' & Hrem & _).
    destruct (find_removed sm sm' k Hwf Hwf' Hrem) as [H1 H2].
    exists sm'. split; [exact Hrun|]. split; [exact Hwf'|].
    split; [exact H1|]. split; [exact H2|]. discriminate.
  - exists sm. split; [reflexivity|]. split; [exact Hwf|].
    split; [rewrite (find_spec _ _ Hwf), E; reflexivity|]. auto.
Qed.

(** X6.  With [SM_INTERNAL_CHECKS], a call whose precondition on the key is
    violated is reported as an invariant violation: [insert] of a key the map
    holds, and [erase], [replace] and [update] of a key it does not hold; the
    calls whose precondition holds succeed. *)
Theorem checked_preconditions (nx : ptr) (k : keyT) (v : valueT)
  (mutator : valueT -> valueT) (sm : sharing_mapt) :
  SM_INTERNAL_CHECKS = true ->
  wf_map sm ->
  size sm + 1 < size_t_modulus ->
  (has_key sm k = Ok true /\
   insert nx k v sm = Fail invariant_violation /\
   exists sm', erase nx k sm = Ok sm') \/
  (has_key sm k = Ok false /\
   (exists sm', insert nx k v sm = Ok sm') /\
   erase nx k sm = Fail invariant_violation /\
   replace nx k v sm = Fail invariant_violation /\
   update nx k mutator sm = Fail invariant_violation).
Proof.
  intros Hchk Hwf Hnum. pose proof (has_key_spec sm k Hwf) as Hk.
  destruct (find_k k (iter_leaves (map sm))) as [l|] eqn:E.
  - left. split; [exact Hk|]. split.
    + unfold insert, SM_ASSERT_call. rewrite Hchk, Hk. reflexivity.
    + destruct (erase_spec nx k sm l Hwf E) as (sm' & Hrun & _). eauto.
  - right. split; [exact Hk|]. split.
    + destruct (insert_spec nx k v sm Hwf E Hnum) as (sm' & Hrun & _). eauto.
    + assert (Hg : get_container_node nx sm k = Fail invariant_violation).
      { unfold get_container_node, SM_ASSERT_call. rewrite Hchk, Hk.
        reflexivity. }
      split; [|split].
      * unfold erase, SM_ASSERT_call. rewrite Hchk, Hk. reflexivity.
      * unfold replace. rewrite Hg. reflexivity.
      * unfold update. rewrite Hg. reflexivity.
Qed.

(** *** Views *)

Lemma In_view_item (k : keyT) (v : valueT) (L : list leaft) :
  In (k, v) (List.map view_item L) <->
  exists l, In l L /\ get_key l = k /\ get_value l = v.
Proof.
  rewrite in_map_iff. unfold view_item. split.
  - intros (l & [= <- <-] & Hl). eauto.
  - intros (l & Hl & <- & <-). eauto.
Qed.

Lemma view_items_find (sm : sharing_mapt) (k : keyT) (v : valueT) :
  wf_map sm ->
  In (k, v) (List.map view_item (iter_leaves (map sm))) <->
  find sm k = Ok (Some v).
Proof.
  intros Hwf. rewrite In_view_item, (find_spec _ _ Hwf). split.
  - intros (l & Hl & <- & <-).
    rewrite (find_k_of_leaf _ _ (wf_map_NoDup _ Hwf) Hl). reflexivity.
  - intros H. destruct (find_k k (iter_leaves (map sm))) as [l|] eqn:E;
      [|discriminate].
    simpl in H. injection H as <-. apply find_k_key in E.
    exists l. tauto.
Qed.

(** X7.  [get_view] on a well formed map yields exactly [size()] items with
    distinct keys, and [(k, v)] is an item iff [find(k)] returns [v]. *)
Theorem get_view_find (sm : sharing_mapt) :
  wf_map sm ->
  exists view,
    get_view sm [] = Ok view /\
    N.of_nat (length view) = size sm /\
    NoDup (List.map fst view) /\
    forall k v, In (k, v) view <-> find sm k = Ok (Some v).
Proof.
  intros Hwf. exists (List.map view_item (iter_leaves (map sm))).
  split; [apply get_view_spec; exact Hwf|]. split; [|split].
  - rewrite length_map. destruct Hwf as (_ & Hn & _). symmetry. exact Hn.
  - rewrite map_map. apply (wf_map_NoDup _ Hwf).
  - intros k v. apply view_items_find. exact Hwf.
Qed.

Lemma fold_left_emit_items {A : Type} (f : keyT -> valueT -> A -> A)
  (L : list leaft) (acc : A) :
  fold_left (emit f) L acc =
  fold_left (fun a kv => f (fst kv) (snd kv) a) (List.map view_item L) acc.
Proof.
  revert acc. induction L as [|l L IH]; intros acc; simpl; [reflexivity|].
  apply IH.
Qed.

(** X8.  The public [iterate(f)] on a well formed map calls [f] once for every
    item of [get_view], in the order of the view. *)
Theorem iterate_map_view {A : Type} (f : keyT -> valueT -> A -> A) (acc : A)
  (sm : sharing_mapt) :
  wf_map sm ->
  exists view,
    get_view sm [] = Ok view /\
    iterate_map sm f acc =
    Ok (fold_left (fun a kv => f (fst kv) (snd kv) a) view acc).
Proof.
  intros Hwf. exists (List.map view_item (iter_leaves (map sm))).
  split; [apply get_view_spec; exact Hwf|].
  rewrite <- fold_left_emit_items. unfold iterate_map.
  destruct (empty sm) eqn:He.
  - rewrite (wf_map_empty _ Hwf He). reflexivity.
  - destruct (wf_map_root _ Hwf He) as (p & m & Hm & Hc).
    assert (Hne : m <> []).
    { intros ->. destruct Hwf as (_ & Hnum & _). rewrite Hm in Hnum.
      simpl in Hnum. unfold empty in He. apply N.eqb_neq in He. lia. }
    rewrite Hm. unfold iterate. cbn [is_empty negb].
    rewrite SM_ASSERT_true. cbn [bind]. rewrite iterate_loop_spec.
    + cbn [flat_map]. rewrite app_nil_r. reflexivity.
    + discriminate.
    + constructor; [|constructor].
      exists (S (N.to_nat levels - 1)), 0. apply wf_node_internal.
      eexists. split; [reflexivity|]. auto.
    + unfold count_nodes. simpl. lia.
Qed.

End Operations.

(** ** Renaming levels *)

Section Renaming.
Context {R : renaming_types}.

Lemma set_insert_In (e e' : ssa_exprt) (vars : list ssa_exprt) :
  In e (set_insert e' vars) <-> e' = e \/ In e vars.
Proof.
  unfold set_insert. destruct (in_dec ssa_expr_eq_dec e' vars) as [H|H].
  - split; [auto|]. intros [<-|H']; assumption.
  - reflexivity.
Qed.

Lemma set_insert_NoDup (e : ssa_exprt) (vars : list ssa_exprt) :
  NoDup vars -> NoDup (set_insert e vars).
Proof.
  intros H. unfold set_insert.
  destruct (in_dec ssa_expr_eq_dec e vars); [assumption|].
  constructor; assumption.
Qed.

Lemma fold_set_insert (view : list (irep_idt * (ssa_exprt * N)))
  (vars : list ssa_exprt) :
  let vars' :=
    fold_left (fun vars pair => set_insert (fst (snd pair)) vars) view vars in
  (NoDup vars -> NoDup vars') /\
  forall e, In e vars' <->
            In e vars \/ exists id c, In (id, (e, c)) view.
Proof.
  revert vars. induction view as [|[id [e0 c0]] view IH]; intros vars; simpl.
  - split; [auto|]. intros e. split; [auto|].
    intros [H|(id & c & [])]. exact H.
  - destruct (IH (set_insert e0 vars)) as [IH1 IH2]. split.
    + intros H. apply IH1, set_insert_NoDup, H.
    + intros e. rewrite IH2, set_insert_In. split.
      * intros [[<-|H]|(id' & c & H)]; eauto 6.
      * intros [H|(id' & c & [[= <- <- <-]|H])]; eauto 6.
Qed.

(** X9.  [current_count] is the counter stored for the identifier, and 0 for
    an identifier that [current_names] does not hold. *)
Theorem current_count_find (current_names : current_namest R)
  (identifier : irep_idt) :
  @wf_map (current_names_params R) current_names ->
  exists r_opt,
    @find (current_names_params R) current_names identifier = Ok r_opt /\
    current_count current_names identifier =
    Ok (match r_opt with Some (_, count) => count | None => 0 end) /\
    (@has_key (current_names_params R) current_names identifier = Ok false ->
     current_count current_names identifier = Ok 0).
Proof.
  intros Hwf. unfold current_count.
  rewrite (@find_spec (current_names_params R) _ _ Hwf).
  rewrite (@has_key_spec (current_names_params R) _ _ Hwf).
  eexists. split; [reflexivity|]. cbn [bind].
  destruct (find_k _ _) as [l|]; simpl.
  - split; [destruct (get_value l); reflexivity|discriminate].
  - auto.
Qed.

(** X10.  After an identifier has been inserted with an SSA expression and a
    counter, [current_count] returns that counter for it, and the counters of
    all other identifiers are unchanged. *)
Theorem current_count_insert (nx : ptr) (current_names : current_namest R)
  (identifier : irep_idt) (ssa : ssa_exprt) (count : N) :
  @wf_map (current_names_params R) current_names ->
  @has_key (current_names_params R) current_names identifier = Ok false ->
  @size (current_names_params R) current_names + 1 < size_t_modulus ->
  exists names' : current_namest R,
    @insert (current_names_params R) nx identifier (ssa, count) current_names
    = Ok names' /\
    current_count names' identifier = Ok count /\
    forall id', id' <> identifier ->
                current_count names' id' = current_count current_names id'.
Proof.
  intros Hwf Hk Hn.
  apply (@has_key_false (current_names_params R) _ _ Hwf) in Hk.
  destruct (@insert_spec (current_names_params R) nx identifier (ssa, count)
              current_names Hwf Hk Hn) as (names' & Hrun & Hwf' & Hadd & _).
  destruct (@find_added (current_names_params R) current_names names'
              identifier (ssa, count) Hwf Hwf' Hk Hadd) as [H1 H2].
  exists names'. split; [exact Hrun|]. unfold current_count. split.
  - rewrite H1. reflexivity.
  - intros id' Hne. rewrite (H2 id' Hne). reflexivity.
Qed.

(** X11.  [get_variables] adds to [vars] exactly the SSA expressions that
    [current_names] maps some identifier to, and keeps [vars] free of
    duplicates. *)
Theorem get_variables_find (current_names : current_namest R)
  (vars : list ssa_exprt) :
  @wf_map (current_names_params R) current_names ->
  exists vars',
    get_variables current_names vars = Ok vars' /\
    (NoDup vars -> NoDup vars') /\
    forall e, In e vars' <->
              In e vars \/
              exists id count,
                @find (current_names_params R) current_names id
                = Ok (Some (e, count)).
Proof.
  intros Hwf. unfold get_variables.
  rewrite (@get_view_spec (current_names_params R) _ Hwf). cbn [bind].
  eexists. split; [reflexivity|].
  destruct (fold_set_insert
              (List.map (@view_item (current_names_params R))
                 (iter_leaves (map current_names))) vars) as [H1 H2].
  split; [exact H1|].
  intros e. rewrite H2. split.
  - intros [H|(id & c & H)]; [auto|]. right. exists id, c.
    apply (@view_items_find (current_names_params R) _ id (e, c) Hwf), H.
  - intros [H|(id & c & H)]; [auto|]. right. exists id, c.
    apply (@view_items_find (current_names_params R) _ id (e, c) Hwf), H.
Qed.

End Renaming.

(** ** The traversal of get_delta_view *)

Section DeltaNodes.
Context {params : sharing_map_params}.

Lemma innert_induction (P : innert -> Prop) :
  P Empty -> (forall q ll, P (Container q ll)) ->
  (forall q m, Forall (fun x => P (snd x)) m -> P (Internal q m)) ->
  forall n, P n.
Proof.
  intros HE HC HI. fix IH 1. intros [|q m|q ll]; [exact HE| |apply HC].
  apply HI. revert m. fix IHm 1. intros [|[i c] m]; constructor.
  - apply IH.
  - apply IHm.
Qed.

Lemma subnodes_internal (q : ptr) (m : to_mapt) :
  subnodes (Internal q m) =
  Internal q m :: flat_map (fun x => subnodes (snd x)) m.
Proof.
  cbn [subnodes]. f_equal.
  induction m as [|[i c] m IH]; [reflexivity|].
  cbn [flat_map snd]. rewrite <- IH. reflexivity.
Qed.

Lemma subnodes_self (n : innert) : In n (subnodes n).
Proof. destruct n; left; reflexivity. Qed.

Lemma subnodes_trans (a b : innert) :
  In a (subnodes b) -> forall c, In b (subnodes c) -> In a (subnodes c).
Proof.
  intros Ha c. induction c as [| |q m IH] using innert_induction.
  - intros [<-|[]]. exact Ha.
  - intros [<-|[]]. exact Ha.
  - rewrite subnodes_internal. intros [E|Hb];
      [rewrite <- subnodes_internal, E; exact Ha|].
    right. apply in_flat_map in Hb. destruct Hb as (x & Hx & Hb).
    apply in_flat_map. exists x. split; [exact Hx|].
    rewrite Forall_forall in IH. apply (IH x Hx Hb).
Qed.

Lemma subnodes_child (q : ptr) (m : to_mapt) (x : N * innert) (r : innert) :
  In (Internal q m) (subnodes r) -> In x m -> In (snd x) (subnodes r).
Proof.
  intros Hr Hx. eapply subnodes_trans; [|exact Hr].
  rewrite subnodes_internal. right. apply in_flat_map.
  exists x. split; [exact Hx|apply subnodes_self].
Qed.

Lemma subnodes_leaves (n r : innert) :
  In n (subnodes r) -> incl (iter_leaves n) (iter_leaves r).
Proof.
  induction r as [| |q m IH] using innert_induction.
  - intros [<-|[]]. apply incl_refl.
  - intros [<-|[]]. apply incl_refl.
  - rewrite subnodes_internal. intros [<-|Hn]; [apply incl_refl|].
    apply in_flat_map in Hn. destruct Hn as (x & Hx & Hn).
    rewrite Forall_forall in IH.
    eapply incl_tran; [apply (IH x Hx Hn)|].
    apply child_leaves_incl. exact Hx.
Qed.

Lemma tm_find_In (i : N) (m : to_mapt) (c : innert) :
  tm_find i m = Some c -> In (i, c) m.
Proof.
  intros H. destruct (tm_find_split _ _ _ H) as (m1 & m2 & -> & _).
  apply in_or_app. right. left. reflexivity.
Qed.

(** *** Counting keys *)

Lemma key_count_app (k : keyT) (L1 L2 : list leaft) :
  key_count k (L1 ++ L2) = (key_count k L1 + key_count k L2)%nat.
Proof. unfold key_count. rewrite map_app. apply count_occ_app. Qed.

Lemma key_count_NoDup (L : list leaft) :
  NoDup (List.map get_key L) <-> forall k, (key_count k L <= 1)%nat.
Proof. apply NoDup_count_occ. Qed.

Lemma key_count_children (k : keyT) (m : to_mapt) :
  key_count k (leaves_of_map m) =
  key_count k (flat_map (fun x => iter_leaves (snd x)) m).
Proof.
  induction m as [|[i c] m IH]; [reflexivity|].
  rewrite leaves_of_map_cons. cbn [flat_map snd].
  rewrite !key_count_app, IH. lia.
Qed.

Lemma In_leaves_of_map (l : leaft) (m : to_mapt) :
  In l (leaves_of_map m) <->
  In l (flat_map (fun x => iter_leaves (snd x)) m).
Proof.
  unfold leaves_of_map. rewrite !in_flat_map. split.
  - intros (x & Hx & Hl). exists x. split; [apply in_rev; exact Hx|exact Hl].
  - intros (x & Hx & Hl). exists x. split; [apply in_rev in Hx; exact Hx|exact Hl].
Qed.

End DeltaNodes.

Section DeltaTheory.
Context {params : sharing_map_params}.
Variables (sm other : sharing_mapt) (only_common : bool).
Hypothesis Hwf2 : wf_map other.

(** *** Contributions compose *)

Lemma contrib_skip (L : list leaft) (budget : nat) :
  (forall l, In l L -> skipped sm other only_common l) ->
  contrib sm other only_common L budget [] [] [].
Proof.
  intros H. split; [constructor|]. split; [apply Nat.le_0_l|].
  split; [intros k; apply Nat.le_0_l|]. split; [apply incl_nil_l|].
  split; [apply incl_nil_l|]. split; [intros l []|]. auto.
Qed.

Lemma contrib_app (L1 L2 : list leaft) (b1 b2 : nat)
  (n1 n2 : list (innert * innert)) (nl1 nl2 : list N) (Ls1 Ls2 : list leaft) :
  contrib sm other only_common L1 b1 n1 nl1 Ls1 ->
  contrib sm other only_common L2 b2 n2 nl2 Ls2 ->
  contrib sm other only_common (L1 ++ L2) (b1 + b2) (n2 ++ n1) (nl2 ++ nl1)
    (Ls1 ++ Ls2).
Proof.
  intros (He1 & Hb1 & Hk1 & Hi1 & Hs1 & Hp1 & Hc1)
    (He2 & Hb2 & Hk2 & Hi2 & Hs2 & Hp2 & Hc2).
  split; [apply Forall2_app; assumption|]. split.
  { rewrite map_app, count_nodes_app. lia. }
  split.
  { intros k. unfold stack_leaves. rewrite flat_map_app, !key_count_app.
    specialize (Hk1 k). specialize (Hk2 k). unfold stack_leaves in Hk1, Hk2.
    lia. }
  split.
  { apply incl_app; [apply incl_appl|apply incl_appr]; assumption. }
  split.
  { unfold stack_leaves. rewrite flat_map_app.
    apply incl_app; [apply incl_appr|apply incl_appl]; assumption. }
  split.
  { intros l Hl. apply in_app_iff in Hl. destruct Hl; auto. }
  intros l Hl. unfold stack_leaves. rewrite flat_map_app, !in_app_iff.
  apply in_app_iff in Hl. destruct Hl as [Hl|Hl].
  - destruct (Hc1 l Hl) as [H|[H|H]]; auto.
  - destruct (Hc2 l Hl) as [H|[H|H]]; auto.
Qed.

Lemma contrib_equiv (L L' : list leaft) (b b' : nat)
  (new : list (innert * innert)) (newl : list N) (Ls : list leaft) :
  (forall l, In l L <-> In l L') ->
  (forall k, key_count k L = key_count k L') -> (b <= b')%nat ->
  contrib sm other only_common L b new newl Ls ->
  contrib sm other only_common L' b' new newl Ls.
Proof.
  intros HL Hk Hb (He & Hbb & Hkk & Hi & Hs & Hp & Hc).
  split; [exact He|]. split; [lia|]. split.
  { intros k. rewrite <- Hk. apply Hkk. }
  split; [intros l Hl; apply HL, Hi, Hl|].
  split; [intros l Hl; apply HL, Hs, Hl|]. split; [exact Hp|].
  intros l Hl. apply Hc, HL, Hl.
Qed.

(** What is pushed is visited later. *)
Lemma contrib_seq (L1 L2 : list leaft) (b : nat)
  (new : list (innert * innert)) (newl : list N) (Ls1 Ls2 : list leaft) :
  contrib sm other only_common L1 b new newl Ls1 ->
  contrib sm other only_common (stack_leaves new ++ L2) 0 [] [] Ls2 ->
  contrib sm other only_common (L1 ++ L2) 0 [] [] (Ls1 ++ Ls2).
Proof.
  intros (He1 & Hb1 & Hk1 & Hi1 & Hs1 & Hp1 & Hc1)
    (_ & _ & Hk2 & Hi2 & _ & Hp2 & Hc2).
  split; [constructor|]. split; [apply Nat.le_0_l|]. split.
  { intros k. specialize (Hk1 k). specialize (Hk2 k).
    rewrite !key_count_app in *. cbn [stack_leaves flat_map] in *.
    unfold key_count at 2 in Hk2. cbn in Hk2. unfold key_count at 3. cbn.
    lia. }
  split.
  { apply incl_app; [apply incl_appl; exact Hi1|].
    intros l Hl. apply Hi2 in Hl. apply in_app_iff in Hl.
    apply in_app_iff. destruct Hl as [Hl|Hl]; [left; auto|right; exact Hl]. }
  split; [apply incl_nil_l|]. split.
  { intros l Hl. apply in_app_iff in Hl. destruct Hl; auto. }
  intros l Hl. rewrite in_app_iff. cbn [stack_leaves flat_map].
  apply in_app_iff in Hl. destruct Hl as [Hl|Hl].
  - destruct (Hc1 l Hl) as [H|[H|H]]; auto.
    destruct (Hc2 l) as [H'|[[]|H']]; auto. apply in_app_iff. auto.
  - destruct (Hc2 l) as [H'|[[]|H']]; auto. apply in_app_iff. auto.
Qed.


Lemma for_each_contrib {X : Type} (leaves_of : X -> list leaft)
  (cost : X -> nat) (body : X -> delta_state -> result delta_state)
  (l : list X) :
  (forall x, In x l ->
     forall st ls dv, exists new newl Ls,
       body x (st, ls, dv) =
       Ok (new ++ st, newl ++ ls, dv ++ List.map (leaf_item other) Ls) /\
       contrib sm other only_common (leaves_of x) (cost x) new newl Ls) ->
  forall st ls dv, exists new newl Ls,
    for_each l body (st, ls, dv) =
    Ok (new ++ st, newl ++ ls, dv ++ List.map (leaf_item other) Ls) /\
    contrib sm other only_common (flat_map leaves_of l)
      (list_sum (List.map cost l)) new newl Ls.
Proof.
  induction l as [|x l IH]; intros Hbody st ls dv.
  - exists [], [], []. cbn [for_each List.map app flat_map list_sum].
    rewrite app_nil_r. split; [reflexivity|].
    apply contrib_skip. intros l0 [].
  - destruct (Hbody x (or_introl eq_refl) st ls dv)
      as (n1 & nl1 & Ls1 & Hx & Hc1).
    destruct (IH (fun y Hy => Hbody y (or_intror Hy)) (n1 ++ st) (nl1 ++ ls)
                (dv ++ List.map (leaf_item other) Ls1))
      as (n2 & nl2 & Ls2 & Hl & Hc2).
    exists (n2 ++ n1), (nl2 ++ nl1), (Ls1 ++ Ls2).
    cbn [for_each]. rewrite Hx. cbn [bind].
    split; [etransitivity; [exact Hl|]|].
    { rewrite map_app, <- !app_assoc. reflexivity. }
    cbn [flat_map List.map list_sum]. apply contrib_app; assumption.
Qed.

Lemma wf_node_nonempty (rem : nat) (d : N) (n : innert) :
  wf_node rem d n -> is_empty n = false.
Proof.
  destruct n; [intros H; destruct (wf_node_empty _ _ H)| |]; reflexivity.
Qed.

Lemma gather_all_node (rem : nat) (d : N) (n : innert) (dv : delta_viewt) :
  wf_node rem d n ->
  gather_all n dv =
  Ok (dv ++
      List.map (fun l => mk_delta_view_item (get_key l) (get_value l) None)
        (iter_leaves n)).
Proof.
  intros Hn. unfold gather_all, iterate.
  rewrite (wf_node_nonempty _ _ _ Hn). cbn [negb].
  rewrite SM_ASSERT_true. cbn [bind]. rewrite iterate_loop_spec.
  - cbn [flat_map]. rewrite app_nil_r. unfold emit.
    rewrite (fold_left_snoc
               (fun l => mk_delta_view_item (get_key l) (get_value l) None)).
    reflexivity.
  - discriminate.
  - constructor; [|constructor]. exists rem, d. exact Hn.
  - unfold count_nodes. simpl. lia.
Qed.

(** *** add_item_if_not_shared *)

Lemma leaf_item_none (l : leaft) :
  find_k (get_key l) (iter_leaves (map other)) = None ->
  leaf_item other l = mk_delta_view_item (get_key l) (get_value l) None.
Proof. intros H. unfold leaf_item. rewrite H. reflexivity. Qed.

Lemma leaf_item_some (l p : leaft) :
  find_k (get_key l) (iter_leaves (map other)) = Some p ->
  leaf_item other l =
  mk_delta_view_item (get_key l) (get_value l) (Some (get_value p)).
Proof. intros H. unfold leaf_item. rewrite H. reflexivity. Qed.

Lemma absent_not_leaf (l : leaft) :
  find_k (get_key l) (iter_leaves (map other)) = None ->
  ~ In l (iter_leaves (map other)).
Proof.
  intros H Hl. rewrite find_k_none in H. apply (H l Hl). reflexivity.
Qed.

Lemma unshared_not_leaf (l p : leaft) :
  find_k (get_key l) (iter_leaves (map other)) = Some p ->
  leaf_shares_with l p = false ->
  ~ In l (iter_leaves (map other)).
Proof.
  intros H Hs Hl.
  rewrite (find_k_of_leaf _ _ (wf_map_NoDup _ Hwf2) Hl) in H.
  injection H as <-. unfold leaf_shares_with in Hs.
  rewrite N.eqb_refl in Hs. discriminate.
Qed.

Lemma add_item_scan_spec (l1 : leaft) :
  forall ll2 dv,
    incl ll2 (iter_leaves (map other)) ->
    find_k (get_key l1) (iter_leaves (map other)) = find_k (get_key l1) ll2 ->
    exists Ls,
      add_item_scan l1 ll2 dv = dv ++ List.map (leaf_item other) Ls /\
      (Ls = [] \/ Ls = [l1]) /\
      (forall l, In l Ls -> ~ In l (iter_leaves (map other))) /\
      (Ls = [] ->
       exists l2, In l2 (iter_leaves (map other)) /\
                  leaf_shares_with l1 l2 = true).
Proof.
  induction ll2 as [|l2 ll2 IH]; intros dv Hincl Hreg; cbn [add_item_scan].
  - exists [l1]. cbn [List.map]. rewrite (leaf_item_none _ Hreg).
    split; [reflexivity|]. split; [auto|]. split; [|discriminate].
    intros l [<-|[]]. apply absent_not_leaf. exact Hreg.
  - destruct (leaf_shares_with l1 l2) eqn:Es.
    + exists []. cbn [List.map]. rewrite app_nil_r.
      split; [reflexivity|]. split; [auto|]. split; [intros l []|].
      intros _. exists l2. split; [apply Hincl; left; reflexivity|exact Es].
    + destruct (equalT (get_key l1) (get_key l2)) eqn:Ek.
      * apply equalT_true in Ek.
        assert (Hp : find_k (get_key l1) (iter_leaves (map other)) = Some l2).
        { rewrite Hreg. unfold find_k. cbn [List.find].
          rewrite <- Ek, equalT_refl. reflexivity. }
        exists [l1]. cbn [List.map]. rewrite (leaf_item_some _ _ Hp).
        split; [reflexivity|]. split; [auto|]. split; [|discriminate].
        intros l [<-|[]]. eapply unshared_not_leaf; eassumption.
      * apply IH.
        -- intros l Hl. apply Hincl. right. exact Hl.
        -- rewrite Hreg. unfold find_k. cbn [List.find].
           apply equalT_false in Ek. apply not_eq_sym in Ek.
           apply equalT_false in Ek. rewrite Ek. reflexivity.
Qed.

Lemma add_item_loop_spec (container : innert) (l1 : leaft) :
  forall fuel rem d p m key dv,
    wf_children (wf_node rem (d + 1)) d m ->
    key = N.shiftr (hash (get_key l1)) (chunk * d) ->
    (height (Internal p m) < fuel)%nat ->
    In (Internal p m) (subnodes (map other)) ->
    find_k (get_key l1) (iter_leaves (map other)) =
    find_k (get_key l1) (leaves_of_map m) ->
    exists Ls,
      add_item_loop fuel container l1 (Internal p m) key dv only_common =
      Ok (dv ++ List.map (leaf_item other) Ls) /\
      (Ls = [] \/ Ls = [l1]) /\
      (forall l, In l Ls -> ~ In l (iter_leaves (map other))) /\
      (Ls = [] ->
       (only_common = true /\
        find_k (get_key l1) (iter_leaves (map other)) = None) \/
       (exists n2, In n2 (subnodes (map other)) /\
                   shares_with container n2 = true) \/
       (exists l2, In l2 (iter_leaves (map other)) /\
                   leaf_shares_with l1 l2 = true)).
Proof.
  induction fuel as [|fuel IH]; intros rem d p m key dv Hwf Hkey Hh Hsub Hreg;
    [lia|].
  cbn [add_item_loop]. subst key. rewrite chunk_of_shift.
  unfold find_child. cbn [get_to_map bind].
  destruct (tm_find (chunk_of d (hash (get_key l1))) m) as [c|] eqn:E;
    cbn [bind].
  - pose proof (tm_find_In _ _ _ E) as Hin.
    pose proof (subnodes_child _ _ _ _ Hsub Hin) as Hsubc. cbn [snd] in Hsubc.
    destruct (tm_find_split _ _ _ E) as (m1 & m2 & -> & _).
    rewrite (find_k_focus _ _ _ _ _ _ _ Hwf eq_refl) in Hreg.
    pose proof (height_focus p (chunk_of d (hash (get_key l1))) m1 m2 c) as Hc.
    apply wf_children_focus in Hwf. destruct Hwf as (_ & _ & _ & Hwc & _).
    rewrite (wf_node_nonempty _ _ _ Hwc). cbn [negb].
    rewrite SM_ASSERT_true. cbn [bind].
    destruct c as [|q m'|q ll].
    + destruct (wf_node_empty _ _ Hwc).
    + apply wf_node_internal in Hwc. destruct Hwc as (rem' & -> & _ & Hwc).
      cbn [is_container]. rewrite iter_leaves_internal in Hreg.
      apply (IH rem' (d + 1) q m'); [exact Hwc|apply shiftr_step|lia| |];
        assumption.
    + cbn [is_container]. destruct (shares_with container (Container q ll))
        eqn:Es.
      * exists []. cbn [List.map]. rewrite app_nil_r.
        split; [reflexivity|]. split; [auto|]. split; [intros l []|].
        intros _. right. left. eauto.
      * cbn [get_container bind].
        destruct (add_item_scan_spec l1 ll dv) as (Ls & -> & H1 & H2 & H3).
        -- apply (subnodes_leaves _ _ Hsubc).
        -- exact Hreg.
        -- exists Ls. split; [reflexivity|]. split; [exact H1|].
           split; [exact H2|]. intros HL. right. right. auto.
  - assert (Hn : find_k (get_key l1) (iter_leaves (map other)) = None).
    { rewrite Hreg. eapply wf_children_chunk; [exact Hwf|].
      apply tm_find_none. exact E. }
    destruct (negb only_common) eqn:Eo.
    + exists [l1]. cbn [List.map]. rewrite (leaf_item_none _ Hn).
      split; [reflexivity|]. split; [auto|]. split; [|discriminate].
      intros l [<-|[]]. apply absent_not_leaf. exact Hn.
    + apply negb_false_iff in Eo.
      exists []. cbn [List.map]. rewrite app_nil_r.
      split; [reflexivity|]. split; [auto|]. split; [intros l []|]. auto.
Qed.

(** *** One step of the traversal *)

Lemma contrib_push (c p : innert) (level : N) :
  delta_entry sm other (c, p) level ->
  contrib sm other only_common (iter_leaves c) (node_count c) [(c, p)] [level]
    [].
Proof.
  intros He. split; [constructor; [exact He|constructor]|].
  split; [unfold count_nodes; simpl; lia|].
  cbn [stack_leaves flat_map fst]. rewrite app_nil_r.
  split; [intros k; unfold key_count at 1; simpl; lia|].
  split; [apply incl_nil_l|]. split; [apply incl_refl|].
  split; [intros l []|]. auto.
Qed.

Lemma contrib_report (L : list leaft) (budget : nat) :
  (forall l, In l L -> ~ In l (iter_leaves (map other))) ->
  contrib sm other only_common L budget [] [] L.
Proof.
  intros H. split; [constructor|]. split; [apply Nat.le_0_l|].
  split; [intros k; unfold key_count at 2; simpl; lia|].
  split; [apply incl_refl|]. split; [apply incl_nil_l|].
  split; [exact H|]. auto.
Qed.

Lemma flat_map_single {X : Type} (l : list X) :
  flat_map (fun x => [x]) l = l.
Proof. induction l as [|x l IH]; simpl; [|rewrite IH]; reflexivity. Qed.

Lemma list_sum_zero {X : Type} (l : list X) :
  list_sum (List.map (fun _ => O) l) = O.
Proof. induction l as [|x l IH]; simpl; auto. Qed.

Lemma singular_length (ll : leaf_listt) :
  length ll = 1%nat -> is_singular ll = true.
Proof. destruct ll as [|a [|b t]]; simpl; intros H; auto; discriminate. Qed.

Lemma delta_step_spec (ip1 ip2 : innert) (level : N)
  (st : list (innert * innert)) (ls : list N) (dv : delta_viewt) :
  delta_entry sm other (ip1, ip2) level ->
  exists new newl Ls,
    delta_step other only_common ip1 ip2 level (st, ls, dv) =
    Ok (new ++ st, newl ++ ls, dv ++ List.map (leaf_item other) Ls) /\
    contrib sm other only_common (iter_leaves ip1) (node_count ip1 - 1)
      new newl Ls.
Proof.
  intros (rem1 & d1 & rem2 & d2 & Hw1 & Hw2 & Hr1 & Hr2 & Hd & Hk & Hs1 & Hs2
          & Hreg).
  cbn [fst snd] in *. unfold delta_step.
  rewrite (wf_node_nonempty _ _ _ Hw1), (wf_node_nonempty _ _ _ Hw2).
  cbn [negb]. rewrite !SM_ASSERT_true. cbn [bind].
  destruct ip1 as [|q1 m1|q1 ll1].
  - destruct (wf_node_empty _ _ Hw1).
  - apply wf_node_internal in Hw1. destruct Hw1 as (r1 & -> & Hne1 & Hc1).
    assert (Hch : forall x, In x m1 ->
                  wf_node r1 (d1 + 1) (snd x) /\
                  leaves_chunk d1 (fst x) (iter_leaves (snd x)) /\
                  In (snd x) (subnodes (map sm)) /\
                  incl (iter_leaves (snd x)) (iter_leaves (Internal q1 m1))).
    { intros x Hx. destruct Hc1 as [_ Hc1]. rewrite Forall_forall in Hc1.
      destruct (Hc1 x Hx) as [Ha Hb]. split; [exact Ha|]. split; [exact Hb|].
      split; [eapply subnodes_child; eassumption|].
      apply child_leaves_incl. exact Hx. }
    assert (Hfin : forall new newl Ls,
               contrib sm other only_common
                 (flat_map (fun x => iter_leaves (snd x)) m1)
                 (list_sum (List.map (fun x => node_count (snd x)) m1))
                 new newl Ls ->
               contrib sm other only_common (iter_leaves (Internal q1 m1))
                 (node_count (Internal q1 m1) - 1) new newl Ls).
    { intros new newl Ls. apply contrib_equiv.
      - intros l. rewrite iter_leaves_internal. symmetry.
        apply In_leaves_of_map.
      - intros k. rewrite iter_leaves_internal. symmetry.
        apply key_count_children.
      - rewrite node_count_internal. unfold count_nodes. rewrite map_map.
        lia. }
    destruct ip2 as [|q2 m2|q2 ll2].
    + destruct (wf_node_empty _ _ Hw2).
    + (* both internal *)
      cbn [is_internal is_container andb]. rewrite SM_ASSERT_true.
      cbn [get_to_map bind].
      destruct (Hk eq_refl) as [<- ->]. clear Hk Hd.
      apply wf_node_internal in Hw2. destruct Hw2 as (r2 & -> & Hne2 & Hc2).
      match goal with
      | |- context [for_each m1 ?body] =>
          destruct (for_each_contrib (fun x => iter_leaves (snd x))
                      (fun x => node_count (snd x)) body m1)
            with (st := st) (ls := ls) (dv := dv)
            as (new & newl & Ls & Hrun & Hc)
      end.
      2:{ exists new, newl, Ls. split; [exact Hrun|]. apply Hfin, Hc. }
      intros [i c] Hx st0 ls0 dv0. cbv beta iota. cbn [fst snd].
      destruct (Hch _ Hx) as (Hwc & Hcc & Hsc & Hic). cbn [fst snd] in *.
      unfold find_child. cbn [get_to_map bind].
      destruct (tm_find i m2) as [p|] eqn:E.
      * pose proof (subnodes_child _ _ _ _ Hs2 (tm_find_In _ _ _ E)) as Hsp.
        cbn [snd] in Hsp.
        destruct (shares_with c p) eqn:Es; cbn [negb].
        -- exists [], [], []. cbn [app List.map]. rewrite app_nil_r.
           split; [reflexivity|]. apply contrib_skip. intros l Hl.
           right. left. exists c, p. auto.
        -- exists [(c, p)], [d1 + 1], []. cbn [app List.map].
           rewrite app_nil_r. split; [reflexivity|]. apply contrib_push.
           destruct (tm_find_split _ _ _ E) as (m21 & m22 & -> & _).
           pose proof Hc2 as Hc2'. apply wf_children_focus in Hc2'.
           destruct Hc2' as (_ & _ & _ & Hwp & _).
           exists r1, (d1 + 1), r2, (d1 + 1). cbn [fst snd].
           split; [exact Hwc|]. split; [exact Hwp|].
           split; [lia|]. split; [lia|]. split; [lia|].
           split; [auto|]. split; [exact Hsc|]. split; [exact Hsp|].
           intros l Hl. rewrite (Hreg l (Hic l Hl)), iter_leaves_internal.
           eapply find_k_focus; [exact Hc2|].
           unfold leaves_chunk in Hcc. rewrite Forall_forall in Hcc.
           symmetry. apply Hcc, Hl.
      * assert (Hn : forall l, In l (iter_leaves c) ->
                     find_k (get_key l) (iter_leaves (map other)) = None).
        { intros l Hl. rewrite (Hreg l (Hic l Hl)), iter_leaves_internal.
          eapply wf_children_chunk; [exact Hc2|].
          unfold leaves_chunk in Hcc. rewrite Forall_forall in Hcc.
          rewrite (Hcc l Hl). apply tm_find_none. exact E. }
        destruct (negb only_common) eqn:Eo.
        -- rewrite (gather_all_node _ _ _ _ Hwc). cbn [bind].
           exists [], [], (iter_leaves c). cbn [app]. split.
           ++ do 3 f_equal. apply map_ext_in. intros l Hl. symmetry.
              apply leaf_item_none, Hn, Hl.
           ++ apply contrib_report. intros l Hl.
              apply absent_not_leaf, Hn, Hl.
        -- apply negb_false_iff in Eo.
           exists [], [], []. cbn [app List.map]. rewrite app_nil_r.
           split; [reflexivity|]. apply contrib_skip. intros l Hl.
           left. auto.
    + (* internal node against a container *)
      cbn [is_internal is_container andb].
      apply wf_node_container in Hw2. destruct Hw2 as (Hne2 & Hnd2 & Hsg2).
      rewrite SM_ASSERT_call_true.
      2:{ cbn [get_container bind]. rewrite singular_length; [reflexivity|].
          apply Hsg2. lia. }
      cbn [get_to_map bind].
      match goal with
      | |- context [for_each m1 ?body] =>
          destruct (for_each_contrib (fun x => iter_leaves (snd x))
                      (fun x => node_count (snd x)) body m1)
            with (st := st) (ls := ls) (dv := dv)
            as (new & newl & Ls & Hrun & Hc)
      end.
      2:{ exists new, newl, Ls. split; [exact Hrun|]. apply Hfin, Hc. }
      intros [i c] Hx st0 ls0 dv0. cbv beta iota. cbn [fst snd].
      destruct (Hch _ Hx) as (Hwc & Hcc & Hsc & Hic). cbn [fst snd] in *.
      destruct (shares_with c (Container q2 ll2)) eqn:Es; cbn [negb].
      * exists [], [], []. cbn [app List.map]. rewrite app_nil_r.
        split; [reflexivity|]. apply contrib_skip. intros l Hl.
        right. left. exists c, (Container q2 ll2). auto.
      * exists [(c, Container q2 ll2)], [dummy_level], [].
        cbn [app List.map]. rewrite app_nil_r. split; [reflexivity|].
        apply contrib_push.
        exists r1, (d1 + 1), rem2, d2. cbn [fst snd].
        split; [exact Hwc|].
        split; [apply wf_node_container; auto|].
        split; [lia|]. split; [lia|]. split; [lia|].
        split; [discriminate|]. split; [exact Hsc|]. split; [exact Hs2|].
        intros l Hl. apply Hreg, Hic, Hl.
  - apply wf_node_container in Hw1. destruct Hw1 as (Hne1 & Hnd1 & Hsg1).
    cbn [iter_leaves] in *.
    destruct ip2 as [|q2 m2|q2 ll2].
    + destruct (wf_node_empty _ _ Hw2).
    + (* container against an internal node *)
      cbn [is_internal is_container andb]. rewrite SM_ASSERT_true.
      cbn [bind].
      destruct (Hk eq_refl) as [<- ->]. clear Hk Hd.
      apply wf_node_internal in Hw2. destruct Hw2 as (r2 & -> & Hne2 & Hc2).
      assert (Hlen : length ll1 = 1%nat) by (apply Hsg1; lia).
      rewrite SM_ASSERT_call_true.
      2:{ cbn [get_container bind]. rewrite singular_length; auto. }
      assert (Hlev : (d1 =? dummy_level) = false).
      { apply N.eqb_neq. pose proof levels_eq. unfold dummy_level. lia. }
      rewrite Hlev. cbn [negb]. rewrite SM_ASSERT_true. cbn [bind].
      destruct ll1 as [|l1 [|b t]]; try discriminate Hlen.
      unfold add_item_if_not_shared. cbn [get_container front bind].
      cbn [is_defined_internal is_empty is_internal negb andb].
      rewrite SM_ASSERT_true. cbn [bind].
      destruct (add_item_loop_spec (Container q1 [l1]) l1
                  (S (height (Internal q2 m2))) r2 d1 q2 m2
                  (N.shiftr (hash (get_key l1)) (d1 * chunk)) dv)
        as (Ls & Hrun & HLs & Hp & Hskip).
      * exact Hc2.
      * rewrite N.mul_comm. reflexivity.
      * apply Nat.lt_succ_diag_r.
      * exact Hs2.
      * rewrite (Hreg l1 (or_introl eq_refl)), iter_leaves_internal.
        reflexivity.
      * rewrite Hrun. cbn [bind]. exists [], [], Ls. cbn [app].
        split; [reflexivity|]. split; [constructor|].
        split; [apply Nat.le_0_l|]. cbn [stack_leaves flat_map].
        split.
        { intros k. destruct HLs as [-> | ->]; unfold key_count; simpl; lia. }
        split.
        { destruct HLs as [-> | ->]; [apply incl_nil_l|apply incl_refl]. }
        split; [apply incl_nil_l|]. split; [exact Hp|].
        intros l [<-|[]]. destruct HLs as [-> | ->]; [|left; left; reflexivity].
        right. right. destruct (Hskip eq_refl) as [H|[(n2 & Hn2 & Hsh)|H]].
        -- left. exact H.
        -- right. left. exists (Container q1 [l1]), n2.
           split; [exact Hs1|]. split; [exact Hn2|]. split; [exact Hsh|].
           left. reflexivity.
        -- right. right. exact H.
    + (* two containers *)
      cbn [is_internal is_container andb]. rewrite !SM_ASSERT_true.
      cbn [get_container bind].
      match goal with
      | |- context [for_each ll1 ?body] =>
          destruct (for_each_contrib (fun x : leaft => [x]) (fun _ => O)
                      body ll1)
            with (st := st) (ls := ls) (dv := dv)
            as (new & newl & Ls & Hrun & Hc)
      end.
      2:{ exists new, newl, Ls. split; [exact Hrun|].
          rewrite flat_map_single, list_sum_zero in Hc. exact Hc. }
      intros x Hx st0 ls0 dv0. cbv beta iota.
      unfold find_leaf. cbn [get_container bind]. fold (find_k (get_key x) ll2).
      pose proof (Hreg x Hx) as Hx2. cbn [iter_leaves] in Hx2.
      destruct (find_k (get_key x) ll2) as [p|] eqn:Ep.
      * destruct (leaf_shares_with x p) eqn:Es; cbn [negb].
        -- exists [], [], []. cbn [app List.map]. rewrite app_nil_r.
           split; [reflexivity|]. apply contrib_skip. intros l [<-|[]].
           right. right. exists p. split; [|exact Es].
           apply (find_k_key _ _ _ Hx2).
        -- rewrite SM_ASSERT_call_true
             by (rewrite (has_key_spec _ _ Hwf2), Hx2; reflexivity).
           cbn [bind]. exists [], [], [x]. cbn [app List.map].
           rewrite (leaf_item_some _ _ Hx2). split; [reflexivity|].
           apply contrib_report. intros l [<-|[]].
           eapply unshared_not_leaf; eassumption.
      * destruct (negb only_common) eqn:Eo.
        -- rewrite SM_ASSERT_call_true
             by (rewrite (has_key_spec _ _ Hwf2), Hx2; reflexivity).
           cbn [bind]. exists [], [], [x]. cbn [app List.map].
           rewrite (leaf_item_none _ Hx2). split; [reflexivity|].
           apply contrib_report. intros l [<-|[]].
           apply absent_not_leaf. exact Hx2.
        -- apply negb_false_iff in Eo.
           exists [], [], []. cbn [app List.map]. rewrite app_nil_r.
           split; [reflexivity|]. apply contrib_skip. intros l [<-|[]].
           left. auto.
Qed.

(** *** The loop and the whole traversal *)

Lemma get_delta_view_loop_spec :
  forall fuel st ls dv,
    st <> [] -> Forall2 (delta_entry sm other) st ls ->
    (count_nodes (List.map fst st) <= fuel)%nat ->
    exists Ls,
      get_delta_view_loop fuel other only_common (st, ls, dv) =
      Ok (dv ++ List.map (leaf_item other) Ls) /\
      contrib sm other only_common (stack_leaves st) 0 [] [] Ls.
Proof.
  induction fuel as [|fuel IH]; intros st ls dv Hne Hst Hfuel.
  - destruct st as [|[ip1 ip2] st]; [congruence|].
    unfold count_nodes in Hfuel. simpl in Hfuel.
    pose proof (node_count_pos ip1). lia.
  - destruct st as [|[ip1 ip2] st]; [congruence|].
    inversion Hst as [|e level st0 ls0 He Hrest]; subst.
    cbn [get_delta_view_loop].
    destruct (delta_step_spec ip1 ip2 level st ls0 dv He)
      as (new & newl & Ls1 & Hrun & Hc).
    rewrite Hrun. cbn [bind].
    change (count_nodes (List.map fst ((ip1, ip2) :: st))) with
      (node_count ip1 + count_nodes (List.map fst st))%nat in Hfuel.
    pose proof (node_count_pos ip1) as Hpos.
    cbn [stack_leaves flat_map fst]. fold (stack_leaves st).
    destruct (new ++ st) as [|x st'] eqn:Est.
    + apply app_eq_nil in Est. destruct Est as [-> ->].
      exists Ls1. split; [reflexivity|].
      rewrite <- (app_nil_r Ls1).
      eapply contrib_seq; [exact Hc|]. apply contrib_skip. intros l [].
    + rewrite <- Est.
      destruct (IH (new ++ st) (newl ++ ls0)
                  (dv ++ List.map (leaf_item other) Ls1))
        as (Ls2 & Hloop & Hc2).
      * rewrite Est. discriminate.
      * apply Forall2_app; [apply Hc|exact Hrest].
      * destruct Hc as (_ & Hb & _). rewrite map_app, count_nodes_app. lia.
      * exists (Ls1 ++ Ls2). rewrite Hloop, map_app, app_assoc.
        split; [reflexivity|].
        eapply contrib_seq; [exact Hc|].
        unfold stack_leaves in *. rewrite flat_map_app in Hc2. exact Hc2.
Qed.

Lemma wf_map_root_node (m : sharing_mapt) :
  wf_map m -> empty m = false ->
  exists p c, map m = Internal p c /\ wf_node (N.to_nat levels) 0 (Internal p c).
Proof.
  intros Hwf He. destruct (wf_map_root _ Hwf He) as (p & c & Hm & Hc).
  exists p, c. split; [exact Hm|].
  apply wf_node_internal. exists (N.to_nat levels - 1)%nat.
  split; [reflexivity|]. split; [|exact Hc].
  intros ->. destruct Hwf as (_ & Hnum & _). rewrite Hm in Hnum.
  simpl in Hnum. unfold empty in He. apply N.eqb_neq in He. lia.
Qed.

Lemma get_delta_view_spec :
  wf_map sm ->
  exists Ls,
    get_delta_view sm other [] only_common =
    Ok (List.map (leaf_item other) Ls) /\
    contrib sm other only_common (iter_leaves (map sm)) 0 [] [] Ls.
Proof.
  intros Hwf1. unfold get_delta_view. cbn [length Nat.eqb].
  rewrite SM_ASSERT_true. cbn [bind].
  destruct (empty sm) eqn:He1.
  { exists []. split; [reflexivity|]. rewrite (wf_map_empty _ Hwf1 He1).
    apply contrib_skip. intros l []. }
  destruct (wf_map_root_node _ Hwf1 He1) as (p1 & m1 & Hm1 & Hn1).
  destruct (empty other) eqn:He2.
  { pose proof (wf_map_empty _ Hwf2 He2) as HLB.
    destruct (negb only_common) eqn:Eo.
    - rewrite Hm1. rewrite (gather_all_node _ _ _ _ Hn1). cbn [app].
      exists (iter_leaves (Internal p1 m1)). split.
      + f_equal. apply map_ext_in. intros l Hl. symmetry.
        apply leaf_item_none. rewrite HLB. reflexivity.
      + apply contrib_report. intros l _. rewrite HLB. intros [].
    - apply negb_false_iff in Eo. exists []. split; [reflexivity|].
      apply contrib_skip. intros l _. left. rewrite HLB. auto. }
  destruct (wf_map_root_node _ Hwf2 He2) as (p2 & m2 & Hm2 & Hn2).
  destruct (shares_with (map sm) (map other)) eqn:Es.
  { exists []. split; [reflexivity|]. apply contrib_skip. intros l Hl.
    right. left. exists (map sm), (map other).
    split; [apply subnodes_self|]. split; [apply subnodes_self|]. auto. }
  destruct (get_delta_view_loop_spec (node_count (map sm))
              [(map sm, map other)] [0] []) as (Ls & Hrun & Hc).
  - discriminate.
  - constructor; [|constructor].
    exists (N.to_nat levels), 0, (N.to_nat levels), 0. cbn [fst snd].
    rewrite Hm1, Hm2. split; [exact Hn1|]. split; [exact Hn2|].
    split; [reflexivity|]. split; [reflexivity|]. split; [lia|].
    split; [auto|]. rewrite <- Hm1, <- Hm2.
    split; [apply subnodes_self|]. split; [apply subnodes_self|]. auto.
  - unfold count_nodes. simpl. lia.
  - exists Ls. split; [exact Hrun|].
    cbn [stack_leaves flat_map fst] in Hc. rewrite app_nil_r in Hc. exact Hc.
Qed.

End DeltaTheory.

(** ** Delta views of well formed maps *)

Section DeltaProperties.
Context {params : sharing_map_params}.

Lemma coherent_skipped (sm other : sharing_mapt) (only_common : bool)
  (l : leaft) :
  coherent sm other -> In l (iter_leaves (map sm)) ->
  skipped sm other only_common l ->
  (only_common = true /\
   find_k (get_key l) (iter_leaves (map other)) = None) \/
  In l (iter_leaves (map other)).
Proof.
  intros [Hn Hl] Hin [H|[(n1 & n2 & H1 & H2 & Hs & Hl1)|(l2 & H2 & Hs)]].
  - left. exact H.
  - right. rewrite (Hn n1 n2 H1 H2 Hs) in Hl1.
    apply (subnodes_leaves _ _ H2). exact Hl1.
  - right. rewrite (Hl l l2 Hin H2 Hs). exact H2.
Qed.

Lemma coherent_sym (sm other : sharing_mapt) :
  coherent sm other -> coherent other sm.
Proof.
  intros [Hn Hl]. split.
  - intros n1 n2 H1 H2 Hs. symmetry. apply Hn; [assumption|assumption|].
    unfold shares_with in *. destruct (data_of n1), (data_of n2); auto.
    rewrite N.eqb_sym. exact Hs.
  - intros l1 l2 H1 H2 Hs. symmetry. apply Hl; [assumption|assumption|].
    unfold leaf_shares_with in *. rewrite N.eqb_sym. exact Hs.
Qed.

(** The delta view is empty if every leaf of the first map is a leaf of
    the other. *)
Lemma delta_view_none (sm other : sharing_mapt) (only_common : bool) :
  wf_map sm -> wf_map other ->
  incl (iter_leaves (map sm)) (iter_leaves (map other)) ->
  get_delta_view sm other [] only_common = Ok [].
Proof.
  intros Hwf1 Hwf2 Hincl.
  destruct (get_delta_view_spec sm other only_common Hwf2 Hwf1)
    as (Ls & Hrun & _ & _ & _ & Hi & _ & Hp & _).
  rewrite Hrun. destruct Ls as [|l Ls]; [reflexivity|].
  exfalso. apply (Hp l (or_introl eq_refl)), Hincl, Hi. left. reflexivity.
Qed.

(** The delta view of coherent maps is one item if all leaves of the first
    map but one are leaves of the other. *)
Lemma delta_view_single (sm other : sharing_mapt) (only_common : bool)
  (l : leaft) :
  wf_map sm -> wf_map other -> coherent sm other ->
  In l (iter_leaves (map sm)) -> ~ In l (iter_leaves (map other)) ->
  (forall x, In x (iter_leaves (map sm)) ->
             x = l \/ In x (iter_leaves (map other))) ->
  (only_common = true ->
   find_k (get_key l) (iter_leaves (map other)) <> None) ->
  get_delta_view sm other [] only_common = Ok [leaf_item other l].
Proof.
  intros Hwf1 Hwf2 Hco Hl Hnl Hrest Hoc.
  destruct (get_delta_view_spec sm other only_common Hwf2 Hwf1)
    as (Ls & Hrun & _ & _ & Hk & Hi & _ & Hp & Hc).
  rewrite Hrun. do 2 f_equal.
  assert (Hall : forall x, In x Ls -> x = l).
  { intros x Hx. destruct (Hrest x (Hi x Hx)) as [H|H]; [exact H|].
    destruct (Hp x Hx H). }
  assert (Hin : In l Ls).
  { destruct (Hc l Hl) as [H|[[]|H]]; [exact H|].
    destruct (coherent_skipped _ _ _ _ Hco Hl H) as [[Ho Hn]|H'].
    - destruct (Hoc Ho Hn).
    - destruct (Hnl H'). }
  assert (Hnd : NoDup (List.map get_key Ls)).
  { apply key_count_NoDup. intros k. specialize (Hk k).
    pose proof (proj1 (key_count_NoDup _) (wf_map_NoDup _ Hwf1) k). lia. }
  destruct Ls as [|x [|y Ls]]; [destruct Hin| |].
  - rewrite (Hall x (or_introl eq_refl)). reflexivity.
  - exfalso. rewrite (Hall x), (Hall y) in Hnd by (simpl; auto).
    inversion Hnd as [|? ? Hn _]. apply Hn. left. reflexivity.
Qed.

(** X12.  [get_delta_view] on well formed maps returns, and none of its
    internal checks fires. The items have distinct keys; each carries a key of
    the first map with its value there, and the value the other map holds for
    the key, or none if the other map does not hold the key. *)
Theorem delta_view_sound (sm other : sharing_mapt) (only_common : bool) :
  wf_map sm -> wf_map other ->
  exists dv,
    get_delta_view sm other [] only_common = Ok dv /\
    NoDup (List.map item_k dv) /\
    forall it, In it dv ->
               find sm (item_k it) = Ok (Some (item_m it)) /\
               find other (item_k it) = Ok (other_m it).
Proof.
  intros Hwf1 Hwf2.
  destruct (get_delta_view_spec sm other only_common Hwf2 Hwf1)
    as (Ls & Hrun & _ & _ & Hk & Hi & _ & _ & _).
  exists (List.map (leaf_item other) Ls). split; [exact Hrun|]. split.
  - rewrite map_map. cbn [leaf_item item_k]. apply key_count_NoDup.
    intros k. specialize (Hk k).
    pose proof (proj1 (key_count_NoDup _) (wf_map_NoDup _ Hwf1) k). lia.
  - intros it Hit. apply in_map_iff in Hit. destruct Hit as (l & <- & Hl).
    cbn [leaf_item item_k item_m other_m].
    rewrite (find_spec _ _ Hwf1), (find_spec _ _ Hwf2).
    rewrite (find_k_of_leaf _ _ (wf_map_NoDup _ Hwf1) (Hi l Hl)).
    split; reflexivity.
Qed.

(** X13.  If the two maps are coherent, the delta view misses nothing: a key
    of the first map whose value in the other map is different has an item
    with both values, and with [only_common = false] a key that the other map
    does not hold has an item without a second value. *)
Theorem delta_view_complete (sm other : sharing_mapt) (only_common : bool)
  (dv : delta_viewt) :
  wf_map sm -> wf_map other -> coherent sm other ->
  get_delta_view sm other [] only_common = Ok dv ->
  forall k v,
    find sm k = Ok (Some v) ->
    (forall v', find other k = Ok (Some v') -> v' <> v ->
                In (mk_delta_view_item k v (Some v')) dv) /\
    (find other k = Ok None -> only_common = false ->
     In (mk_delta_view_item k v None) dv).
Proof.
  intros Hwf1 Hwf2 Hco Hdv k v Hfind.
  destruct (get_delta_view_spec sm other only_common Hwf2 Hwf1)
    as (Ls & Hrun & _ & _ & _ & _ & _ & _ & Hc).
  rewrite Hrun in Hdv. injection Hdv as <-.
  destruct (find_some_leaf _ _ _ Hwf1 Hfind) as (l & Hl & <-).
  destruct (find_k_key _ _ _ Hl) as [<- Hin].
  assert (Hshared : In l (iter_leaves (map other)) ->
                    find other (get_key l) = Ok (Some (get_value l))).
  { intros H. rewrite (find_spec _ _ Hwf2).
    rewrite (find_k_of_leaf _ _ (wf_map_NoDup _ Hwf2) H). reflexivity. }
  assert (Hitem : In l Ls ->
                  forall o, find other (get_key l) = Ok o ->
                            In (mk_delta_view_item (get_key l) (get_value l) o)
                              (List.map (leaf_item other) Ls)).
  { intros H o Ho. apply in_map_iff. exists l. split; [|exact H].
    unfold leaf_item. rewrite (find_spec _ _ Hwf2) in Ho.
    injection Ho as <-. reflexivity. }
  destruct (Hc l Hin) as [H|[[]|H]].
  - split; intros; apply Hitem; auto.
  - split.
    + intros v' Hv' Hne. exfalso.
      destruct H as [[_ H]|H].
      * rewrite (find_spec _ _ Hwf2), H in Hv'. discriminate.
      * assert (Hs : skipped sm other false l) by (right; exact H).
        destruct (coherent_skipped _ _ _ _ Hco Hin Hs) as [[Ho _]|Hs'];
          [discriminate|].
        apply Hshared in Hs'. congruence.
    + intros Hn Ho. exfalso. subst only_common.
      destruct (coherent_skipped _ _ _ _ Hco Hin H) as [[Ho _]|Hs'];
        [discriminate|].
      apply Hshared in Hs'. congruence.
Qed.

(** X14.  The delta view of a well formed map against an empty map: nothing
    with [only_common], otherwise every item of [get_view], without a value of
    the other map. *)
Theorem delta_view_against_empty (sm other : sharing_mapt)
  (only_common : bool) :
  wf_map sm ->
  empty other = true ->
  exists view,
    get_view sm [] = Ok view /\
    get_delta_view sm other [] only_common =
    Ok (if only_common then []
        else List.map (fun kv => mk_delta_view_item (fst kv) (snd kv) None)
               view).
Proof.
  intros Hwf Ho. exists (List.map view_item (iter_leaves (map sm))).
  split; [apply get_view_spec; exact Hwf|].
  unfold get_delta_view. cbn [length Nat.eqb]. rewrite SM_ASSERT_true.
  cbn [bind]. rewrite Ho. destruct (empty sm) eqn:He.
  - rewrite (wf_map_empty _ Hwf He). destruct only_common; reflexivity.
  - destruct only_common; cbn [negb]; [reflexivity|].
    destruct (wf_map_root_node _ Hwf He) as (p & m & Hm & Hn).
    rewrite Hm, (gather_all_node _ _ _ _ Hn), map_map. reflexivity.
Qed.

End DeltaProperties.

(** ** Copy-on-write: what a write leaves shared *)

(** Step over a bind in a hypothesis that says a computation returned. *)
Tactic Notation "bind_hyp" hyp(H) "as" simple_intropattern(x) ident(E) :=
  match type of H with
  | bind ?c _ = Ok _ =>
      destruct c as [x|?] eqn:E; cbn [bind] in H; [|discriminate H]
  end.

Tactic Notation "bind_hyp" hyp(H) :=
  match type of H with
  | bind ?c _ = Ok _ =>
      destruct c as [?|?]; cbn [bind] in H; [|discriminate H]
  end.

Section Written.
Context {params : sharing_map_params}.
Variables (nx : ptr) (old : innert).

Lemma written_internal (a : ptr) (m : to_mapt) :
  written nx old (Internal a m) <->
  In (Internal a m) (subnodes old) \/
  (nx <= a /\ Forall (fun x => written nx old (snd x)) m).
Proof.
  cbn [written].
  assert (H : (fix go (m : to_mapt) : Prop :=
                 match m with
                 | [] => True
                 | (_, c) :: m' => written nx old c /\ go m'
                 end) m <-> Forall (fun x => written nx old (snd x)) m).
  { induction m as [|[i c] m IH]; [split; auto|].
    rewrite Forall_cons_iff, IH. reflexivity. }
  rewrite H. reflexivity.
Qed.

Lemma written_new_internal (a : ptr) (m : to_mapt) :
  nx <= a -> Forall (fun x => written nx old (snd x)) m ->
  written nx old (Internal a m).
Proof. intros. apply written_internal. auto. Qed.

Lemma written_old (n : innert) : In n (subnodes old) -> written nx old n.
Proof. intros H. destruct n; left; exact H. Qed.

Lemma written_empty : written nx old Empty.
Proof. right. exact I. Qed.

Lemma written_children (a : ptr) (m : to_mapt) :
  written nx old (Internal a m) ->
  Forall (fun x => written nx old (snd x)) m.
Proof.
  intros H. apply written_internal in H. destruct H as [H|[_ H]]; [|exact H].
  apply Forall_forall. intros x Hx. apply written_old.
  eapply subnodes_child; eassumption.
Qed.

Lemma written_leaves (a : ptr) (ll : leaf_listt) :
  written nx old (Container a ll) -> Forall (leaf_written nx old) ll.
Proof.
  intros [H|[_ H]]; [|exact H]. apply Forall_forall. intros l Hl. left.
  apply (subnodes_leaves _ _ H). exact Hl.
Qed.

(** The nodes and leaves of a written tree are those of the old tree or
    have new addresses. *)
Lemma written_footprint (n : innert) :
  written nx old n ->
  (forall x, In x (subnodes n) ->
             In x (subnodes old) \/
             forall a, data_of x = Some a -> nx <= a) /\
  (forall l, In l (iter_leaves n) -> leaf_written nx old l).
Proof.
  induction n as [|q ll|q m IH] using innert_induction; intros H.
  - split; [|intros l []]. intros x [<-|[]]. right. discriminate.
  - split.
    + intros x [<-|[]]. destruct H as [H|[H _]]; [left; exact H|].
      right. intros a [= <-]. exact H.
    + intros l Hl. pose proof (written_leaves _ _ H) as Hll.
      rewrite Forall_forall in Hll. apply Hll, Hl.
  - pose proof (written_children _ _ H) as Hch.
    rewrite Forall_forall in IH, Hch. split.
    + rewrite subnodes_internal. intros x [<-|Hx].
      * apply written_internal in H. destruct H as [H|[H _]]; [left; exact H|].
        right. intros a [= <-]. exact H.
      * apply in_flat_map in Hx. destruct Hx as (y & Hy & Hx).
        apply (IH y Hy (Hch y Hy)). exact Hx.
    + intros l Hl. rewrite iter_leaves_internal in Hl.
      apply (proj1 (In_leaves_of_map _ _)) in Hl. apply in_flat_map in Hl.
      destruct Hl as (y & Hy & Hl). apply (IH y Hy (Hch y Hy)). exact Hl.
Qed.

(** *** The writes to a node *)

Lemma tm_find_written (i : N) (m : to_mapt) (c : innert) :
  Forall (fun x => written nx old (snd x)) m -> tm_find i m = Some c ->
  written nx old c.
Proof.
  intros H E. rewrite Forall_forall in H.
  apply (H (i, c)), tm_find_In, E.
Qed.

Lemma child_of_written (a : ptr) (i : N) (m : to_mapt) :
  Forall (fun x => written nx old (snd x)) m ->
  written nx old (child_of i (Internal a m)).
Proof.
  intros H. cbn [child_of]. destruct (tm_find i m) as [c|] eqn:E.
  - eapply tm_find_written; eassumption.
  - apply written_empty.
Qed.

Lemma tm_place_written (i : N) (c : innert) (m : to_mapt) :
  written nx old c -> Forall (fun x => written nx old (snd x)) m ->
  Forall (fun x => written nx old (snd x)) (tm_place i c m).
Proof.
  intros Hc. induction m as [|[j c'] m IH]; intros H; cbn [tm_place].
  - constructor; [exact Hc|constructor].
  - destruct (i <? j); [constructor; assumption|].
    inversion H; subst. constructor; auto.
Qed.

Lemma tm_replace_written (i : N) (c : innert) (m : to_mapt) :
  written nx old c -> Forall (fun x => written nx old (snd x)) m ->
  Forall (fun x => written nx old (snd x)) (tm_replace i c m).
Proof.
  intros Hc. induction m as [|[j c'] m IH]; intros H; cbn [tm_replace].
  - constructor.
  - inversion H; subst. destruct (j =? i); constructor; auto.
Qed.

Lemma tm_remove_written (i : N) (m : to_mapt) :
  Forall (fun x => written nx old (snd x)) m ->
  Forall (fun x => written nx old (snd x)) (tm_remove i m).
Proof.
  intros H. unfold tm_remove. apply Forall_forall. intros x Hx.
  apply filter_In in Hx. rewrite Forall_forall in H. apply H, Hx.
Qed.

Lemma tm_find_place (i : N) (c : innert) (m : to_mapt) :
  tm_find i (tm_place i c m) <> None.
Proof.
  induction m as [|[j c'] m IH]; cbn [tm_place tm_find].
  - rewrite N.eqb_refl. discriminate.
  - destruct (N.ltb_spec i j); cbn [tm_find].
    + rewrite N.eqb_refl. discriminate.
    + destruct (j =? i); [discriminate|exact IH].
Qed.

Lemma tm_find_replace (i j : N) (c : innert) (m : to_mapt) :
  tm_find i m <> None -> tm_find i (tm_replace j c m) <> None.
Proof.
  induction m as [|[j' c'] m IH]; cbn [tm_replace tm_find]; [auto|].
  destruct (N.eqb_spec j' j); cbn [tm_find].
  - subst j'. destruct (j =? i); [discriminate|auto].
  - destruct (j' =? i); [discriminate|exact IH].
Qed.

Lemma tm_find_replace_same (i : N) (c : innert) (m : to_mapt) :
  tm_find i m <> None -> tm_find i (tm_replace i c m) = Some c.
Proof.
  induction m as [|[j c'] m IH]; cbn [tm_replace tm_find]; [congruence|].
  destruct (N.eqb_spec j i); cbn [tm_find].
  - subst j. rewrite N.eqb_refl. reflexivity.
  - destruct (N.eqb_spec j i); [contradiction|exact IH].
Qed.

Lemma add_child_written (a i : N) (n n' : innert) :
  nx <= a -> written nx old n -> add_child a i n = Ok n' ->
  exists m, n' = Internal a m /\
            Forall (fun x => written nx old (snd x)) m /\
            tm_find i m <> None.
Proof.
  intros Ha Hn H. destruct n as [|q m|q ll]; cbn [add_child] in H;
    [| |discriminate]; injection H as <-.
  - exists [(i, Empty)]. split; [reflexivity|]. split.
    + constructor; [apply written_empty|constructor].
    + cbn [tm_find]. rewrite N.eqb_refl. discriminate.
  - pose proof (written_children _ _ Hn) as Hm.
    destruct (tm_find i m) as [c|] eqn:E.
    + exists m. split; [reflexivity|]. split; [exact Hm|]. congruence.
    + exists (tm_place i Empty m). split; [reflexivity|]. split.
      * apply tm_place_written; [apply written_empty|exact Hm].
      * apply tm_find_place.
Qed.

Lemma set_child_written (a i : N) (m : to_mapt) (c : innert) :
  nx <= a -> Forall (fun x => written nx old (snd x)) m ->
  written nx old c ->
  written nx old (set_child i c (Internal a m)).
Proof.
  intros Ha Hm Hc. cbn [set_child]. apply written_new_internal; [exact Ha|].
  apply tm_replace_written; assumption.
Qed.

Lemma remove_child_written (a i : N) (n n' : innert) :
  nx <= a -> written nx old n -> remove_child a i n = Ok n' ->
  exists m, n' = Internal a m /\ Forall (fun x => written nx old (snd x)) m.
Proof.
  intros Ha Hn H. destruct n as [|q m|q ll]; cbn [remove_child] in H;
    [| |discriminate]; injection H as <-.
  - exists []. split; [reflexivity|constructor].
  - exists (tm_remove i m). split; [reflexivity|].
    apply tm_remove_written, (written_children _ _ Hn).
Qed.

Lemma push_front_leaf_written (a : ptr) (l : leaft) (n n' : innert) :
  nx <= a -> leaf_written nx old l -> written nx old n ->
  push_front_leaf a l n = Ok n' -> written nx old n'.
Proof.
  intros Ha Hl Hn H. destruct n as [|q m|q ll]; cbn [push_front_leaf] in H;
    [|discriminate|]; injection H as <-; right; split; try exact Ha.
  - constructor; [exact Hl|constructor].
  - constructor; [exact Hl|apply (written_leaves _ _ Hn)].
Qed.

Lemma ll_remove_written (k : keyT) (ll ll' : leaf_listt) :
  Forall (leaf_written nx old) ll -> ll_remove k ll = Some ll' ->
  Forall (leaf_written nx old) ll'.
Proof.
  revert ll'. induction ll as [|l ll IH]; intros ll' H E; cbn [ll_remove] in E;
    [discriminate|].
  inversion H; subst. destruct (equalT (get_key l) k).
  - injection E as <-. assumption.
  - destruct (ll_remove k ll) as [r|]; [|discriminate].
    injection E as <-. constructor; auto.
Qed.

Lemma remove_leaf_written (a : ptr) (k : keyT) (n n' : innert) :
  nx <= a -> written nx old n -> remove_leaf a k n = Ok n' ->
  written nx old n'.
Proof.
  intros Ha Hn H. destruct n as [|q m|q ll]; cbn [remove_leaf] in H;
    try discriminate.
  destruct (ll_remove k ll) as [ll'|] eqn:E; [|discriminate].
  injection H as <-. right. split; [exact Ha|].
  eapply ll_remove_written; [apply (written_leaves _ _ Hn)|exact E].
Qed.

Lemma set_leaf_value_written (a la : ptr) (k : keyT) (v : valueT)
  (n n' : innert) :
  nx <= a -> nx <= la -> written nx old n ->
  set_leaf_value a la k v n = Ok n' -> written nx old n'.
Proof.
  intros Ha Hla Hn H. destruct n as [|q m|q ll]; cbn [set_leaf_value] in H;
    try discriminate.
  injection H as <-. right. split; [exact Ha|].
  pose proof (written_leaves _ _ Hn) as Hll. clear Hn.
  induction Hll as [|l ll Hl Hll IH]; cbn [ll_set_value]; [constructor|].
  destruct (equalT (get_key l) k); constructor; auto.
  right. exact Hla.
Qed.

(** *** Writes through a pointer *)

Lemma written_path_written (cp : list N) (n : innert) :
  written_path nx old cp n -> written nx old n.
Proof.
  destruct cp as [|i cp]; [auto|]. destruct n as [|a m|a ll]; cbn;
    try tauto.
  intros (Ha & Hm & _). apply written_new_internal; assumption.
Qed.

Lemma write_at_written (f : innert -> result innert) :
  (forall x y, written nx old x -> f x = Ok y -> written nx old y) ->
  forall cp n n',
    written_path nx old cp n -> write_at cp f n = Ok n' ->
    written_path nx old cp n'.
Proof.
  intros Hf. induction cp as [|i cp IH]; intros n n' Hn H; cbn [write_at] in H.
  - cbn [written_path] in *. eapply Hf; eassumption.
  - destruct n as [|a m|a ll]; cbn [written_path] in Hn; try contradiction.
    destruct Hn as (Ha & Hm & Hi & Hc).
    destruct (write_at cp f (child_of i (Internal a m))) as [c|e] eqn:E;
      cbn [bind] in H; [|discriminate].
    injection H as <-. pose proof (IH _ _ Hc E) as Hc'.
    cbn [set_child written_path child_of].
    split; [exact Ha|]. split.
    + apply tm_replace_written; [eapply written_path_written; exact Hc'|exact Hm].
    + split; [apply tm_find_replace; exact Hi|].
      rewrite (tm_find_replace_same _ _ _ Hi). exact Hc'.
Qed.


(** *** The mutators *)

Lemma fresh_ge (level : N) : nx <= fresh nx level.
Proof. unfold fresh. lia. Qed.

Lemma fresh_leaf_ge : nx <= fresh_leaf nx.
Proof. unfold fresh_leaf. lia. Qed.

Lemma written_path_single (a i : N) (m : to_mapt) :
  nx <= a -> Forall (fun x => written nx old (snd x)) m ->
  tm_find i m <> None ->
  written_path nx old [i] (Internal a m).
Proof.
  intros Ha Hm Hi. cbn [written_path]. split; [exact Ha|].
  split; [exact Hm|]. split; [exact Hi|]. apply child_of_written, Hm.
Qed.

Lemma written_path_cons (a i : N) (m : to_mapt) (cp : list N) (c : innert) :
  nx <= a -> Forall (fun x => written nx old (snd x)) m ->
  tm_find i m <> None -> written_path nx old cp c ->
  written_path nx old (i :: cp) (set_child i c (Internal a m)).
Proof.
  intros Ha Hm Hi Hc. cbn [set_child written_path child_of].
  split; [exact Ha|]. split.
  - apply tm_replace_written; [eapply written_path_written; exact Hc|exact Hm].
  - split; [apply tm_find_replace; exact Hi|].
    rewrite (tm_find_replace_same _ _ _ Hi). exact Hc.
Qed.

Lemma find_child_written (i : N) (n c : innert) :
  written nx old n -> find_child i n = Ok (Some c) -> written nx old c.
Proof.
  intros Hn H. destruct n as [|a m|a ll]; cbn in H; try discriminate.
  injection H as H. eapply tm_find_written; [|exact H].
  apply (written_children _ _ Hn).
Qed.

Lemma front_written (n : innert) (ll : leaf_listt) (l : leaft) :
  written nx old n -> get_container n = Ok ll -> front ll = Ok l ->
  leaf_written nx old l.
Proof.
  intros Hn Hll H. destruct n as [|a m|a ll']; try discriminate Hll.
  injection Hll as ->.
  destruct ll as [|x ll]; [discriminate|]. injection H as <-.
  pose proof (written_leaves _ _ Hn) as Hl. inversion Hl; assumption.
Qed.

Lemma migrate_loop_written :
  forall fuel cc ip key ke level ip' cp found,
    written nx old cc -> written nx old ip ->
    migrate_loop fuel nx cc ip key ke level = Ok (ip', cp, found) ->
    written_path nx old cp ip'.
Proof.
  induction fuel as [|fuel IH]; intros cc ip key ke level ip' cp found Hcc Hip H;
    [discriminate|].
  cbn [migrate_loop] in H.
  destruct (negb (N.land key mask =? N.land ke mask)).
  - bind_hyp H as ip1 E1.
    destruct (add_child_written _ _ _ _ (fresh_ge level) Hip E1)
      as (m1 & -> & Hm1 & _).
    bind_hyp H as ip3 E3. injection H as <- <- <-.
    destruct (add_child_written _ _ _ _ (fresh_ge level)
                (set_child_written _ _ _ _ (fresh_ge level) Hm1 Hcc) E3)
      as (m3 & -> & Hm3 & Hi3).
    apply written_path_single; [apply fresh_ge|assumption|assumption].
  - bind_hyp H. bind_hyp H as ip1 E1.
    destruct (add_child_written _ _ _ _ (fresh_ge level) Hip E1)
      as (m1 & -> & Hm1 & Hi1).
    destruct (level + 1 <? levels).
    + bind_hyp H as [[child' cp'] found'] E2.
      injection H as <- <- <-.
      apply written_path_cons; [apply fresh_ge|exact Hm1|exact Hi1|].
      eapply IH; [exact Hcc| |exact E2]. apply child_of_written, Hm1.
    + injection H as <- <- <-.
      apply written_path_single; [apply fresh_ge|assumption|assumption].
Qed.

Lemma migrate_written (starting_level key_suffix bit_last : N)
  (inner inner' : innert) (cp : list N) :
  written nx old inner ->
  migrate nx starting_level key_suffix bit_last inner = Ok (inner', cp) ->
  written_path nx old cp inner'.
Proof.
  intros Hin H. unfold migrate in H. do 2 bind_hyp H.
  bind_hyp H as p Ep. bind_hyp H as child Ec.
  assert (Hc : written nx old child).
  { destruct p as [c|]; [|discriminate]. injection Ec as <-.
    eapply find_child_written; eassumption. }
  bind_hyp H. bind_hyp H as ll Ell. bind_hyp H. bind_hyp H as leaf Eleaf.
  bind_hyp H as inner1 E1.
  destruct (remove_child_written _ _ _ _ (fresh_ge starting_level) Hin E1)
    as (m1 & -> & Hm1).
  bind_hyp H as inner2 E2.
  destruct (add_child_written _ _ _ _ (fresh_ge starting_level)
              (written_new_internal _ _ (fresh_ge starting_level) Hm1) E2)
    as (m2 & -> & Hm2 & Hi2).
  bind_hyp H. bind_hyp H. bind_hyp H as [[ip' cp'] found] E3.
  assert (Hp : written_path nx old (bit_last :: cp')
                 (set_child bit_last ip'
                    (Internal (fresh nx starting_level) m2))).
  { apply written_path_cons; [apply fresh_ge|exact Hm2|exact Hi2|].
    eapply migrate_loop_written; [exact Hc| |exact E3].
    apply child_of_written, Hm2. }
  destruct found.
  - injection H as <- <-. exact Hp.
  - bind_hyp H as inner4 E4. injection H as <- <-.
    eapply write_at_written; [|exact Hp|exact E4].
    intros x y Hx Hy. eapply push_front_leaf_written; [| |exact Hx|exact Hy].
    + apply fresh_ge.
    + exact (front_written _ _ _ Hc Ell Eleaf).
Qed.

Lemma place_leaf_written (a : ptr) (k : keyT) (v : valueT) (n n' : innert) :
  nx <= a -> written nx old n ->
  place_leaf a (fresh_leaf nx) k v n = Ok n' -> written nx old n'.
Proof.
  intros Ha Hn H. unfold place_leaf in H.
  eapply push_front_leaf_written; [exact Ha| |exact Hn|exact H].
  right. apply fresh_leaf_ge.
Qed.

Lemma insert_loop_written (k : keyT) (v : valueT) :
  forall fuel ip key level ip',
    written nx old ip ->
    insert_loop fuel nx k v ip key level = Ok ip' ->
    written nx old ip'.
Proof.
  induction fuel as [|fuel IH]; intros ip key level ip' Hip H; [discriminate|].
  cbn [insert_loop] in H. do 2 bind_hyp H. bind_hyp H as ip1 E1.
  destruct (add_child_written _ _ _ _ (fresh_ge level) Hip E1)
    as (m1 & -> & Hm1 & Hi1).
  pose proof (child_of_written (fresh nx level) (N.land key mask) m1 Hm1) as Hc.
  destruct (is_empty (child_of (N.land key mask) (Internal (fresh nx level) m1))).
  { bind_hyp H as child E2. bind_hyp H. injection H as <-.
    apply set_child_written; [apply fresh_ge|exact Hm1|].
    eapply place_leaf_written; [apply fresh_ge|exact Hc|exact E2]. }
  destruct (is_container (child_of (N.land key mask) (Internal (fresh nx level) m1))).
  - destruct (level <? levels - 1).
    + bind_hyp H as [ip2 cp] E2.
      eapply written_path_written.
      eapply write_at_written; [|eapply migrate_written; [|exact E2]|exact H].
      * intros x y Hx Hy.
        eapply place_leaf_written; [apply fresh_ge|exact Hx|exact Hy].
      * apply written_new_internal; [apply fresh_ge|exact Hm1].
    + bind_hyp H as child E2. injection H as <-.
      apply set_child_written; [apply fresh_ge|exact Hm1|].
      eapply place_leaf_written; [apply fresh_ge|exact Hc|exact E2].
  - bind_hyp H. bind_hyp H as child E3. injection H as <-.
    apply set_child_written; [apply fresh_ge|exact Hm1|].
    eapply IH; [exact Hc|exact E3].
Qed.

Lemma erase_loop_written (k : keyT) :
  forall fuel ip key level del_null r,
    written nx old ip ->
    erase_loop fuel nx k ip key level del_null = Ok r ->
    match r with
    | Erased ip' => written nx old ip'
    | Remove_at_del => True
    end.
Proof.
  induction fuel as [|fuel IH]; intros ip key level del_null r Hip H;
    [discriminate|].
  cbn [erase_loop] in H. bind_hyp H as m0 E0. bind_hyp H as ip1 E1.
  destruct (add_child_written _ _ _ _ (fresh_ge level) Hip E1)
    as (m1 & -> & Hm1 & Hi1).
  pose proof (child_of_written (fresh nx level) (N.land key mask) m1 Hm1) as Hc.
  pose proof (written_new_internal _ _ (fresh_ge level) Hm1) as Hip1.
  bind_hyp H.
  destruct (is_container (child_of (N.land key mask) (Internal (fresh nx level) m1))).
  - bind_hyp H. bind_hyp H as ll Ell. bind_hyp H.
    destruct (is_singular ll).
    + bind_hyp H as l El. bind_hyp H.
      destruct (Nat.ltb 1 (length m0) || del_null).
      * bind_hyp H as ip2 E2. injection H as <-.
        destruct (remove_child_written _ _ _ _ (fresh_ge level) Hip1 E2)
          as (m2 & -> & Hm2).
        apply written_new_internal; [apply fresh_ge|exact Hm2].
      * injection H as <-. exact I.
    + bind_hyp H as child E2. injection H as <-.
      apply set_child_written; [apply fresh_ge|exact Hm1|].
      eapply remove_leaf_written; [apply fresh_ge|exact Hc|exact E2].
  - bind_hyp H as r' E2. pose proof (IH _ _ _ _ _ Hc E2) as Hr.
    destruct r' as [child'|].
    + injection H as <-.
      apply set_child_written; [apply fresh_ge|exact Hm1|exact Hr].
    + destruct (Nat.ltb 1 (length m0) || del_null).
      * bind_hyp H as ip2 E3. injection H as <-.
        destruct (remove_child_written _ _ _ _ (fresh_ge level) Hip1 E3)
          as (m2 & -> & Hm2).
        apply written_new_internal; [apply fresh_ge|exact Hm2].
      * injection H as <-. exact I.
Qed.

Lemma get_container_node_loop_written :
  forall fuel ip key level ip' cp,
    written nx old ip ->
    get_container_node_loop fuel nx ip key level = Ok (ip', cp) ->
    written_path nx old cp ip'.
Proof.
  induction fuel as [|fuel IH]; intros ip key level ip' cp Hip H;
    [discriminate|].
  cbn [get_container_node_loop] in H. bind_hyp H as ip1 E1.
  destruct (add_child_written _ _ _ _ (fresh_ge level) Hip E1)
    as (m1 & -> & Hm1 & Hi1).
  bind_hyp H.
  destruct (is_container (child_of (N.land key mask) (Internal (fresh nx level) m1))).
  - injection H as <- <-.
    apply written_path_single; [apply fresh_ge|assumption|assumption].
  - bind_hyp H as [child' cp'] E2. injection H as <- <-.
    apply written_path_cons; [apply fresh_ge|exact Hm1|exact Hi1|].
    eapply IH; [|exact E2]. apply child_of_written, Hm1.
Qed.

End Written.

(** ** Delta views after a write to a copy *)

Section Sharing.
Context {params : sharing_map_params}.

Lemma clone_eq (sm : sharing_mapt) : clone sm = sm.
Proof. destruct sm. reflexivity. Qed.

Lemma insert_written (nx : ptr) (k : keyT) (v : valueT)
  (sm sm' : sharing_mapt) :
  insert nx k v sm = Ok sm' -> written nx (map sm) (map sm').
Proof.
  intros H. unfold insert in H. do 2 bind_hyp H. bind_hyp H as root E.
  injection H as <-. cbn [map].
  eapply insert_loop_written; [|exact E].
  apply written_old, subnodes_self.
Qed.

Lemma erase_written (nx : ptr) (k : keyT) (sm sm' : sharing_mapt) :
  erase nx k sm = Ok sm' -> written nx (map sm) (map sm').
Proof.
  intros H. unfold erase in H. bind_hyp H. bind_hyp H as r E.
  destruct r as [root|]; [|discriminate]. injection H as <-. cbn [map].
  apply (erase_loop_written nx (map sm) k _ _ _ _ _ _
           (written_old _ _ _ (subnodes_self _)) E).
Qed.

Lemma get_container_node_written (nx : ptr) (sm : sharing_mapt) (k : keyT)
  (root : innert) (cp : list N) :
  get_container_node nx sm k = Ok (root, cp) ->
  written_path nx (map sm) cp root.
Proof.
  intros H. unfold get_container_node in H. do 2 bind_hyp H.
  eapply get_container_node_loop_written; [|exact H].
  apply written_old, subnodes_self.
Qed.

Lemma set_value_written (nx : ptr) (sm : sharing_mapt) (k : keyT)
  (v : valueT) (root root' : innert) (cp : list N) :
  written_path nx (map sm) cp root ->
  write_at cp
    (set_leaf_value (fresh nx (N.of_nat (length cp))) (fresh_leaf nx) k v)
    root = Ok root' ->
  written nx (map sm) root'.
Proof.
  intros Hp H. eapply written_path_written.
  eapply write_at_written; [|exact Hp|exact H].
  intros x y Hx Hy.
  eapply set_leaf_value_written;
    [apply fresh_ge|apply fresh_leaf_ge|exact Hx|exact Hy].
Qed.

Lemma replace_written (nx : ptr) (k : keyT) (v : valueT)
  (sm sm' : sharing_mapt) :
  replace nx k v sm = Ok sm' -> written nx (map sm) (map sm').
Proof.
  intros H. unfold replace in H. bind_hyp H as [root cp] E.
  bind_hyp H. bind_hyp H as lp El. destruct lp as [l|]; [|discriminate].
  bind_hyp H. bind_hyp H as root' E'. injection H as <-. cbn [map].
  eapply set_value_written; [|exact E'].
  eapply get_container_node_written. exact E.
Qed.

Lemma update_written (nx : ptr) (k : keyT) (mutator : valueT -> valueT)
  (sm sm' : sharing_mapt) :
  update nx k mutator sm = Ok sm' -> written nx (map sm) (map sm').
Proof.
  intros H. unfold update in H. bind_hyp H as [root cp] E.
  bind_hyp H. bind_hyp H as lp El. destruct lp as [l|]; [|discriminate].
  bind_hyp H as root' E'. bind_hyp H. injection H as <-. cbn [map].
  eapply set_value_written; [|exact E'].
  eapply get_container_node_written. exact E.
Qed.

(** A map and a written copy of it are coherent. *)
Lemma written_coherent (nx : ptr) (sm sm' : sharing_mapt) :
  coherent sm sm -> below nx sm -> written nx (map sm) (map sm') ->
  coherent sm' sm.
Proof.
  intros [Hn Hl] [Hbn Hbl] Hw.
  destruct (written_footprint _ _ _ Hw) as [Hfn Hfl]. split.
  - intros n1 n2 H1 H2 Hs. destruct (Hfn n1 H1) as [H|H]; [auto|].
    unfold shares_with in Hs.
    destruct (data_of n1) as [a|] eqn:E1, (data_of n2) as [b|] eqn:E2;
      try discriminate.
    + apply N.eqb_eq in Hs. subst b.
      pose proof (H a eq_refl). pose proof (Hbn n2 a H2 E2). lia.
    + destruct n1, n2; try discriminate. reflexivity.
  - intros l1 l2 H1 H2 Hs. destruct (Hfl l1 H1) as [H|H]; [auto|].
    unfold leaf_shares_with in Hs. apply N.eqb_eq in Hs.
    pose proof (Hbl l2 H2). lia.
Qed.

Lemma not_leaf_by_key (k : keyT) (l : leaft) (L : list leaft) :
  get_key l = k -> find_k k L = None -> ~ In l L.
Proof.
  intros Hk H Hl. rewrite find_k_none in H. apply (H l Hl Hk).
Qed.

(** X15.  After [insert] on a copy: seen from the copy, the delta view against
    the original is the inserted element alone; seen from the original, it is
    empty. *)
Theorem delta_view_after_insert (nx : ptr) (k : keyT) (v : valueT)
  (sm : sharing_mapt) :
  wf_map sm -> coherent sm sm -> below nx sm ->
  has_key sm k = Ok false ->
  size sm + 1 < size_t_modulus ->
  exists sm',
    insert nx k v (clone sm) = Ok sm' /\
    get_delta_view sm' sm [] false = Ok [mk_delta_view_item k v None] /\
    forall only_common, get_delta_view sm sm' [] only_common = Ok [].
Proof.
  intros Hwf Hco Hb Hk Hnum. rewrite clone_eq.
  apply (has_key_false _ _ Hwf) in Hk.
  destruct (insert_spec nx k v sm Hwf Hk Hnum)
    as (sm' & Hrun & Hwf' & (pre & post & la & HL & HL') & _).
  exists sm'. split; [exact Hrun|].
  pose proof (written_coherent _ _ _ Hco Hb (insert_written _ _ _ _ _ Hrun))
    as Hco'.
  split.
  - rewrite (delta_view_single sm' sm false (mk_leaf la k v) Hwf' Hwf Hco').
    + unfold leaf_item. cbn [get_key get_value]. rewrite Hk. reflexivity.
    + rewrite HL'. apply in_or_app. right. left. reflexivity.
    + apply (not_leaf_by_key k); [reflexivity|exact Hk].
    + intros x. rewrite HL', HL, !in_app_iff. cbn [In]. intuition auto.
    + discriminate.
  - intros oc. apply delta_view_none; [exact Hwf|exact Hwf'|].
    intros x. rewrite HL', HL, !in_app_iff. cbn [In]. tauto.
Qed.

(** X16.  After [erase] on a copy: seen from the original, the delta view
    against the copy is the erased element alone; seen from the copy, it is
    empty. *)
Theorem delta_view_after_erase (nx : ptr) (k : keyT) (v : valueT)
  (sm : sharing_mapt) :
  wf_map sm -> coherent sm sm -> below nx sm ->
  find sm k = Ok (Some v) ->
  exists sm',
    erase nx k (clone sm) = Ok sm' /\
    get_delta_view sm sm' [] false = Ok [mk_delta_view_item k v None] /\
    forall only_common, get_delta_view sm' sm [] only_common = Ok [].
Proof.
  intros Hwf Hco Hb Hfind. rewrite clone_eq.
  destruct (find_some_leaf _ _ _ Hwf Hfind) as (l0 & Hl0 & <-).
  destruct (erase_spec nx k sm l0 Hwf Hl0)
    as (sm' & Hrun & Hwf' & (pre & post & l & HL & HL' & Hkl & Hpre & Hpost)
        & _).
  assert (l = l0).
  { rewrite HL, find_k_app, Hpre in Hl0. unfold find_k in Hl0.
    cbn [List.find] in Hl0. rewrite Hkl, equalT_refl in Hl0. congruence. }
  subst l0.
  assert (Hn : find_k k (iter_leaves (map sm')) = None).
  { rewrite HL', find_k_app, Hpre. exact Hpost. }
  exists sm'. split; [exact Hrun|].
  pose proof (coherent_sym _ _
                (written_coherent _ _ _ Hco Hb (erase_written _ _ _ _ Hrun)))
    as Hco'.
  split.
  - rewrite (delta_view_single sm sm' false l Hwf Hwf' Hco').
    + unfold leaf_item. rewrite Hkl, Hn. reflexivity.
    + rewrite HL. apply in_or_app. right. left. reflexivity.
    + apply (not_leaf_by_key k); assumption.
    + intros x. rewrite HL', HL, !in_app_iff. cbn [In]. intuition auto.
    + discriminate.
  - intros oc. apply delta_view_none; [exact Hwf'|exact Hwf|].
    intros x. rewrite HL', HL, !in_app_iff. cbn [In]. tauto.
Qed.

Lemma delta_view_replaced (nx : ptr) (k : keyT) (v : valueT)
  (sm sm' : sharing_mapt) (l : leaft) (only_common : bool) :
  wf_map sm -> wf_map sm' -> coherent sm sm -> below nx sm ->
  written nx (map sm) (map sm') ->
  find_k k (iter_leaves (map sm)) = Some l ->
  replaced k v (fresh_leaf nx) (iter_leaves (map sm))
    (iter_leaves (map sm')) ->
  get_delta_view sm' sm [] only_common =
  Ok [mk_delta_view_item k v (Some (get_value l))] /\
  get_delta_view sm sm' [] only_common =
  Ok [mk_delta_view_item k (get_value l) (Some v)].
Proof.
  intros Hwf Hwf' Hco Hb Hw Hl (pre & post & l0 & HL & HL' & Hkl & Hpre).
  assert (l0 = l).
  { rewrite HL, find_k_app, Hpre in Hl. unfold find_k in Hl.
    cbn [List.find] in Hl. rewrite Hkl, equalT_refl in Hl. congruence. }
  subst l0.
  pose proof (written_coherent _ _ _ Hco Hb Hw) as Hco'.
  set (l' := mk_leaf (fresh_leaf nx) k v) in *.
  assert (Hl' : find_k k (iter_leaves (map sm')) = Some l').
  { rewrite HL', find_k_app, Hpre. unfold find_k. cbn [List.find get_key l'].
    rewrite equalT_refl. reflexivity. }
  assert (Hpost : find_k k post = None).
  { pose proof (wf_map_NoDup _ Hwf) as Hnd. rewrite HL in Hnd.
    rewrite map_app in Hnd. apply NoDup_remove_2 in Hnd.
    apply find_k_none. intros x Hx Hkx. apply Hnd.
    apply in_or_app. right. rewrite Hkl, <- Hkx. apply in_map. exact Hx. }
  assert (Hne : l' <> l).
  { intros E. destruct Hb as [_ Hbl].
    assert (Hin : In l (iter_leaves (map sm))).
    { rewrite HL. apply in_or_app. right. left. reflexivity. }
    specialize (Hbl l Hin). rewrite <- E in Hbl. cbn [l' leaf_data] in Hbl.
    pose proof (fresh_leaf_ge nx). lia. }
  assert (Hout : forall x, get_key x = k -> In x (pre ++ post) -> False).
  { intros x Hkx Hx. apply in_app_iff in Hx. destruct Hx as [Hx|Hx].
    - rewrite find_k_none in Hpre. apply (Hpre x Hx Hkx).
    - rewrite find_k_none in Hpost. apply (Hpost x Hx Hkx). }
  split.
  - rewrite (delta_view_single sm' sm only_common l' Hwf' Hwf Hco').
    + unfold leaf_item. cbn [get_key get_value l']. rewrite Hl. reflexivity.
    + rewrite HL'. apply in_or_app. right. left. reflexivity.
    + rewrite HL. intros Hin. apply in_app_iff in Hin. cbn [In] in Hin.
      destruct Hin as [H|[H|H]].
      * apply (Hout l' eq_refl). apply in_or_app. auto.
      * apply Hne. symmetry. exact H.
      * apply (Hout l' eq_refl). apply in_or_app. auto.
    + intros x. rewrite HL', HL, !in_app_iff. cbn [In]. intuition auto.
    + intros _. cbn [get_key l']. rewrite Hl. discriminate.
  - rewrite (delta_view_single sm sm' only_common l Hwf Hwf'
               (coherent_sym _ _ Hco')).
    + unfold leaf_item. rewrite Hkl, Hl'. reflexivity.
    + rewrite HL. apply in_or_app. right. left. reflexivity.
    + rewrite HL'. intros Hin. apply in_app_iff in Hin. cbn [In] in Hin.
      destruct Hin as [H|[H|H]].
      * apply (Hout l Hkl). apply in_or_app. auto.
      * apply Hne. exact H.
      * apply (Hout l Hkl). apply in_or_app. auto.
    + intros x. rewrite HL', HL, !in_app_iff. cbn [In]. intuition auto.
    + intros _. rewrite Hkl, Hl'. discriminate.
Qed.

(** X17.  After [replace] on a copy the delta view, in either direction and
    for either value of [only_common], is the one item for the replaced key,
    with the values of the two maps. *)
Theorem delta_view_after_replace (nx : ptr) (k : keyT) (v old : valueT)
  (sm : sharing_mapt) (only_common : bool) :
  wf_map sm -> coherent sm sm -> below nx sm ->
  find sm k = Ok (Some old) ->
  value_equalt old v = false ->
  exists sm',
    replace nx k v (clone sm) = Ok sm' /\
    get_delta_view sm' sm [] only_common =
    Ok [mk_delta_view_item k v (Some old)] /\
    get_delta_view sm sm' [] only_common =
    Ok [mk_delta_view_item k old (Some v)].
Proof.
  intros Hwf Hco Hb Hfind Hneq. rewrite clone_eq.
  destruct (find_some_leaf _ _ _ Hwf Hfind) as (l & Hl & <-).
  pose proof (replace_spec nx k v sm l Hwf Hl) as H. rewrite Hneq in H.
  destruct H as (sm' & Hrun & Hwf' & _ & Hrep).
  exists sm'. split; [exact Hrun|].
  eapply delta_view_replaced; try eassumption.
  eapply replace_written. exact Hrun.
Qed.

(** X18.  After [update] on a copy the delta view, in either direction and for
    either value of [only_common], is the one item for the updated key, with
    the old and the mutated value. *)
Theorem delta_view_after_update (nx : ptr) (k : keyT)
  (mutator : valueT -> valueT) (old : valueT) (sm : sharing_mapt)
  (only_common : bool) :
  wf_map sm -> coherent sm sm -> below nx sm ->
  find sm k = Ok (Some old) ->
  value_comparatort old (mutator old) = false ->
  exists sm',
    update nx k mutator (clone sm) = Ok sm' /\
    get_delta_view sm' sm [] only_common =
    Ok [mk_delta_view_item k (mutator old) (Some old)] /\
    get_delta_view sm sm' [] only_common =
    Ok [mk_delta_view_item k old (Some (mutator old))].
Proof.
  intros Hwf Hco Hb Hfind Hneq. rewrite clone_eq.
  destruct (find_some_leaf _ _ _ Hwf Hfind) as (l & Hl & <-).
  pose proof (update_spec nx k mutator sm l Hwf Hl) as H. rewrite Hneq in H.
  destruct H as (sm' & Hrun & Hwf' & _ & Hrep).
  exists sm'. split; [exact Hrun|].
  eapply delta_view_replaced; try eassumption.
  eapply update_written. exact Hrun.
Qed.

End Sharing.

(** ** Sharing statistics *)

Section Stats.
Context {params : sharing_map_params}.
Variable use_count : ptr -> N.

Lemma visit_marked_spec (mark : bool) (p : ptr) (marked : list ptr) :
  (mark = false -> snd (visit_marked use_count mark p marked) = marked) /\
  (marked = [] -> fst (visit_marked use_count mark p marked) = false).
Proof.
  unfold visit_marked. split.
  - intros ->. destruct (2 <=? use_count p); [|reflexivity].
    destruct (marked_find p marked); reflexivity.
  - intros ->. destruct (2 <=? use_count p); reflexivity.
Qed.

Lemma unsigned_incr_small (n : N) :
  n + 1 < unsigned_modulus -> unsigned_incr n = n + 1.
Proof. intros H. unfold unsigned_incr. apply N.mod_small. exact H. Qed.

Lemma count_leaves_spec (mark : bool) :
  forall ll marked count,
    count + N.of_nat (length ll) < unsigned_modulus ->
    exists n marked',
      count_leaves use_count mark ll marked count = (marked', count + n) /\
      n <= N.of_nat (length ll) /\
      (mark = false -> marked' = marked) /\
      (mark = false -> marked = [] -> n = N.of_nat (length ll)).
Proof.
  unfold count_leaves.
  induction ll as [|l ll IH]; intros marked count Hc; cbn [fold_left length];
    cbn [length] in Hc.
  - exists 0, marked. rewrite N.add_0_r. repeat split; auto. reflexivity.
  - destruct (visit_marked_spec mark (leaf_data l) marked) as [Hm Hs].
    destruct (visit_marked use_count mark (leaf_data l) marked)
      as [skip marked1]. cbn [fst snd] in Hm, Hs.
    destruct skip.
    + destruct (IH marked1 count) as (n & marked' & -> & Hn & H1 & H2);
        [lia|].
      exists n, marked'. split; [reflexivity|]. split; [lia|].
      split.
      * intros Hf. rewrite (H1 Hf). auto.
      * intros Hf He. specialize (Hs He). discriminate.
    + rewrite unsigned_incr_small by lia.
      destruct (IH marked1 (count + 1)) as (n & marked' & -> & Hn & H1 & H2);
        [lia|].
      exists (1 + n), marked'. split; [f_equal; lia|]. split; [lia|].
      split.
      * intros Hf. rewrite (H1 Hf). auto.
      * intros Hf He. rewrite (H2 Hf); [lia|]. rewrite <- He. auto.
Qed.

Lemma stack_weight_app (lo : bool) (s1 s2 : list innert) :
  stack_weight lo (s1 ++ s2) = stack_weight lo s1 + stack_weight lo s2.
Proof.
  induction s1 as [|x s1 IH]; cbn [app stack_weight fold_right]; [reflexivity|].
  fold (stack_weight lo (s1 ++ s2)). fold (stack_weight lo s1).
  rewrite IH. lia.
Qed.

Lemma stack_weight_rev (lo : bool) (s : list innert) :
  stack_weight lo (rev s) = stack_weight lo s.
Proof.
  induction s as [|x s IH]; [reflexivity|]. cbn [rev].
  rewrite stack_weight_app, IH.
  change (stack_weight lo (x :: s)) with
    (node_weight lo x + stack_weight lo s).
  change (stack_weight lo [x]) with (node_weight lo x + 0). lia.
Qed.

Lemma stack_weight_children (lo : bool) (q : ptr) (m : to_mapt) :
  node_weight lo (Internal q m) =
  (if lo then 0 else 1) + stack_weight lo (List.map snd m).
Proof.
  unfold node_weight. rewrite node_count_internal, iter_leaves_internal.
  assert (H : stack_weight lo (List.map snd m) =
              (if lo then 0 else N.of_nat (count_nodes (List.map snd m))) +
              N.of_nat (length (leaves_of_map m))).
  { induction m as [|[i c] m IH].
    - destruct lo; reflexivity.
    - rewrite leaves_of_map_cons, length_app.
      cbn [List.map snd stack_weight fold_right].
      fold (stack_weight lo (List.map snd m)). rewrite IH.
      unfold node_weight, count_nodes, list_sum.
      cbn [List.map fold_right]. destruct lo; lia. }
  rewrite H. destruct lo; lia.
Qed.

(** On well formed nodes the traversal of [count_unmarked_nodes] returns;
    it counts at most the nodes and leaves below the stack, and all of
    them if nothing is marked and [mark] is not set, in which case nothing
    is marked afterwards. *)
Lemma count_unmarked_loop_spec (lo mark : bool) :
  forall fuel stack marked count,
    stack <> [] -> Forall wf_some stack ->
    (count_nodes stack <= fuel)%nat ->
    count + stack_weight lo stack < unsigned_modulus ->
    exists n marked',
      count_unmarked_loop fuel use_count lo mark stack marked count =
      Ok (count + n, marked') /\
      n <= stack_weight lo stack /\
      (mark = false -> marked' = marked) /\
      (mark = false -> marked = [] -> n = stack_weight lo stack).
Proof.
  induction fuel as [|fuel IH]; intros stack marked count Hne Hwf Hfuel Hc.
  - destruct stack as [|ip stack]; [congruence|].
    unfold count_nodes in Hfuel. simpl in Hfuel.
    pose proof (node_count_pos ip). lia.
  - destruct stack as [|ip stack]; [congruence|].
    apply Forall_cons_iff in Hwf. destruct Hwf as [(rem & d & Hip) Hwf].
    change (count_nodes (ip :: stack)) with
      (node_count ip + count_nodes stack)%nat in Hfuel.
    change (stack_weight lo (ip :: stack)) with
      (node_weight lo ip + stack_weight lo stack) in Hc |- *.
    pose proof (node_count_pos ip) as Hpos.
    cbn [count_unmarked_loop].
    assert (Hrest : forall marked1 count1 n1,
               count1 = count + n1 ->
               n1 <= node_weight lo ip ->
               (mark = false -> marked1 = marked) ->
               (mark = false -> marked = [] -> n1 = node_weight lo ip) ->
               exists n marked',
                 match stack with
                 | [] => Ok (count1, marked1)
                 | _ :: _ =>
                     count_unmarked_loop fuel use_count lo mark stack marked1
                       count1
                 end = Ok (count + n, marked') /\
                 n <= node_weight lo ip + stack_weight lo stack /\
                 (mark = false -> marked' = marked) /\
                 (mark = false -> marked = [] ->
                  n = node_weight lo ip + stack_weight lo stack)).
    { intros marked1 count1 n1 -> Hn1 Hm1 He1.
      destruct stack as [|x st].
      - exists n1, marked1. split; [reflexivity|].
        cbn [stack_weight fold_right]. split; [lia|]. split; [exact Hm1|].
        intros Hf He. rewrite (He1 Hf He). lia.
      - destruct (IH (x :: st) marked1 (count + n1))
          as (n & marked' & Hrun & Hn & H1 & H2);
          [discriminate|exact Hwf|lia|lia|].
        exists (n1 + n), marked'. rewrite Hrun.
        split; [f_equal; f_equal; lia|]. split; [lia|]. split.
        + intros Hf. rewrite (H1 Hf). auto.
        + intros Hf He. rewrite (He1 Hf He), H2; auto.
          rewrite (Hm1 Hf). exact He. }
    destruct ip as [|q m|q ll].
    + destruct (wf_node_empty _ _ Hip).
    + apply wf_node_internal in Hip. destruct Hip as (rem' & -> & Hm & Hch).
      cbn [data_of bind].
      destruct (visit_marked_spec mark q marked) as [Hvm Hvs].
      destruct (visit_marked use_count mark q marked) as [skip marked1].
      cbn [fst snd] in Hvm, Hvs. destruct skip.
      * cbn [bind]. apply (Hrest marked1 count 0); [lia|lia|exact Hvm|].
        intros _ He. specialize (Hvs He). discriminate.
      * cbn [is_internal is_empty negb get_to_map].
        rewrite SM_ASSERT_true. cbn [bind].
        assert (Hlen : negb (Nat.eqb (length m) 0) = true)
          by (destruct m; [congruence|reflexivity]).
        rewrite Hlen, SM_ASSERT_true. cbn [bind].
        fold (push_children m stack). rewrite push_children_eq.
        rewrite stack_weight_children in Hc |- *.
        rewrite node_count_internal in Hfuel.
        assert (Hne' : rev (List.map snd m) ++ stack <> []).
        { destruct m as [|x m]; [congruence|]. simpl.
          intros H. apply app_eq_nil in H. destruct H as [H _].
          apply app_eq_nil in H. destruct H. discriminate. }
        assert (Hcnt : (if negb lo then unsigned_incr count else count) =
                       count + (if lo then 0 else 1)).
        { destruct lo; cbn [negb]; [lia|].
          apply unsigned_incr_small. lia. }
        rewrite Hcnt.
        destruct (IH (rev (List.map snd m) ++ stack) marked1
                    (count + (if lo then 0 else 1)))
          as (n & marked' & Hrun & Hn & H1 & H2).
        -- exact Hne'.
        -- apply Forall_app. split; [|exact Hwf].
           eapply wf_children_some; [|exact Hch]. intros x Hx. red. eauto.
        -- rewrite count_nodes_app, count_nodes_rev. lia.
        -- rewrite stack_weight_app, stack_weight_rev. lia.
        -- rewrite stack_weight_app, stack_weight_rev in Hn, H2.
           exists ((if lo then 0 else 1) + n), marked'.
           destruct (rev (List.map snd m) ++ stack) as [|x st] eqn:E;
             [congruence|].
           rewrite Hrun. split; [f_equal; f_equal; lia|]. split; [lia|].
           split.
           ++ intros Hf. rewrite (H1 Hf). auto.
           ++ intros Hf He. rewrite H2; auto; [lia|].
              rewrite (Hvm Hf). exact He.
    + apply wf_node_container in Hip. destruct Hip as (Hll & _).
      cbn [data_of bind].
      destruct (visit_marked_spec mark q marked) as [Hvm Hvs].
      destruct (visit_marked use_count mark q marked) as [skip marked1].
      cbn [fst snd] in Hvm, Hvs. destruct skip.
      * cbn [bind]. apply (Hrest marked1 count 0); [lia|lia|exact Hvm|].
        intros _ He. specialize (Hvs He). discriminate.
      * cbn [is_internal is_defined_container is_empty is_container negb andb
               get_container].
        rewrite SM_ASSERT_true. cbn [bind].
        assert (Hlen : negb (Nat.eqb (length ll) 0) = true)
          by (destruct ll; [congruence|reflexivity]).
        rewrite Hlen, SM_ASSERT_true. cbn [bind].
        unfold node_weight in Hc, Hrest |- *.
        cbn [node_count iter_leaves] in Hc, Hrest |- *.
        assert (Hcnt : (if negb lo then unsigned_incr count else count) =
                       count + (if lo then 0 else 1)).
        { destruct lo; cbn [negb]; [lia|].
          apply unsigned_incr_small. lia. }
        rewrite Hcnt.
        destruct (count_leaves_spec mark ll marked1
                    (count + (if lo then 0 else 1)))
          as (nl & marked2 & Hcl & Hnl & H1 & H2); [destruct lo; lia|].
        rewrite Hcl. cbn [bind].
        apply (Hrest marked2 _ ((if lo then 0 else 1) + nl)).
        -- lia.
        -- destruct lo; lia.
        -- intros Hf. rewrite (H1 Hf). auto.
        -- intros Hf He.
           assert (Hm1 : marked1 = []) by (rewrite (Hvm Hf); exact He).
           rewrite (H2 Hf Hm1). destruct lo; lia.
Qed.


Lemma count_unmarked_nodes_spec (lo mark : bool) (sm : sharing_mapt)
  (marked : list ptr) :
  wf_map sm -> map_weight lo sm < unsigned_modulus ->
  exists n marked',
    count_unmarked_nodes use_count sm lo marked mark = Ok (n, marked') /\
    n <= map_weight lo sm /\
    (mark = false -> marked' = marked) /\
    (mark = false -> marked = [] -> n = map_weight lo sm).
Proof.
  intros Hwf Hw. unfold count_unmarked_nodes, map_weight in *.
  destruct (empty sm) eqn:He.
  - exists 0, marked. repeat split; auto. reflexivity.
  - destruct (wf_map_root_node _ Hwf He) as (p & m & Hm & Hn).
    destruct (count_unmarked_loop_spec lo mark (node_count (map sm)) [map sm]
                marked 0) as (n & marked' & Hrun & Hle & H1 & H2).
    + discriminate.
    + constructor; [|constructor]. rewrite Hm. red. eauto.
    + unfold count_nodes. simpl. lia.
    + cbn [stack_weight fold_right]. lia.
    + cbn [stack_weight fold_right] in Hle, H2. rewrite N.add_0_r in Hle, H2.
      exists n, marked'. rewrite Hrun. auto.
Qed.

Lemma stats_pass_spec (lo mark : bool) :
  forall maps marked total,
    Forall wf_map maps ->
    total + maps_weight lo maps < unsigned_modulus ->
    exists n marked',
      for_each maps
        (fun sm '(total, marked) =>
           '(c, marked) <-
             count_unmarked_nodes use_count sm lo marked mark ;;
           Ok ((total + c) mod size_t_modulus, marked))
        (total, marked) = Ok (total + n, marked') /\
      n <= maps_weight lo maps /\
      (mark = false -> marked' = marked) /\
      (mark = false -> marked = [] -> n = maps_weight lo maps).
Proof.
  induction maps as [|sm maps IH]; intros marked total Hwf Hw;
    cbn [for_each maps_weight fold_right] in *.
  - exists 0, marked. rewrite N.add_0_r. repeat split; auto. reflexivity.
  - fold (maps_weight lo maps) in *.
    apply Forall_cons_iff in Hwf. destruct Hwf as [Hsm Hwf].
    destruct (count_unmarked_nodes_spec lo mark sm marked Hsm)
      as (c & marked1 & Hrun & Hle & H1 & H2); [lia|].
    rewrite Hrun. cbn [bind].
    assert (Hsmall : (total + c) mod size_t_modulus = total + c).
    { apply N.mod_small. unfold size_t_modulus, unsigned_modulus in *.
      assert (2 ^ 32 < 2 ^ 64) by reflexivity. lia. }
    rewrite Hsmall.
    destruct (IH marked1 (total + c) Hwf) as (n & marked' & Hrest & Hn & H3 & H4);
      [lia|].
    exists (c + n), marked'.
    split; [etransitivity; [exact Hrest|]; f_equal; f_equal; lia|].
    split; [lia|]. split.
    + intros Hf. rewrite (H3 Hf). auto.
    + intros Hf He.
      assert (Hm1 : marked1 = []) by (rewrite (H1 Hf); exact He).
      rewrite (H2 Hf He), (H4 Hf Hm1). reflexivity.
Qed.

Lemma stats_pass_ok (lo mark : bool) (maps : list sharing_mapt)
  (marked : list ptr) :
  Forall wf_map maps ->
  maps_weight lo maps < unsigned_modulus ->
  exists n marked',
    stats_pass use_count maps lo mark marked = Ok (n, marked') /\
    n <= maps_weight lo maps /\
    (mark = false -> marked' = marked) /\
    (mark = false -> marked = [] -> n = maps_weight lo maps).
Proof.
  intros Hwf Hw.
  destruct (stats_pass_spec lo mark maps marked 0 Hwf)
    as (n & marked' & Hrun & H); [lia|].
  exists n, marked'. split; [exact Hrun|exact H].
Qed.

Lemma map_weight_leaves (sm : sharing_mapt) :
  wf_map sm -> map_weight true sm = size sm.
Proof.
  intros Hwf. unfold map_weight, node_weight, size.
  destruct (empty sm) eqn:He.
  - unfold empty in He. apply N.eqb_eq in He. auto.
  - destruct Hwf as (_ & Hn & _). rewrite Hn. reflexivity.
Qed.

Lemma maps_weight_leaves (maps : list sharing_mapt) :
  Forall wf_map maps ->
  maps_weight true maps = fold_right (fun sm t => size sm + t) 0 maps.
Proof.
  induction 1 as [|sm maps Hsm Hwf IH]; [reflexivity|].
  cbn [maps_weight fold_right]. fold (maps_weight true maps).
  rewrite IH, (map_weight_leaves _ Hsm). reflexivity.
Qed.

Lemma maps_weight_le (maps : list sharing_mapt) :
  maps_weight true maps <= maps_weight false maps.
Proof.
  induction maps as [|sm maps IH]; [reflexivity|].
  cbn [maps_weight fold_right]. fold (maps_weight true maps).
  fold (maps_weight false maps).
  assert (map_weight true sm <= map_weight false sm).
  { unfold map_weight, node_weight. destruct (empty sm); lia. }
  lia.
Qed.

(** Without sharing nothing is marked, and marking makes no difference. *)
Lemma visit_marked_unshared (mark : bool) (p : ptr) (marked : list ptr) :
  (forall a, use_count a < 2) ->
  visit_marked use_count mark p marked = (false, marked).
Proof.
  intros H. unfold visit_marked.
  destruct (N.leb_spec 2 (use_count p)) as [Hle|_]; [|reflexivity].
  specialize (H p). lia.
Qed.

Lemma count_unmarked_loop_unshared (lo : bool) :
  (forall a, use_count a < 2) ->
  forall fuel stack marked count,
    count_unmarked_loop fuel use_count lo true stack marked count =
    count_unmarked_loop fuel use_count lo false stack marked count.
Proof.
  intros Hu. induction fuel as [|fuel IH]; intros stack marked count;
    [reflexivity|].
  cbn [count_unmarked_loop]. destruct stack as [|ip st]; [reflexivity|].
  destruct (data_of ip) as [p|]; cbn [bind]; [|reflexivity].
  rewrite !visit_marked_unshared by exact Hu.
  assert (Hl : forall ll m c,
             count_leaves use_count true ll m c =
             count_leaves use_count false ll m c).
  { unfold count_leaves. induction ll as [|l ll IHl]; intros m c;
      cbn [fold_left]; [reflexivity|].
    rewrite !visit_marked_unshared by exact Hu. apply IHl. }
  destruct (is_internal ip).
  - destruct (SM_ASSERT (negb (is_empty ip))); cbn [bind]; [|reflexivity].
    destruct (get_to_map ip) as [m|]; cbn [bind]; [|reflexivity].
    destruct (SM_ASSERT (negb (Nat.eqb (length m) 0))); cbn [bind];
      [|reflexivity].
    destruct (fold_left (fun st0 item => snd item :: st0) m st);
      [reflexivity|apply IH].
  - destruct (SM_ASSERT (is_defined_container ip)); cbn [bind];
      [|reflexivity].
    destruct (get_container ip) as [ll|]; cbn [bind]; [|reflexivity].
    destruct (SM_ASSERT (negb (Nat.eqb (length ll) 0))); cbn [bind];
      [|reflexivity].
    rewrite Hl. destruct (count_leaves use_count false ll marked _).
    cbn [bind]. destruct st; [reflexivity|apply IH].
Qed.

Lemma stats_pass_unshared (lo : bool) (maps : list sharing_mapt)
  (marked : list ptr) :
  (forall a, use_count a < 2) ->
  stats_pass use_count maps lo true marked =
  stats_pass use_count maps lo false marked.
Proof.
  intros Hu. unfold stats_pass. generalize (0, marked).
  induction maps as [|sm maps IH]; intros [t m]; cbn [for_each];
    [reflexivity|].
  unfold count_unmarked_nodes at 1 3.
  rewrite (count_unmarked_loop_unshared lo Hu).
  destruct (if empty sm then Ok (0, m) else _) as [[c m']|]; cbn [bind];
    [apply IH|reflexivity].
Qed.

End Stats.

Section StatsProperties.
Context {params : sharing_map_params}.

(** X19.  [get_sharing_stats] on well formed maps whose nodes and leaves can
    be counted in an [unsigned] returns, and its internal checks hold:
    [num_nodes] is the number of nodes and leaves of all the maps, [num_leafs]
    the sum of their sizes, and the unique counts are not larger than the
    total counts. *)
Theorem sharing_stats_counts (use_count : ptr -> N)
  (maps : list sharing_mapt) :
  Forall wf_map maps ->
  maps_weight false maps < unsigned_modulus ->
  exists stats,
    get_sharing_stats use_count maps = Ok stats /\
    num_nodes stats = maps_weight false maps /\
    num_leafs stats = fold_right (fun sm t => size sm + t) 0 maps /\
    num_unique_nodes stats <= num_nodes stats /\
    num_unique_leafs stats <= num_leafs stats.
Proof.
  intros Hwf Hw. pose proof (maps_weight_le maps) as Hle.
  unfold get_sharing_stats.
  destruct (stats_pass_ok use_count false false maps [] Hwf)
    as (n1 & m1 & -> & _ & Hm1 & Hn1); [lia|].
  rewrite (Hm1 eq_refl), (Hn1 eq_refl eq_refl). cbn [bind length Nat.eqb].
  rewrite SM_ASSERT_true. cbn [bind].
  destruct (stats_pass_ok use_count false true maps [] Hwf)
    as (n2 & m2 & -> & Hn2 & _); [lia|].
  cbn [bind].
  destruct (stats_pass_ok use_count true false maps [] Hwf)
    as (n3 & m3 & -> & _ & Hm3 & Hn3); [lia|].
  rewrite (Hm3 eq_refl), (Hn3 eq_refl eq_refl). cbn [bind length Nat.eqb].
  rewrite SM_ASSERT_true. cbn [bind].
  destruct (stats_pass_ok use_count true true maps [] Hwf)
    as (n4 & m4 & -> & Hn4 & _); [lia|].
  cbn [bind]. eexists. split; [reflexivity|].
  cbn [num_nodes num_leafs num_unique_nodes num_unique_leafs].
  rewrite <- (maps_weight_leaves maps Hwf). repeat split; lia.
Qed.

(** X20.  If no allocation has more than one user, the unique counts of
    [get_sharing_stats] are the total counts. *)
Theorem sharing_stats_unshared (use_count : ptr -> N)
  (maps : list sharing_mapt) :
  Forall wf_map maps ->
  maps_weight false maps < unsigned_modulus ->
  (forall a, use_count a < 2) ->
  exists stats,
    get_sharing_stats use_count maps = Ok stats /\
    num_unique_nodes stats = num_nodes stats /\
    num_unique_leafs stats = num_leafs stats.
Proof.
  intros Hwf Hw Hu. pose proof (maps_weight_le maps) as Hle.
  unfold get_sharing_stats.
  destruct (stats_pass_ok use_count false false maps [] Hwf)
    as (n1 & m1 & H1 & _ & Hm1 & _); [lia|].
  specialize (Hm1 eq_refl). subst m1.
  rewrite H1. cbn [bind length Nat.eqb]. rewrite SM_ASSERT_true. cbn [bind].
  rewrite (stats_pass_unshared use_count _ maps _ Hu), H1. cbn [bind].
  destruct (stats_pass_ok use_count true false maps [] Hwf)
    as (n3 & m3 & H3 & _ & Hm3 & _); [lia|].
  specialize (Hm3 eq_refl). subst m3.
  rewrite H3. cbn [bind length Nat.eqb]. rewrite SM_ASSERT_true. cbn [bind].
  rewrite (stats_pass_unshared use_count _ maps _ Hu), H3. cbn [bind].
  eexists. split; [reflexivity|]. split; reflexivity.
Qed.

End StatsProperties.

Section StatsCopy.
Context {params : sharing_map_params}.
Variable use_count : ptr -> N.

Lemma addresses_internal (a : ptr) (m : to_mapt) :
  addresses (Internal a m) = a :: flat_map addresses (List.map snd m).
Proof.
  cbn [addresses]. f_equal.
  induction m as [|[i c] m IH]; [reflexivity|].
  cbn [List.map snd flat_map]. rewrite <- IH. reflexivity.
Qed.

Lemma marked_find_false (p : ptr) (marked : list ptr) :
  ~ In p marked -> marked_find p marked = false.
Proof.
  intros H. unfold marked_find. destruct (existsb (N.eqb p) marked) eqn:E;
    [|reflexivity].
  apply existsb_exists in E. destruct E as (x & Hx & Hpx).
  apply N.eqb_eq in Hpx. subst x. contradiction.
Qed.

Lemma marked_find_true (p : ptr) (marked : list ptr) :
  In p marked -> marked_find p marked = true.
Proof.
  intros H. unfold marked_find. apply existsb_exists. exists p.
  split; [exact H|apply N.eqb_refl].
Qed.

(** The visit of an allocation that is not marked, when marking. *)
Lemma visit_unmarked (p : ptr) (marked : list ptr) :
  ~ In p marked ->
  exists marked',
    visit_marked use_count true p marked = (false, marked') /\
    forall x, In x marked' <-> In x marked \/ (x = p /\ 2 <= use_count p).
Proof.
  intros Hp. unfold visit_marked, marked_insert.
  rewrite (marked_find_false _ _ Hp).
  destruct (N.leb_spec 2 (use_count p)) as [Hle|Hlt].
  - exists (p :: marked). split; [reflexivity|].
    intros x. cbn [In]. split.
    + intros [<-|H]; auto.
    + intros [H|[-> _]]; auto.
  - exists marked. split; [reflexivity|].
    intros x. split; [auto|]. intros [H|[_ H]]; [exact H|lia].
Qed.

Lemma count_leaves_marking :
  forall ll marked count,
    NoDup (List.map leaf_data ll) ->
    (forall p, In p (List.map leaf_data ll) -> ~ In p marked) ->
    count + N.of_nat (length ll) < unsigned_modulus ->
    exists marked',
      count_leaves use_count true ll marked count =
      (marked', count + N.of_nat (length ll)) /\
      forall x, In x marked' <->
                In x marked \/
                (In x (List.map leaf_data ll) /\ 2 <= use_count x).
Proof.
  unfold count_leaves.
  induction ll as [|l ll IH]; intros marked count Hnd Hdis Hc;
    cbn [fold_left length List.map] in *.
  - exists marked. rewrite N.add_0_r. split; [reflexivity|].
    intros x. cbn [In]. tauto.
  - apply NoDup_cons_iff in Hnd. destruct Hnd as [Hl Hnd].
    destruct (visit_unmarked (leaf_data l) marked) as (marked1 & -> & Hm1).
    { apply Hdis. left. reflexivity. }
    rewrite unsigned_incr_small by lia.
    destruct (IH marked1 (count + 1) Hnd) as (marked' & -> & Hm'); [|lia|].
    { intros p Hp Hin. apply Hm1 in Hin. destruct Hin as [Hin|[-> _]].
      - apply (Hdis p); [right; exact Hp|exact Hin].
      - contradiction. }
    exists marked'. split; [f_equal; lia|].
    intros x. rewrite Hm', Hm1. cbn [In]. split.
    + intros [[H|[-> H]]|[H1 H2]]; auto.
    + intros [H|[[<-|H1] H2]]; auto.
Qed.

Lemma NoDup_app_disjoint {X : Type} (l1 l2 : list X) (x : X) :
  NoDup (l1 ++ l2) -> In x l1 -> In x l2 -> False.
Proof.
  induction l1 as [|y l1 IH]; intros Hnd H1 H2; [destruct H1|].
  cbn [app] in Hnd. apply NoDup_cons_iff in Hnd. destruct Hnd as [Hy Hnd].
  destruct H1 as [->|H1]; [|auto].
  apply Hy. apply in_or_app. auto.
Qed.

Lemma flat_map_addresses_rev (s : list innert) (p : ptr) :
  In p (flat_map addresses (rev s)) <-> In p (flat_map addresses s).
Proof.
  rewrite !in_flat_map. split; intros (x & Hx & Hp); exists x;
    (split; [|exact Hp]); [apply in_rev; exact Hx|apply in_rev in Hx; exact Hx].
Qed.

Lemma NoDup_addresses_rev (s st : list innert) :
  NoDup (flat_map addresses s ++ flat_map addresses st) ->
  NoDup (flat_map addresses (rev s ++ st)).
Proof.
  intros H. rewrite flat_map_app.
  eapply Permutation_NoDup; [|exact H].
  apply Permutation_app_tail. apply Permutation_flat_map.
  apply Permutation_rev.
Qed.

(** On a stack of well formed nodes whose allocations are pairwise
    distinct and not marked, the marking traversal counts every node and
    leaf, and marks those with more than one user. *)
Lemma count_unmarked_loop_marking (lo : bool) :
  forall fuel stack marked count,
    stack <> [] -> Forall wf_some stack ->
    (count_nodes stack <= fuel)%nat ->
    count + stack_weight lo stack < unsigned_modulus ->
    NoDup (flat_map addresses stack) ->
    (forall p, In p (flat_map addresses stack) -> ~ In p marked) ->
    exists marked',
      count_unmarked_loop fuel use_count lo true stack marked count =
      Ok (count + stack_weight lo stack, marked') /\
      forall x, In x marked' <->
                In x marked \/
                (In x (flat_map addresses stack) /\ 2 <= use_count x).
Proof.
  induction fuel as [|fuel IH];
    intros stack marked count Hne Hwf Hfuel Hc Hnd Hdis.
  - destruct stack as [|ip stack]; [congruence|].
    unfold count_nodes in Hfuel. simpl in Hfuel.
    pose proof (node_count_pos ip). lia.
  - destruct stack as [|ip stack]; [congruence|].
    apply Forall_cons_iff in Hwf. destruct Hwf as [(rem & d & Hip) Hwf].
    change (count_nodes (ip :: stack)) with
      (node_count ip + count_nodes stack)%nat in Hfuel.
    change (stack_weight lo (ip :: stack)) with
      (node_weight lo ip + stack_weight lo stack) in Hc |- *.
    pose proof (node_count_pos ip) as Hpos.
    cbn [count_unmarked_loop]. cbn [flat_map] in Hnd, Hdis |- *.
    destruct ip as [|q m|q ll].
    + destruct (wf_node_empty _ _ Hip).
    + apply wf_node_internal in Hip. destruct Hip as (rem' & -> & Hm & Hch).
      rewrite addresses_internal in Hnd, Hdis |- *.
      cbn [app] in Hnd, Hdis |- *.
      apply NoDup_cons_iff in Hnd. destruct Hnd as [Hq Hnd].
      cbn [data_of bind].
      destruct (visit_unmarked q marked) as (marked1 & -> & Hm1).
      { apply Hdis. left. reflexivity. }
      cbn [is_internal is_empty negb get_to_map].
      rewrite SM_ASSERT_true. cbn [bind].
      assert (Hlen : negb (Nat.eqb (length m) 0) = true)
        by (destruct m; [congruence|reflexivity]).
      rewrite Hlen, SM_ASSERT_true. cbn [bind].
      fold (push_children m stack). rewrite push_children_eq.
      rewrite stack_weight_children in Hc |- *.
      rewrite node_count_internal in Hfuel.
      assert (Hne' : rev (List.map snd m) ++ stack <> []).
      { destruct m as [|x m]; [congruence|]. simpl.
        intros H. apply app_eq_nil in H. destruct H as [H _].
        apply app_eq_nil in H. destruct H. discriminate. }
      assert (Hcnt : (if negb lo then unsigned_incr count else count) =
                     count + (if lo then 0 else 1)).
      { destruct lo; cbn [negb]; [lia|].
        apply unsigned_incr_small. lia. }
      rewrite Hcnt.
      assert (Hmem : forall p,
                 In p (flat_map addresses (rev (List.map snd m) ++ stack)) <->
                 In p (flat_map addresses (List.map snd m) ++
                       flat_map addresses stack)).
      { intros p. rewrite flat_map_app, !in_app_iff, flat_map_addresses_rev.
        reflexivity. }
      destruct (IH (rev (List.map snd m) ++ stack) marked1
                  (count + (if lo then 0 else 1)))
        as (marked' & Hrun & Hm').
      * exact Hne'.
      * apply Forall_app. split; [|exact Hwf].
        eapply wf_children_some; [|exact Hch]. intros x Hx. red. eauto.
      * rewrite count_nodes_app, count_nodes_rev. lia.
      * rewrite stack_weight_app, stack_weight_rev. lia.
      * apply NoDup_addresses_rev. exact Hnd.
      * intros p Hp Hin. apply Hmem in Hp. apply Hm1 in Hin.
        destruct Hin as [Hin|[-> _]].
        -- apply (Hdis p); [right; exact Hp|exact Hin].
        -- contradiction.
      * exists marked'. rewrite stack_weight_app, stack_weight_rev in Hrun.
        destruct (rev (List.map snd m) ++ stack) as [|x st] eqn:E;
          [congruence|].
        rewrite Hrun. split; [f_equal; f_equal; lia|].
        intros x0. rewrite Hm', Hm1, Hmem. cbn [In]. split.
        -- intros [[H|[-> H]]|[H1 H2]]; auto.
        -- intros [H|[[<-|H1] H2]]; auto.
    + apply wf_node_container in Hip. destruct Hip as (Hll & _).
      cbn [addresses app] in Hnd, Hdis |- *.
      apply NoDup_cons_iff in Hnd. destruct Hnd as [Hq Hnd].
      cbn [data_of bind].
      destruct (visit_unmarked q marked) as (marked1 & -> & Hm1).
      { apply Hdis. left. reflexivity. }
      cbn [is_internal is_defined_container is_empty is_container negb andb
             get_container].
      rewrite SM_ASSERT_true. cbn [bind].
      assert (Hlen : negb (Nat.eqb (length ll) 0) = true)
        by (destruct ll; [congruence|reflexivity]).
      rewrite Hlen, SM_ASSERT_true. cbn [bind].
      unfold node_weight in Hc |- *. cbn [node_count iter_leaves] in Hc |- *.
      assert (Hcnt : (if negb lo then unsigned_incr count else count) =
                     count + (if lo then 0 else 1)).
      { destruct lo; cbn [negb]; [lia|].
        apply unsigned_incr_small. lia. }
      rewrite Hcnt.
      destruct (count_leaves_marking ll marked1
                  (count + (if lo then 0 else 1)))
        as (marked2 & Hcl & Hm2).
      * apply NoDup_app_remove_r in Hnd. exact Hnd.
      * intros p Hp Hin. apply Hm1 in Hin. destruct Hin as [Hin|[-> _]].
        -- apply (Hdis p); [right; apply in_or_app; auto|exact Hin].
        -- apply Hq. apply in_or_app. auto.
      * destruct lo; lia.
      * rewrite Hcl. cbn [bind].
        assert (Hm2' : forall x,
                   In x marked2 <->
                   In x marked \/
                   (In x (q :: List.map leaf_data ll) /\ 2 <= use_count x)).
        { intros x. rewrite Hm2, Hm1. cbn [In]. split.
          - intros [[H|[-> H]]|[H1 H2]]; auto.
          - intros [H|[[<-|H1] H2]]; auto. }
        destruct stack as [|x st].
        -- exists marked2. cbn [stack_weight fold_right flat_map].
           split; [f_equal; f_equal; destruct lo; lia|].
           intros x. rewrite Hm2', app_nil_r. reflexivity.
        -- destruct (IH (x :: st) marked2
                       (count + (if lo then 0 else 1) + N.of_nat (length ll)))
             as (marked' & Hrun & Hm').
           ++ discriminate.
           ++ exact Hwf.
           ++ lia.
           ++ destruct lo; lia.
           ++ apply NoDup_app_remove_l in Hnd. exact Hnd.
           ++ intros p Hp Hin. apply Hm2' in Hin.
              destruct Hin as [Hin|[[<-|Hin] _]].
              ** apply (Hdis p); [right; apply in_or_app; auto|exact Hin].
              ** apply Hq. apply in_or_app. auto.
              ** apply (NoDup_app_disjoint _ _ p Hnd Hin Hp).
           ++ exists marked'. rewrite Hrun.
              split; [f_equal; f_equal; destruct lo; lia|].
              intros y. rewrite Hm', Hm2'. cbn [In]. rewrite !in_app_iff.
              cbn [In]. tauto.
Qed.

Lemma count_unmarked_nodes_marking (lo : bool) (sm : sharing_mapt) :
  wf_map sm -> NoDup (addresses (map sm)) ->
  (forall p, data_of (map sm) = Some p -> 2 <= use_count p) ->
  map_weight lo sm < unsigned_modulus ->
  exists marked',
    count_unmarked_nodes use_count sm lo [] true =
    Ok (map_weight lo sm, marked') /\
    count_unmarked_nodes use_count sm lo marked' true = Ok (0, marked').
Proof.
  intros Hwf Hnd Hroot Hw. unfold count_unmarked_nodes, map_weight in *.
  destruct (empty sm) eqn:He; [exists []; auto|].
  destruct (wf_map_root_node _ Hwf He) as (q & m & Hm & Hn).
  destruct (count_unmarked_loop_marking lo (node_count (map sm)) [map sm] [] 0)
    as (marked' & Hrun & Hm').
  - discriminate.
  - constructor; [|constructor]. rewrite Hm. red. eauto.
  - unfold count_nodes. simpl. lia.
  - cbn [stack_weight fold_right]. lia.
  - cbn [flat_map]. rewrite app_nil_r. exact Hnd.
  - intros p _ [].
  - cbn [stack_weight fold_right] in Hrun. rewrite N.add_0_r in Hrun.
    exists marked'. split; [exact Hrun|].
    assert (Hq : In q marked').
    { apply Hm'. right. cbn [flat_map]. rewrite app_nil_r, Hm.
      split; [rewrite addresses_internal; left; reflexivity|].
      apply Hroot. rewrite Hm. reflexivity. }
    assert (Hu : 2 <= use_count q) by (apply Hroot; rewrite Hm; reflexivity).
    rewrite Hm. pose proof (node_count_pos (Internal q m)) as Hpos.
    destruct (node_count (Internal q m)) as [|fuel]; [lia|].
    cbn [count_unmarked_loop data_of bind]. unfold visit_marked.
    apply N.leb_le in Hu. rewrite Hu, (marked_find_true _ _ Hq).
    reflexivity.
Qed.

Lemma stats_pass_copy (lo : bool) (sm : sharing_mapt) :
  wf_map sm -> NoDup (addresses (map sm)) ->
  (forall p, data_of (map sm) = Some p -> 2 <= use_count p) ->
  map_weight lo sm < unsigned_modulus ->
  exists marked',
    stats_pass use_count [sm; sm] lo true [] = Ok (map_weight lo sm, marked').
Proof.
  intros Hwf Hnd Hroot Hw.
  destruct (count_unmarked_nodes_marking lo sm Hwf Hnd Hroot Hw)
    as (marked' & H1 & H2).
  exists marked'. unfold stats_pass. cbn [for_each]. rewrite H1. cbn [bind].
  rewrite H2. cbn [bind].
  assert (Hlt : map_weight lo sm < size_t_modulus).
  { unfold size_t_modulus, unsigned_modulus in *.
    assert (2 ^ 32 < 2 ^ 64) by reflexivity. lia. }
  rewrite N.add_0_l, N.add_0_r, (N.mod_small _ _ Hlt), (N.mod_small _ _ Hlt).
  reflexivity.
Qed.

End StatsCopy.

Section StatsCopyProperties.
Context {params : sharing_map_params}.

(** X21.  [get_sharing_stats] on a map and a copy of it, whose root therefore
    has two users: every node and leaf is counted twice in the total counts
    and once in the unique counts. *)
Theorem sharing_stats_of_copy (use_count : ptr -> N) (sm : sharing_mapt) :
  wf_map sm ->
  NoDup (addresses (map sm)) ->
  (forall p, data_of (map sm) = Some p -> 2 <= use_count p) ->
  2 * map_weight false sm < unsigned_modulus ->
  get_sharing_stats use_count [sm; clone sm] =
  Ok (mk_sharing_map_stats (2 * map_weight false sm) (map_weight false sm)
        (2 * size sm) (size sm)).
Proof.
  intros Hwf Hnd Hroot Hw. rewrite clone_eq.
  assert (Hle : map_weight true sm <= map_weight false sm).
  { unfold map_weight, node_weight. destruct (empty sm); lia. }
  assert (Hwf2 : Forall wf_map [sm; sm])
    by (constructor; [exact Hwf|constructor; [exact Hwf|constructor]]).
  unfold get_sharing_stats.
  destruct (stats_pass_ok use_count false false [sm; sm] [] Hwf2)
    as (n1 & m1 & -> & _ & Hm1 & Hn1);
    [cbn [maps_weight fold_right]; lia|].
  rewrite (Hm1 eq_refl), (Hn1 eq_refl eq_refl). cbn [bind length Nat.eqb].
  rewrite SM_ASSERT_true. cbn [bind].
  destruct (stats_pass_copy use_count false sm Hwf Hnd Hroot) as (m2 & ->);
    [lia|].
  cbn [bind].
  destruct (stats_pass_ok use_count true false [sm; sm] [] Hwf2)
    as (n3 & m3 & -> & _ & Hm3 & Hn3);
    [cbn [maps_weight fold_right]; lia|].
  rewrite (Hm3 eq_refl), (Hn3 eq_refl eq_refl). cbn [bind length Nat.eqb].
  rewrite SM_ASSERT_true. cbn [bind].
  destruct (stats_pass_copy use_count true sm Hwf Hnd Hroot) as (m4 & ->);
    [lia|].
  cbn [bind maps_weight fold_right].
  rewrite (map_weight_leaves _ Hwf). do 2 f_equal; lia.
Qed.

End StatsCopyProperties.

(** ** Order of views, order of insertions and the height of the trie *)

Section ViewOrder.
Context {params : sharing_map_params}.

(** X22.  [insert] does not reorder a view: the view of the map after the call
    is the view before it with the new item put in at some place. *)
Theorem get_view_after_insert (nx : ptr) (k : keyT) (v : valueT)
  (sm : sharing_mapt) :
  wf_map sm ->
  has_key sm k = Ok false ->
  size sm + 1 < size_t_modulus ->
  exists sm' pre post,
    insert nx k v sm = Ok sm' /\
    get_view sm [] = Ok (pre ++ post) /\
    get_view sm' [] = Ok (pre ++ (k, v) :: post).
Proof.
  intros Hwf Hk Hnum. apply (has_key_false _ _ Hwf) in Hk.
  destruct (insert_spec nx k v sm Hwf Hk Hnum)
    as (sm' & Hrun & Hwf' & (pre & post & la & HL & HL') & _).
  exists sm', (List.map view_item pre), (List.map view_item post).
  split; [exact Hrun|].
  rewrite (get_view_spec _ Hwf), (get_view_spec _ Hwf'), HL, HL', !map_app.
  split; reflexivity.
Qed.

(** X23.  [erase] does not reorder a view: the view of the map after the call
    is the view before it without the item of the erased key. *)
Theorem get_view_after_erase (nx : ptr) (k : keyT) (v : valueT)
  (sm : sharing_mapt) :
  wf_map sm ->
  find sm k = Ok (Some v) ->
  exists sm' pre post,
    erase nx k sm = Ok sm' /\
    get_view sm [] = Ok (pre ++ (k, v) :: post) /\
    get_view sm' [] = Ok (pre ++ post).
Proof.
  intros Hwf Hfind.
  destruct (find_some_leaf _ _ _ Hwf Hfind) as (l0 & Hl0 & <-).
  destruct (erase_spec nx k sm l0 Hwf Hl0)
    as (sm' & Hrun & Hwf' & (pre & post & l & HL & HL' & Hkl & Hpre & _) & _).
  assert (l = l0).
  { rewrite HL, find_k_app, Hpre in Hl0. unfold find_k in Hl0.
    cbn [List.find] in Hl0. rewrite Hkl, equalT_refl in Hl0. congruence. }
  subst l0.
  exists sm', (List.map view_item pre), (List.map view_item post).
  split; [exact Hrun|].
  rewrite (get_view_spec _ Hwf), (get_view_spec _ Hwf'), HL, HL', !map_app.
  cbn [List.map]. unfold view_item at 2. rewrite Hkl. split; reflexivity.
Qed.

(** X24.  [replace] changes a view in place: the item of the key carries the
    new value, all other items stay where they are. *)
Theorem get_view_after_replace (nx : ptr) (k : keyT) (v old : valueT)
  (sm : sharing_mapt) :
  wf_map sm ->
  find sm k = Ok (Some old) ->
  value_equalt old v = false ->
  exists sm' pre post,
    replace nx k v sm = Ok sm' /\
    get_view sm [] = Ok (pre ++ (k, old) :: post) /\
    get_view sm' [] = Ok (pre ++ (k, v) :: post).
Proof.
  intros Hwf Hfind Hneq.
  destruct (find_some_leaf _ _ _ Hwf Hfind) as (l0 & Hl0 & <-).
  pose proof (replace_spec nx k v sm l0 Hwf Hl0) as H. rewrite Hneq in H.
  destruct H as (sm' & Hrun & Hwf' & _ & (pre & post & l & HL & HL' & Hkl & Hpre)).
  assert (l = l0).
  { rewrite HL, find_k_app, Hpre in Hl0. unfold find_k in Hl0.
    cbn [List.find] in Hl0. rewrite Hkl, equalT_refl in Hl0. congruence. }
  subst l0.
  exists sm', (List.map view_item pre), (List.map view_item post).
  split; [exact Hrun|].
  rewrite (get_view_spec _ Hwf), (get_view_spec _ Hwf'), HL, HL', !map_app.
  cbn [List.map]. unfold view_item at 2 5. cbn [get_key get_value].
  rewrite Hkl. split; reflexivity.
Qed.

(** X25.  Two insertions of different keys commute: in either order both calls
    succeed, and the resulting maps have the same size and answer [find]
    alike. *)
Theorem insert_commute (nx1 nx2 nx3 nx4 : ptr) (k1 k2 : keyT)
  (v1 v2 : valueT) (sm : sharing_mapt) :
  wf_map sm ->
  k1 <> k2 ->
  has_key sm k1 = Ok false ->
  has_key sm k2 = Ok false ->
  size sm + 2 < size_t_modulus ->
  exists a b a' b',
    insert nx1 k1 v1 sm = Ok a /\ insert nx2 k2 v2 a = Ok b /\
    insert nx3 k2 v2 sm = Ok a' /\ insert nx4 k1 v1 a' = Ok b' /\
    size b = size b' /\
    forall k, find b k = find b' k.
Proof.
  intros Hwf Hne H1 H2 Hnum. unfold size in *.
  apply (has_key_false _ _ Hwf) in H1, H2.
  destruct (insert_spec nx1 k1 v1 sm Hwf H1) as (a & Ha & Hwa & Hadd1 & Hna);
    [lia|].
  destruct (insert_spec nx3 k2 v2 sm Hwf H2) as (a' & Ha' & Hwa' & Hadd2 & Hna');
    [lia|].
  destruct (find_added sm a k1 v1 Hwf Hwa H1 Hadd1) as [Fa1 Fa2].
  destruct (find_added sm a' k2 v2 Hwf Hwa' H2 Hadd2) as [Fa'1 Fa'2].
  assert (H2a : find_k k2 (iter_leaves (map a)) = None).
  { rewrite (added_find_other _ _ _ _ _ Hadd1 (not_eq_sym Hne)). exact H2. }
  assert (H1a : find_k k1 (iter_leaves (map a')) = None).
  { rewrite (added_find_other _ _ _ _ _ Hadd2 Hne). exact H1. }
  destruct (insert_spec nx2 k2 v2 a Hwa H2a) as (b & Hb & Hwb & Hadd3 & Hnb);
    [lia|].
  destruct (insert_spec nx4 k1 v1 a' Hwa' H1a)
    as (b' & Hb' & Hwb' & Hadd4 & Hnb'); [lia|].
  destruct (find_added a b k2 v2 Hwa Hwb H2a Hadd3) as [Fb1 Fb2].
  destruct (find_added a' b' k1 v1 Hwa' Hwb' H1a Hadd4) as [Fb'1 Fb'2].
  exists a, b, a', b'. repeat (split; [assumption|]).
  split; [lia|]. intros k.
  destruct (key_eq_dec k k1) as [->|Hk1].
  - rewrite (Fb2 k1 Hne), Fa1, Fb'1. reflexivity.
  - destruct (key_eq_dec k k2) as [->|Hk2].
    + rewrite Fb1, (Fb'2 k2 Hk1), Fa'1. reflexivity.
    + rewrite (Fb2 k Hk2), (Fa2 k Hk1), (Fb'2 k Hk1), (Fa'2 k Hk2).
      reflexivity.
Qed.

Lemma height_children (q : ptr) (m : to_mapt) (b : nat) :
  Forall (fun x => (height (snd x) <= b)%nat) m ->
  (height (Internal q m) <= S b)%nat.
Proof.
  intros H. cbn [height]. apply le_n_S.
  induction H as [|[i c] m Hc Hm IH]; [apply Nat.le_0_l|].
  cbn [snd] in Hc. apply Nat.max_lub; assumption.
Qed.

Lemma wf_node_height :
  forall rem d n, wf_node rem d n -> (height n <= rem)%nat.
Proof.
  induction rem as [|rem IH]; intros d [|q m|q ll] H;
    try apply Nat.le_0_l.
  - destruct H.
  - apply wf_node_internal in H. destruct H as (rem' & [= <-] & _ & _ & H).
    apply height_children. eapply Forall_impl; [|exact H].
    intros x [Hx _]. apply (IH _ _ Hx).
Qed.

(** X26.  The trie has a fixed height: after any sequence of [insert] and
    [erase] calls on a new map, each respecting its precondition, no leaf is
    more than [levels] steps below the root. *)
Theorem trie_height_bounded (ops : list operation) (nx : ptr) :
  respects_preconditions ops [] = true ->
  N.of_nat (length ops) < size_t_modulus ->
  exists sm,
    run ops nx new_map = Ok sm /\
    (height (map sm) <= N.to_nat levels)%nat.
Proof.
  intros Hpre Hlen.
  destruct (run_spec ops nx new_map [] wf_map_new) as (sm & Hrun & Hwf & _);
    [reflexivity|exact Hpre|exact Hlen|].
  exists sm. split; [exact Hrun|].
  destruct Hwf as (Hr & _). destruct (map sm) as [|q m|q ll];
    cbn [wf_root] in Hr; [apply Nat.le_0_l| |destruct Hr].
  change (N.to_nat levels) with (S (N.to_nat levels - 1)).
  apply height_children. destruct Hr as [_ Hr].
  eapply Forall_impl; [|exact Hr].
  intros x [Hx _]. apply (wf_node_height _ _ _ Hx).
Qed.

End ViewOrder.

(** ** Examples *)

Section Examples.

Lemma wf_sm_5_5 (P : sharing_map_params) (five : @keyT P) (v : @valueT P) :
  @hash P five = 5 -> @wf_map P (sm_single 5 five v).
Proof.
  intros Hh. split; [|split; reflexivity].
  split; [repeat constructor|].
  constructor; [|constructor]. split.
  - cbn. split; [discriminate|]. split; [|reflexivity].
    repeat constructor. simpl. tauto.
  - constructor; [|constructor]. cbn [get_key]. unfold chunk_of. rewrite Hh.
    reflexivity.
Qed.

(** C1: the defect of [add_item_if_not_shared].  [A] holds key [0]; [B]
    holds keys [64] and [8], whose hash values share the first chunk with
    that of [0].  With [only_common = true], [A.get_delta_view(B)] yields an
    item for key [0], which [B] does not hold. *)
Theorem delta_view_only_common_defect :
  exists A B : @sharing_mapt P_checked,
    @run P_checked [@Insert P_checked 0 10] 100 (@new_map P_checked) = Ok A /\
    @run P_checked [@Insert P_checked 64 11; @Insert P_checked 8 12] 200
      (@new_map P_checked) = Ok B /\
    @get_delta_view P_checked A B [] true =
    Ok [@mk_delta_view_item P_checked 0 10 None] /\
    @has_key P_checked B 0 = Ok false.
Proof. do 2 eexists. repeat split; vm_compute; reflexivity. Qed.

(** C7: without [SM_INTERNAL_CHECKS] a call with a non-empty output
    sequence is not a violation; the items are appended. *)
Lemma view_buffer_not_checked_by_default :
  exists sm : @sharing_mapt P_default,
    @run P_default [@Insert P_default 1 10] 100 (@new_map P_default) = Ok sm /\
    @get_view P_default sm [(7, 7)] = Ok [(7, 7); (1, 10)] /\
    @get_delta_view P_default sm (@new_map P_default)
      [@mk_delta_view_item P_default 7 7 None] false =
    Ok [@mk_delta_view_item P_default 7 7 None;
        @mk_delta_view_item P_default 1 10 None].
Proof. eexists. repeat split; vm_compute; reflexivity. Qed.

Lemma view_buffer_misuse_witness :
  [(7, 7)] <> [] /\ [@mk_delta_view_item P_checked 7 7 None] <> [] /\
  @get_view P_checked (@new_map P_checked) [(7, 7)] =
  Fail invariant_violation /\
  @get_delta_view P_checked (@new_map P_checked) (@new_map P_checked)
    [@mk_delta_view_item P_checked 7 7 None] true = Fail invariant_violation.
Proof.
  split; [discriminate|]. split; [discriminate|].
  apply (@view_buffer_misuse P_checked (@new_map P_checked) (@new_map P_checked)
           [(7, 7)] [@mk_delta_view_item P_checked 7 7 None] true);
    discriminate.
Defined.

Lemma size_counts_live_keys_witness :
  @respects_preconditions P_checked ops_example [] = true /\
  N.of_nat (length ops_example) < size_t_modulus /\
  exists sm,
    @run P_checked ops_example 100 (@new_map P_checked) = Ok sm /\
    @size P_checked sm =
    N.of_nat (length (@live_keys P_checked ops_example [])) /\
    NoDup (@live_keys P_checked ops_example []) /\
    forall k, @has_key P_checked sm k =
              Ok (@key_in P_checked k (@live_keys P_checked ops_example [])).
Proof.
  split; [reflexivity|]. split; [reflexivity|].
  apply (@size_counts_live_keys P_checked ops_example 100); reflexivity.
Defined.

Lemma insert_then_erase_witness :
  @wf_map P_checked (@sm_single P_checked 5 5 5) /\
  @has_key P_checked (@sm_single P_checked 5 5 5) 13 = Ok false /\
  @num P_checked (@sm_single P_checked 5 5 5) + 1 < size_t_modulus /\
  exists sm1 sm2,
    @insert P_checked 200 13 7 (@sm_single P_checked 5 5 5) = Ok sm1 /\
    @erase P_checked 300 13 sm1 = Ok sm2 /\
    (forall k', @find P_checked sm2 k' = @find P_checked (@sm_single P_checked 5 5 5) k') /\
    @size P_checked sm2 = @size P_checked (@sm_single P_checked 5 5 5) /\
    @get_view P_checked sm2 [] = @get_view P_checked (@sm_single P_checked 5 5 5) [].
Proof.
  split; [apply (wf_sm_5_5 P_checked); reflexivity|].
  split; [reflexivity|]. split; [reflexivity|].
  apply (@insert_then_erase P_checked 200 300 13 7 (@sm_single P_checked 5 5 5));
    [apply (wf_sm_5_5 P_checked); reflexivity|reflexivity|reflexivity].
Defined.

Lemma colliding_keys_are_chained_witness :
  @wf_map P_collide (@new_map P_collide) /\ (1 : N) <> 2 /\
  @hash P_collide 1 = @hash P_collide 2 /\
  @has_key P_collide (@new_map P_collide) 1 = Ok false /\
  @has_key P_collide (@new_map P_collide) 2 = Ok false /\
  @num P_collide (@new_map P_collide) + 2 < size_t_modulus /\
  exists sm1 sm2 sm3,
    @insert P_collide 100 1 10 (@new_map P_collide) = Ok sm1 /\
    @insert P_collide 200 2 20 sm1 = Ok sm2 /\
    @find P_collide sm2 1 = Ok (Some 10) /\
    @find P_collide sm2 2 = Ok (Some 20) /\
    @erase P_collide 300 1 sm2 = Ok sm3 /\
    @find P_collide sm3 2 = Ok (Some 20) /\
    @find P_collide sm3 1 = Ok None.
Proof.
  split; [repeat split|]. split; [discriminate|]. split; [reflexivity|].
  split; [reflexivity|]. split; [reflexivity|]. split; [reflexivity|].
  apply (@colliding_keys_are_chained P_collide 100 200 300 1 2 10 20
           (@new_map P_collide));
    [repeat split|discriminate|reflexivity|reflexivity|reflexivity|reflexivity].
Defined.

Lemma replace_update_fail_if_equal_witness :
  @wf_map P_debug (@sm_single P_debug 5 5 5) /\
  @find P_debug (@sm_single P_debug 5 5 5) 5 = Ok (Some 5) /\
  @replace P_debug 200 5 5 (@sm_single P_debug 5 5 5) = Fail invariant_violation /\
  exists sm',
    @update P_debug 200 5 (fun v => v + 1) (@sm_single P_debug 5 5 5) = Ok sm' /\
    @find P_debug sm' 5 = Ok (Some 6).
Proof.
  split; [apply (wf_sm_5_5 P_debug); reflexivity|]. split; [reflexivity|].
  apply (@replace_update_fail_if_equal P_debug 200 5 5 (fun v => v + 1)
           (@sm_single P_debug 5 5 5) 5);
    [apply (wf_sm_5_5 P_debug); reflexivity|reflexivity].
Defined.

(** Scenario 6 of the documentation, with and without [fail_if_equal]. *)
Example fail_if_equal_trap :
  @replace P_debug 200 5 5 (@sm_single P_debug 5 5 5) = Fail invariant_violation /\
  (exists sm', @replace P_debug 200 5 6 (@sm_single P_debug 5 5 5) = Ok sm' /\
               @find P_debug sm' 5 = Ok (Some 6)) /\
  (exists sm', @replace P_default 200 5 5 (@sm_single P_default 5 5 5) = Ok sm' /\
               @find P_default sm' 5 = Ok (Some 5)).
Proof.
  split; [reflexivity|]. split; eexists; split; vm_compute; reflexivity.
Qed.

(** Scenario 1 of the documentation. *)
Example insert_erase_round_trip :
  exists sm1 sm2 : @sharing_mapt P_checked,
    @run P_checked
      [@Insert P_checked 120 1; @Insert P_checked 121 2; @Insert P_checked 122 3]
      100 (@new_map P_checked) = Ok sm1 /\
    @size P_checked sm1 = 3 /\ @find P_checked sm1 121 = Ok (Some 2) /\
    @run P_checked [@Erase P_checked 121] 200 sm1 = Ok sm2 /\
    @size P_checked sm2 = 2 /\ @find P_checked sm2 121 = Ok None /\
    @find P_checked sm2 120 = Ok (Some 1).
Proof. do 2 eexists. repeat split; vm_compute; reflexivity. Qed.

End Examples.

(** ** Instances of the further properties *)

Section Instances.

Lemma wf_sm_at (P : sharing_map_params) (a i : N) (k : @keyT P)
  (v : @valueT P) :
  @chunk_of 0 (@hash P k) = i -> @wf_map P (sm_at a i k v).
Proof.
  intros Hh. split; [|split; reflexivity].
  split; [repeat constructor|].
  constructor; [|constructor]. split.
  - cbn. split; [discriminate|]. split; [|reflexivity].
    repeat constructor. simpl. tauto.
  - constructor; [|constructor]. exact Hh.
Qed.

Lemma insert_find_witness :
  @wf_map P_checked (@sm_single P_checked 5 5 5) /\
  @has_key P_checked (@sm_single P_checked 5 5 5) 13 = Ok false /\
  @size P_checked (@sm_single P_checked 5 5 5) + 1 < size_t_modulus /\
  exists sm',
    @insert P_checked 200 13 7 (@sm_single P_checked 5 5 5) = Ok sm' /\
    @wf_map P_checked sm' /\
    @size P_checked sm' = @size P_checked (@sm_single P_checked 5 5 5) + 1 /\
    @find P_checked sm' 13 = Ok (Some 7) /\
    forall k', k' <> 13 ->
               @find P_checked sm' k' =
               @find P_checked (@sm_single P_checked 5 5 5) k'.
Proof.
  split; [apply (wf_sm_5_5 P_checked); reflexivity|].
  split; [reflexivity|]. split; [reflexivity|].
  apply (@insert_find P_checked 200 13 7 (@sm_single P_checked 5 5 5));
    [apply (wf_sm_5_5 P_checked); reflexivity|reflexivity|reflexivity].
Defined.

Lemma erase_find_witness :
  @wf_map P_checked (@sm_single P_checked 5 5 5) /\
  @has_key P_checked (@sm_single P_checked 5 5 5) 5 = Ok true /\
  exists sm',
    @erase P_checked 200 5 (@sm_single P_checked 5 5 5) = Ok sm' /\
    @wf_map P_checked sm' /\
    @size P_checked sm' + 1 = @size P_checked (@sm_single P_checked 5 5 5) /\
    @find P_checked sm' 5 = Ok None /\
    forall k', k' <> 5 ->
               @find P_checked sm' k' =
               @find P_checked (@sm_single P_checked 5 5 5) k'.
Proof.
  split; [apply (wf_sm_5_5 P_checked); reflexivity|].
  split; [reflexivity|].
  apply (@erase_find P_checked 200 5 (@sm_single P_checked 5 5 5));
    [apply (wf_sm_5_5 P_checked); reflexivity|reflexivity].
Defined.

Lemma replace_find_witness :
  @wf_map P_debug (@sm_single P_debug 5 5 5) /\
  @find P_debug (@sm_single P_debug 5 5 5) 5 = Ok (Some 5) /\
  @value_equalt P_debug 5 6 = false /\
  exists sm',
    @replace P_debug 200 5 6 (@sm_single P_debug 5 5 5) = Ok sm' /\
    @wf_map P_debug sm' /\
    @size P_debug sm' = @size P_debug (@sm_single P_debug 5 5 5) /\
    @find P_debug sm' 5 = Ok (Some 6) /\
    forall k', k' <> 5 ->
               @find P_debug sm' k' =
               @find P_debug (@sm_single P_debug 5 5 5) k'.
Proof.
  split; [apply (wf_sm_5_5 P_debug); reflexivity|].
  split; [reflexivity|]. split; [reflexivity|].
  apply (@replace_find P_debug 200 5 6 5 (@sm_single P_debug 5 5 5));
    [apply (wf_sm_5_5 P_debug); reflexivity|reflexivity|reflexivity].
Defined.

Lemma update_find_witness :
  @wf_map P_debug (@sm_single P_debug 5 5 5) /\
  @find P_debug (@sm_single P_debug 5 5 5) 5 = Ok (Some 5) /\
  @value_comparatort P_debug 5 (5 + 1) = false /\
  exists sm',
    @update P_debug 200 5 (fun v => v + 1) (@sm_single P_debug 5 5 5)
    = Ok sm' /\
    @wf_map P_debug sm' /\
    @size P_debug sm' = @size P_debug (@sm_single P_debug 5 5 5) /\
    @find P_debug sm' 5 = Ok (Some (5 + 1)) /\
    forall k', k' <> 5 ->
               @find P_debug sm' k' =
               @find P_debug (@sm_single P_debug 5 5 5) k'.
Proof.
  split; [apply (wf_sm_5_5 P_debug); reflexivity|].
  split; [reflexivity|]. split; [reflexivity|].
  apply (@update_find P_debug 200 5 (fun v => v + 1) 5
           (@sm_single P_debug 5 5 5));
    [apply (wf_sm_5_5 P_debug); reflexivity|reflexivity|reflexivity].
Defined.

Lemma erase_if_exists_find_witness :
  @wf_map P_checked (@sm_single P_checked 5 5 5) /\
  exists sm',
    @erase_if_exists P_checked 200 13 (@sm_single P_checked 5 5 5) = Ok sm' /\
    @wf_map P_checked sm' /\
    @find P_checked sm' 13 = Ok None /\
    (forall k', k' <> 13 ->
                @find P_checked sm' k' =
                @find P_checked (@sm_single P_checked 5 5 5) k') /\
    (@has_key P_checked (@sm_single P_checked 5 5 5) 13 = Ok false ->
     sm' = @sm_single P_checked 5 5 5).
Proof.
  split; [apply (wf_sm_5_5 P_checked); reflexivity|].
  apply (@erase_if_exists_find P_checked 200 13 (@sm_single P_checked 5 5 5)).
  apply (wf_sm_5_5 P_checked); reflexivity.
Defined.

Lemma get_view_find_witness :
  @wf_map P_checked (@sm_single P_checked 5 5 5) /\
  exists view,
    @get_view P_checked (@sm_single P_checked 5 5 5) [] = Ok view /\
    N.of_nat (length view) = @size P_checked (@sm_single P_checked 5 5 5) /\
    NoDup (List.map fst view) /\
    forall k v, In (k, v) view <->
                @find P_checked (@sm_single P_checked 5 5 5) k = Ok (Some v).
Proof.
  split; [apply (wf_sm_5_5 P_checked); reflexivity|].
  apply (@get_view_find P_checked (@sm_single P_checked 5 5 5)).
  apply (wf_sm_5_5 P_checked); reflexivity.
Defined.

Lemma iterate_map_view_witness :
  @wf_map P_checked (@sm_single P_checked 5 5 5) /\
  exists view,
    @get_view P_checked (@sm_single P_checked 5 5 5) [] = Ok view /\
    @iterate_map P_checked N (@sm_single P_checked 5 5 5)
      (fun k v acc => k + v + acc) 0 =
    Ok (fold_left (fun a kv => fst kv + snd kv + a) view 0).
Proof.
  split; [apply (wf_sm_5_5 P_checked); reflexivity|].
  apply (@iterate_map_view P_checked N (fun k v acc => k + v + acc) 0
           (@sm_single P_checked 5 5 5)).
  apply (wf_sm_5_5 P_checked); reflexivity.
Defined.

Lemma current_count_find_witness :
  @wf_map (current_names_params R_N)
    (@sm_single (current_names_params R_N) 5 5 (7, 3)) /\
  exists r_opt,
    @find (current_names_params R_N)
      (@sm_single (current_names_params R_N) 5 5 (7, 3)) 5 = Ok r_opt /\
    @current_count R_N (@sm_single (current_names_params R_N) 5 5 (7, 3)) 5 =
    Ok (match r_opt with Some (_, count) => count | None => 0 end) /\
    (@has_key (current_names_params R_N)
       (@sm_single (current_names_params R_N) 5 5 (7, 3)) 5 = Ok false ->
     @current_count R_N (@sm_single (current_names_params R_N) 5 5 (7, 3)) 5
     = Ok 0).
Proof.
  split; [apply (wf_sm_5_5 (current_names_params R_N)); reflexivity|].
  apply (@current_count_find R_N
           (@sm_single (current_names_params R_N) 5 5 (7, 3)) 5).
  apply (wf_sm_5_5 (current_names_params R_N)); reflexivity.
Defined.

Lemma current_count_insert_witness :
  @wf_map (current_names_params R_N)
    (@sm_single (current_names_params R_N) 5 5 (7, 3)) /\
  @has_key (current_names_params R_N)
    (@sm_single (current_names_params R_N) 5 5 (7, 3)) 13 = Ok false /\
  @size (current_names_params R_N)
    (@sm_single (current_names_params R_N) 5 5 (7, 3)) + 1 < size_t_modulus /\
  exists names' : current_namest R_N,
    @insert (current_names_params R_N) 200 13 (8, 2)
      (@sm_single (current_names_params R_N) 5 5 (7, 3)) = Ok names' /\
    @current_count R_N names' 13 = Ok 2 /\
    forall id', id' <> 13 ->
                @current_count R_N names' id' =
                @current_count R_N
                  (@sm_single (current_names_params R_N) 5 5 (7, 3)) id'.
Proof.
  split; [apply (wf_sm_5_5 (current_names_params R_N)); reflexivity|].
  split; [reflexivity|]. split; [reflexivity|].
  apply (@current_count_insert R_N 200
           (@sm_single (current_names_params R_N) 5 5 (7, 3)) 13 8 2);
    [apply (wf_sm_5_5 (current_names_params R_N)); reflexivity
    |reflexivity|reflexivity].
Defined.

Lemma get_variables_find_witness :
  @wf_map (current_names_params R_N)
    (@sm_single (current_names_params R_N) 5 5 (7, 3)) /\
  exists vars',
    @get_variables R_N (@sm_single (current_names_params R_N) 5 5 (7, 3)) [9]
    = Ok vars' /\
    (NoDup [9] -> NoDup vars') /\
    forall e, In e vars' <->
              In e [9] \/
              exists id count,
                @find (current_names_params R_N)
                  (@sm_single (current_names_params R_N) 5 5 (7, 3)) id
                = Ok (Some (e, count)).
Proof.
  split; [apply (wf_sm_5_5 (current_names_params R_N)); reflexivity|].
  apply (@get_variables_find R_N
           (@sm_single (current_names_params R_N) 5 5 (7, 3)) [9]).
  apply (wf_sm_5_5 (current_names_params R_N)); reflexivity.
Defined.

Lemma delta_view_sound_witness :
  @wf_map P_checked (@sm_single P_checked 5 5 5) /\
  @wf_map P_checked (@sm_at P_checked 200 5 5 6) /\
  exists dv,
    @get_delta_view P_checked (@sm_single P_checked 5 5 5)
      (@sm_at P_checked 200 5 5 6) [] false = Ok dv /\
    NoDup (List.map (@item_k P_checked) dv) /\
    forall it, In it dv ->
               @find P_checked (@sm_single P_checked 5 5 5) (item_k it) =
               Ok (Some (item_m it)) /\
               @find P_checked (@sm_at P_checked 200 5 5 6) (item_k it) =
               Ok (other_m it).
Proof.
  split; [apply (wf_sm_5_5 P_checked); reflexivity|].
  split; [apply (wf_sm_at P_checked); reflexivity|].
  apply (@delta_view_sound P_checked (@sm_single P_checked 5 5 5)
           (@sm_at P_checked 200 5 5 6) false);
    [apply (wf_sm_5_5 P_checked); reflexivity
    |apply (wf_sm_at P_checked); reflexivity].
Defined.

Lemma coherent_single_at :
  @coherent P_checked (@sm_single P_checked 5 5 5)
    (@sm_at P_checked 200 5 5 6).
Proof.
  split.
  - intros n1 n2 [<-|[<-|[]]] [<-|[<-|[]]] H; discriminate H.
  - intros l1 l2 [<-|[]] [<-|[]] H; discriminate H.
Qed.

Lemma delta_view_complete_witness :
  @wf_map P_checked (@sm_single P_checked 5 5 5) /\
  @wf_map P_checked (@sm_at P_checked 200 5 5 6) /\
  @coherent P_checked (@sm_single P_checked 5 5 5)
    (@sm_at P_checked 200 5 5 6) /\
  @get_delta_view P_checked (@sm_single P_checked 5 5 5)
    (@sm_at P_checked 200 5 5 6) [] false =
  Ok [@mk_delta_view_item P_checked 5 5 (Some 6)] /\
  @find P_checked (@sm_single P_checked 5 5 5) 5 = Ok (Some 5) /\
  (forall v', @find P_checked (@sm_at P_checked 200 5 5 6) 5 = Ok (Some v') ->
              v' <> 5 ->
              In (@mk_delta_view_item P_checked 5 5 (Some v'))
                [@mk_delta_view_item P_checked 5 5 (Some 6)]) /\
  (@find P_checked (@sm_at P_checked 200 5 5 6) 5 = Ok None -> false = false ->
   In (@mk_delta_view_item P_checked 5 5 None)
     [@mk_delta_view_item P_checked 5 5 (Some 6)]).
Proof.
  split; [apply (wf_sm_5_5 P_checked); reflexivity|].
  split; [apply (wf_sm_at P_checked); reflexivity|].
  split; [exact coherent_single_at|].
  split; [reflexivity|]. split; [reflexivity|].
  apply (@delta_view_complete P_checked (@sm_single P_checked 5 5 5)
           (@sm_at P_checked 200 5 5 6) false
           [@mk_delta_view_item P_checked 5 5 (Some 6)] );
    [apply (wf_sm_5_5 P_checked); reflexivity
    |apply (wf_sm_at P_checked); reflexivity
    |exact coherent_single_at|reflexivity|reflexivity].
Defined.

Lemma delta_view_against_empty_witness :
  @wf_map P_checked (@sm_single P_checked 5 5 5) /\
  @empty P_checked (@new_map P_checked) = true /\
  exists view,
    @get_view P_checked (@sm_single P_checked 5 5 5) [] = Ok view /\
    @get_delta_view P_checked (@sm_single P_checked 5 5 5)
      (@new_map P_checked) [] false =
    Ok (List.map
          (fun kv => @mk_delta_view_item P_checked (fst kv) (snd kv) None)
          view).
Proof.
  split; [apply (wf_sm_5_5 P_checked); reflexivity|].
  split; [reflexivity|].
  apply (@delta_view_against_empty P_checked (@sm_single P_checked 5 5 5)
           (@new_map P_checked) false);
    [apply (wf_sm_5_5 P_checked); reflexivity|reflexivity].
Defined.

Lemma checked_preconditions_witness :
  @SM_INTERNAL_CHECKS P_checked = true /\
  @wf_map P_checked (@sm_single P_checked 5 5 5) /\
  @size P_checked (@sm_single P_checked 5 5 5) + 1 < size_t_modulus /\
  ((@has_key P_checked (@sm_single P_checked 5 5 5) 13 = Ok true /\
    @insert P_checked 200 13 7 (@sm_single P_checked 5 5 5)
    = Fail invariant_violation /\
    exists sm', @erase P_checked 200 13 (@sm_single P_checked 5 5 5) = Ok sm')
   \/
   (@has_key P_checked (@sm_single P_checked 5 5 5) 13 = Ok false /\
    (exists sm',
        @insert P_checked 200 13 7 (@sm_single P_checked 5 5 5) = Ok sm') /\
    @erase P_checked 200 13 (@sm_single P_checked 5 5 5)
    = Fail invariant_violation /\
    @replace P_checked 200 13 7 (@sm_single P_checked 5 5 5)
    = Fail invariant_violation /\
    @update P_checked 200 13 (fun x => x + 1) (@sm_single P_checked 5 5 5)
    = Fail invariant_violation)).
Proof.
  split; [reflexivity|].
  split; [apply (wf_sm_5_5 P_checked); reflexivity|].
  split; [reflexivity|].
  apply (@checked_preconditions P_checked 200 13 7 (fun x => x + 1)
           (@sm_single P_checked 5 5 5));
    [reflexivity|apply (wf_sm_5_5 P_checked); reflexivity|reflexivity].
Defined.

Lemma coherent_single :
  @coherent P_debug (@sm_single P_debug 5 5 5) (@sm_single P_debug 5 5 5).
Proof.
  split.
  - intros n1 n2 [<-|[<-|[]]] [<-|[<-|[]]] H; try reflexivity; discriminate H.
  - intros l1 l2 [<-|[]] [<-|[]] _. reflexivity.
Qed.

Lemma below_single : @below P_debug 200 (@sm_single P_debug 5 5 5).
Proof.
  split.
  - intros n a [<-|[<-|[]]] [= <-]; reflexivity.
  - intros l [<-|[]]. reflexivity.
Qed.

Lemma delta_view_after_insert_witness :
  @wf_map P_debug (@sm_single P_debug 5 5 5) /\
  @coherent P_debug (@sm_single P_debug 5 5 5) (@sm_single P_debug 5 5 5) /\
  @below P_debug 200 (@sm_single P_debug 5 5 5) /\
  @has_key P_debug (@sm_single P_debug 5 5 5) 13 = Ok false /\
  @size P_debug (@sm_single P_debug 5 5 5) + 1 < size_t_modulus /\
  exists sm',
    @insert P_debug 200 13 7 (@clone P_debug (@sm_single P_debug 5 5 5))
    = Ok sm' /\
    @get_delta_view P_debug sm' (@sm_single P_debug 5 5 5) [] false =
    Ok [@mk_delta_view_item P_debug 13 7 None] /\
    forall only_common,
      @get_delta_view P_debug (@sm_single P_debug 5 5 5) sm' [] only_common
      = Ok [].
Proof.
  split; [apply (wf_sm_5_5 P_debug); reflexivity|].
  split; [exact coherent_single|]. split; [exact below_single|].
  split; [reflexivity|]. split; [reflexivity|].
  apply (@delta_view_after_insert P_debug 200 13 7 (@sm_single P_debug 5 5 5));
    [apply (wf_sm_5_5 P_debug); reflexivity|exact coherent_single
    |exact below_single|reflexivity|reflexivity].
Defined.

Lemma delta_view_after_erase_witness :
  @wf_map P_debug (@sm_single P_debug 5 5 5) /\
  @coherent P_debug (@sm_single P_debug 5 5 5) (@sm_single P_debug 5 5 5) /\
  @below P_debug 200 (@sm_single P_debug 5 5 5) /\
  @find P_debug (@sm_single P_debug 5 5 5) 5 = Ok (Some 5) /\
  exists sm',
    @erase P_debug 200 5 (@clone P_debug (@sm_single P_debug 5 5 5))
    = Ok sm' /\
    @get_delta_view P_debug (@sm_single P_debug 5 5 5) sm' [] false =
    Ok [@mk_delta_view_item P_debug 5 5 None] /\
    forall only_common,
      @get_delta_view P_debug sm' (@sm_single P_debug 5 5 5) [] only_common
      = Ok [].
Proof.
  split; [apply (wf_sm_5_5 P_debug); reflexivity|].
  split; [exact coherent_single|]. split; [exact below_single|].
  split; [reflexivity|].
  apply (@delta_view_after_erase P_debug 200 5 5 (@sm_single P_debug 5 5 5));
    [apply (wf_sm_5_5 P_debug); reflexivity|exact coherent_single
    |exact below_single|reflexivity].
Defined.

Lemma delta_view_after_replace_witness :
  @wf_map P_debug (@sm_single P_debug 5 5 5) /\
  @coherent P_debug (@sm_single P_debug 5 5 5) (@sm_single P_debug 5 5 5) /\
  @below P_debug 200 (@sm_single P_debug 5 5 5) /\
  @find P_debug (@sm_single P_debug 5 5 5) 5 = Ok (Some 5) /\
  @value_equalt P_debug 5 6 = false /\
  exists sm',
    @replace P_debug 200 5 6 (@clone P_debug (@sm_single P_debug 5 5 5))
    = Ok sm' /\
    @get_delta_view P_debug sm' (@sm_single P_debug 5 5 5) [] true =
    Ok [@mk_delta_view_item P_debug 5 6 (Some 5)] /\
    @get_delta_view P_debug (@sm_single P_debug 5 5 5) sm' [] true =
    Ok [@mk_delta_view_item P_debug 5 5 (Some 6)].
Proof.
  split; [apply (wf_sm_5_5 P_debug); reflexivity|].
  split; [exact coherent_single|]. split; [exact below_single|].
  split; [reflexivity|]. split; [reflexivity|].
  apply (@delta_view_after_replace P_debug 200 5 6 5
           (@sm_single P_debug 5 5 5) true);
    [apply (wf_sm_5_5 P_debug); reflexivity|exact coherent_single
    |exact below_single|reflexivity|reflexivity].
Defined.

Lemma delta_view_after_update_witness :
  @wf_map P_debug (@sm_single P_debug 5 5 5) /\
  @coherent P_debug (@sm_single P_debug 5 5 5) (@sm_single P_debug 5 5 5) /\
  @below P_debug 200 (@sm_single P_debug 5 5 5) /\
  @find P_debug (@sm_single P_debug 5 5 5) 5 = Ok (Some 5) /\
  @value_comparatort P_debug 5 (5 + 1) = false /\
  exists sm',
    @update P_debug 200 5 (fun x => x + 1)
      (@clone P_debug (@sm_single P_debug 5 5 5)) = Ok sm' /\
    @get_delta_view P_debug sm' (@sm_single P_debug 5 5 5) [] false =
    Ok [@mk_delta_view_item P_debug 5 (5 + 1) (Some 5)] /\
    @get_delta_view P_debug (@sm_single P_debug 5 5 5) sm' [] false =
    Ok [@mk_delta_view_item P_debug 5 5 (Some (5 + 1))].
Proof.
  split; [apply (wf_sm_5_5 P_debug); reflexivity|].
  split; [exact coherent_single|]. split; [exact below_single|].
  split; [reflexivity|]. split; [reflexivity|].
  apply (@delta_view_after_update P_debug 200 5 (fun x => x + 1) 5
           (@sm_single P_debug 5 5 5) false);
    [apply (wf_sm_5_5 P_debug); reflexivity|exact coherent_single
    |exact below_single|reflexivity|reflexivity].
Defined.

Lemma sharing_stats_counts_witness :
  Forall (@wf_map P_checked)
    [@sm_single P_checked 5 5 5; @sm_at P_checked 200 5 5 6] /\
  @maps_weight P_checked false
    [@sm_single P_checked 5 5 5; @sm_at P_checked 200 5 5 6]
  < unsigned_modulus /\
  exists stats,
    @get_sharing_stats P_checked single_user
      [@sm_single P_checked 5 5 5; @sm_at P_checked 200 5 5 6] = Ok stats /\
    num_nodes stats =
    @maps_weight P_checked false
      [@sm_single P_checked 5 5 5; @sm_at P_checked 200 5 5 6] /\
    num_leafs stats =
    fold_right (fun sm t => @size P_checked sm + t) 0
      [@sm_single P_checked 5 5 5; @sm_at P_checked 200 5 5 6] /\
    num_unique_nodes stats <= num_nodes stats /\
    num_unique_leafs stats <= num_leafs stats.
Proof.
  assert (Hwf : Forall (@wf_map P_checked)
                  [@sm_single P_checked 5 5 5; @sm_at P_checked 200 5 5 6]).
  { constructor; [apply (wf_sm_5_5 P_checked); reflexivity|].
    constructor; [apply (wf_sm_at P_checked); reflexivity|constructor]. }
  split; [exact Hwf|]. split; [reflexivity|].
  apply (@sharing_stats_counts P_checked single_user
           [@sm_single P_checked 5 5 5; @sm_at P_checked 200 5 5 6]);
    [exact Hwf|reflexivity].
Defined.

Lemma sharing_stats_unshared_witness :
  Forall (@wf_map P_checked)
    [@sm_single P_checked 5 5 5; @sm_at P_checked 200 5 5 6] /\
  @maps_weight P_checked false
    [@sm_single P_checked 5 5 5; @sm_at P_checked 200 5 5 6]
  < unsigned_modulus /\
  (forall a, single_user a < 2) /\
  exists stats,
    @get_sharing_stats P_checked single_user
      [@sm_single P_checked 5 5 5; @sm_at P_checked 200 5 5 6] = Ok stats /\
    num_unique_nodes stats = num_nodes stats /\
    num_unique_leafs stats = num_leafs stats.
Proof.
  assert (Hwf : Forall (@wf_map P_checked)
                  [@sm_single P_checked 5 5 5; @sm_at P_checked 200 5 5 6]).
  { constructor; [apply (wf_sm_5_5 P_checked); reflexivity|].
    constructor; [apply (wf_sm_at P_checked); reflexivity|constructor]. }
  split; [exact Hwf|]. split; [reflexivity|].
  split; [intros a; reflexivity|].
  apply (@sharing_stats_unshared P_checked single_user
           [@sm_single P_checked 5 5 5; @sm_at P_checked 200 5 5 6]);
    [exact Hwf|reflexivity|intros a; reflexivity].
Defined.

Lemma sharing_stats_of_copy_witness :
  @wf_map P_checked (@sm_single P_checked 5 5 5) /\
  NoDup (@addresses P_checked (@map P_checked (@sm_single P_checked 5 5 5))) /\
  (forall p, @data_of P_checked (@map P_checked (@sm_single P_checked 5 5 5))
             = Some p -> 2 <= root_shared p) /\
  2 * @map_weight P_checked false (@sm_single P_checked 5 5 5)
  < unsigned_modulus /\
  @get_sharing_stats P_checked root_shared
    [@sm_single P_checked 5 5 5;
     @clone P_checked (@sm_single P_checked 5 5 5)] =
  Ok (@mk_sharing_map_stats 6 3 2 1).
Proof.
  assert (Hnd : NoDup (@addresses P_checked
                         (@map P_checked (@sm_single P_checked 5 5 5)))).
  { cbn. repeat constructor; cbn; intuition discriminate. }
  assert (Hroot : forall p,
             @data_of P_checked (@map P_checked (@sm_single P_checked 5 5 5))
             = Some p -> 2 <= root_shared p).
  { intros p [= <-]. discriminate. }
  split; [apply (wf_sm_5_5 P_checked); reflexivity|].
  split; [exact Hnd|]. split; [exact Hroot|]. split; [reflexivity|].
  apply (@sharing_stats_of_copy P_checked root_shared
           (@sm_single P_checked 5 5 5));
    [apply (wf_sm_5_5 P_checked); reflexivity|exact Hnd|exact Hroot
    |reflexivity].
Defined.

Lemma get_view_after_insert_witness :
  @wf_map P_checked (@sm_single P_checked 5 5 5) /\
  @has_key P_checked (@sm_single P_checked 5 5 5) 13 = Ok false /\
  @size P_checked (@sm_single P_checked 5 5 5) + 1 < size_t_modulus /\
  exists sm' pre post,
    @insert P_checked 200 13 7 (@sm_single P_checked 5 5 5) = Ok sm' /\
    @get_view P_checked (@sm_single P_checked 5 5 5) [] = Ok (pre ++ post) /\
    @get_view P_checked sm' [] = Ok (pre ++ (13, 7) :: post).
Proof.
  split; [apply (wf_sm_5_5 P_checked); reflexivity|].
  split; [reflexivity|]. split; [reflexivity|].
  apply (@get_view_after_insert P_checked 200 13 7 (@sm_single P_checked 5 5 5));
    [apply (wf_sm_5_5 P_checked); reflexivity|reflexivity|reflexivity].
Defined.

Lemma get_view_after_erase_witness :
  @wf_map P_checked (@sm_single P_checked 5 5 5) /\
  @find P_checked (@sm_single P_checked 5 5 5) 5 = Ok (Some 5) /\
  exists sm' pre post,
    @erase P_checked 200 5 (@sm_single P_checked 5 5 5) = Ok sm' /\
    @get_view P_checked (@sm_single P_checked 5 5 5) []
    = Ok (pre ++ (5, 5) :: post) /\
    @get_view P_checked sm' [] = Ok (pre ++ post).
Proof.
  split; [apply (wf_sm_5_5 P_checked); reflexivity|].
  split; [reflexivity|].
  apply (@get_view_after_erase P_checked 200 5 5 (@sm_single P_checked 5 5 5));
    [apply (wf_sm_5_5 P_checked); reflexivity|reflexivity].
Defined.

Lemma get_view_after_replace_witness :
  @wf_map P_debug (@sm_single P_debug 5 5 5) /\
  @find P_debug (@sm_single P_debug 5 5 5) 5 = Ok (Some 5) /\
  @value_equalt P_debug 5 6 = false /\
  exists sm' pre post,
    @replace P_debug 200 5 6 (@sm_single P_debug 5 5 5) = Ok sm' /\
    @get_view P_debug (@sm_single P_debug 5 5 5) []
    = Ok (pre ++ (5, 5) :: post) /\
    @get_view P_debug sm' [] = Ok (pre ++ (5, 6) :: post).
Proof.
  split; [apply (wf_sm_5_5 P_debug); reflexivity|].
  split; [reflexivity|]. split; [reflexivity|].
  apply (@get_view_after_replace P_debug 200 5 6 5 (@sm_single P_debug 5 5 5));
    [apply (wf_sm_5_5 P_debug); reflexivity|reflexivity|reflexivity].
Defined.

Lemma insert_commute_witness :
  @wf_map P_checked (@sm_single P_checked 5 5 5) /\
  (13 : N) <> 21 /\
  @has_key P_checked (@sm_single P_checked 5 5 5) 13 = Ok false /\
  @has_key P_checked (@sm_single P_checked 5 5 5) 21 = Ok false /\
  @size P_checked (@sm_single P_checked 5 5 5) + 2 < size_t_modulus /\
  exists a b a' b',
    @insert P_checked 200 13 7 (@sm_single P_checked 5 5 5) = Ok a /\
    @insert P_checked 300 21 8 a = Ok b /\
    @insert P_checked 400 21 8 (@sm_single P_checked 5 5 5) = Ok a' /\
    @insert P_checked 500 13 7 a' = Ok b' /\
    @size P_checked b = @size P_checked b' /\
    forall k, @find P_checked b k = @find P_checked b' k.
Proof.
  split; [apply (wf_sm_5_5 P_checked); reflexivity|].
  split; [discriminate|]. split; [reflexivity|]. split; [reflexivity|].
  split; [reflexivity|].
  apply (@insert_commute P_checked 200 300 400 500 13 21 7 8
           (@sm_single P_checked 5 5 5));
    [apply (wf_sm_5_5 P_checked); reflexivity|discriminate|reflexivity
    |reflexivity|reflexivity].
Defined.

Lemma trie_height_bounded_witness :
  @respects_preconditions P_checked ops_example [] = true /\
  N.of_nat (length ops_example) < size_t_modulus /\
  exists sm,
    @run P_checked ops_example 100 (@new_map P_checked) = Ok sm /\
    (@height P_checked (@map P_checked sm) <= N.to_nat levels)%nat.
Proof.
  split; [reflexivity|]. split; [reflexivity|].
  apply (@trie_height_bounded P_checked ops_example 100);
    [reflexivity|reflexivity].
Defined.

End Instances.
